(** * margo: the completed-package cache and the kim-porter importer

    A shallow embedding of [golang/mgccache.go] (package [golang]) and of
    the [kimporter] package, with the properties of their specification.

    Conventions of the embedding:
    - a Go pointer that may be nil is an [option]; a [*state] is an address
      into an explicit heap, so that pointer equality is address equality
      and shared, mutated states are modelled once;
    - a Go call that may panic, or whose recursion may not return, yields an
      [outcome];
    - a Go map is a [gmap]; the order in which [range] visits it is left
      open by the language, so loops over a map take the visiting order as
      an argument and the theorems quantify over it;
    - mutexes serialise the critical sections they guard; every operation
      below is the sequential body of its critical section;
    - goroutines take atomic steps in turn; the interleaving is an argument
      of the code that starts them, and the theorems quantify over it. *)

From Stdlib Require Import ZArith List String Ascii Bool Lia.
From Stdlib.Strings Require Import Byte.
From Stdlib.Structures Require OrderedTypeEx.
From stdpp Require Import base option list gmap strings sorting.

Local Open Scope string_scope.

Set Warnings "-register-all".

(** ** Outcomes of calls *)

Inductive outcome (A : Type) : Type :=
| Done (a : A)
| Panic (msg : string)
| OutOfFuel.
Arguments Done {A} a.
Arguments Panic {A} msg.
Arguments OutOfFuel {A}.

(** Sequencing: a call that does not return ends the caller too. *)
#[global] Instance outcome_bind : MBind outcome := λ A B f x,
  match x with
  | Done a => f a
  | Panic msg => Panic msg
  | OutOfFuel => OutOfFuel
  end.

#[global] Instance outcome_ret : MRet outcome := λ A a, Done a.

(** The runtime's message for a method call or field access through nil. *)
Definition nil_deref : string :=
  "invalid memory address or nil pointer dereference".

(** ** go/types packages, as far as the importer looks at them *)

Module GoTypes.

(** [types.Package]: the path, the name and the [complete] flag that
    [MarkComplete] sets and [Complete] reads. *)
Record Package : Type := mkPackage {
  path : string;
  name : string;
  complete : bool
}.

(** [types.NewPackage(path, name)] *)
Definition NewPackage (path name : string) : Package :=
  {| path := path; name := name; complete := false |}.

(** [pkg.MarkComplete()] *)
Definition MarkComplete (p : Package) : Package :=
  {| path := path p; name := name p; complete := true |}.

(** [pkg.Complete()] on a [*types.Package]: the receiver is read, so a nil
    receiver panics. *)
Definition Complete (p : option Package) : outcome bool :=
  match p with
  | Some p => Done (complete p)
  | None => Panic nil_deref
  end.

End GoTypes.

(** ** golang/mgccache.go *)

Module MgcCache.

(** [mgcCacheKey]: a string, the cleaned slash form of a directory. *)
Definition mgcCacheKey : Type := string.

(** [mgcCacheEnt] *)
Record mgcCacheEnt : Type := mkEnt {
  Key : mgcCacheKey;
  Pkg : option GoTypes.Package;
  Dur : Z
}.

(** A compiled [*regexp.Regexp], seen through [MatchString]. *)
Record Regexp : Type := mkRegexp { MatchString : string -> bool }.

(** The field [m] of [mgcCache]. *)
Abbreviation cache := (gmap mgcCacheKey mgcCacheEnt).

(** [mc.get(k)]: the entry and whether it was found. *)
Definition get (k : mgcCacheKey) (m : cache) : option mgcCacheEnt := m !! k.

(** [mc.put(e)] *)
Definition put (e : mgcCacheEnt) (m : cache) : outcome cache :=
  complete ← GoTypes.Complete (Pkg e);
  if negb complete then Done m
  else Done (<[Key e := e]> m).

(** [mc.del(k)] *)
Definition del (k : mgcCacheKey) (m : cache) : cache :=
  match m !! k with
  | None => m
  | Some _ => delete k m
  end.

(** The inner loop of [prune], over the patterns, for one entry [e]:
    every pattern that matches appends [e] and deletes its key; the loop
    does not stop at the first match. *)
Fixpoint prune_pats (e : mgcCacheEnt) (pats : list Regexp)
    (ents : list mgcCacheEnt) (m : cache) : list mgcCacheEnt * cache :=
  match pats with
  | [] => (ents, m)
  | pat :: pats' =>
      if MatchString pat (Key e)
      then prune_pats e pats' (ents ++ [e]) (delete (Key e) m)
      else prune_pats e pats' ents m
  end.

(** The outer loop of [prune], [for _, e := range mc.m], visiting the keys
    in the order [order]. An entry deleted before the loop reaches it is
    not produced. *)
Fixpoint prune_range (order : list mgcCacheKey) (pats : list Regexp)
    (ents : list mgcCacheEnt) (m : cache) : list mgcCacheEnt * cache :=
  match order with
  | [] => (ents, m)
  | k :: order' =>
      match m !! k with
      | Some e =>
          let '(ents', m') := prune_pats e pats ents m in
          prune_range order' pats ents' m'
      | None => prune_range order' pats ents m
      end
  end.

(** [mc.prune(pats...)] when [range] visits the keys in the order
    [order]. *)
Definition prune_in (order : list mgcCacheKey) (pats : list Regexp)
    (m : cache) : list mgcCacheEnt * cache :=
  prune_range order pats [] m.

(** [mc.prune(pats...)] for one visiting order, that of [map_to_list]. *)
Definition prune (pats : list Regexp) (m : cache) : list mgcCacheEnt * cache :=
  prune_in (map fst (map_to_list m)) pats m.

(** [mc.entries()] *)
Definition entries (m : cache) : list mgcCacheEnt := map snd (map_to_list m).

(** The operations a client can apply to the shared cache. *)
Inductive op : Type :=
| OpGet (k : mgcCacheKey)
| OpPut (e : mgcCacheEnt)
| OpDel (k : mgcCacheKey)
| OpPrune (order : list mgcCacheKey) (pats : list Regexp).

Definition step (o : op) (m : cache) : outcome cache :=
  match o with
  | OpGet k => Done m
  | OpPut e => put e m
  | OpDel k => Done (del k m)
  | OpPrune order pats => Done (snd (prune_in order pats m))
  end.

(** A sequence of operations; a panicking call unwinds before it has
    touched the map, and the run ends there. *)
Fixpoint run (ops : list op) (m : cache) : cache :=
  match ops with
  | [] => m
  | o :: ops' =>
      match step o m with
      | Done m' => run ops' m'
      | _ => m
      end
  end.

(** Every entry holds a package that reports itself complete. *)
Definition all_complete (m : cache) : Prop :=
  ∀ k e, m !! k = Some e → ∃ p, Pkg e = Some p ∧ GoTypes.complete p = true.

(** Every entry is stored under its own key, as [put] stores it. *)
Definition keyed (m : cache) : Prop :=
  ∀ k e, m !! k = Some e → Key e = k.

(** Does some pattern match the key? *)
Definition matches (pats : list Regexp) (k : mgcCacheKey) : bool :=
  existsb (fun pat => MatchString pat k) pats.

(** How often the inner loop of [prune] appends an entry stored at [k]. *)
Fixpoint hits (pats : list Regexp) (k : mgcCacheKey) : nat :=
  match pats with
  | [] => 0
  | pat :: pats' => (if MatchString pat k then 1 else 0) + hits pats' k
  end.

(** A visiting order of [range] over [m]: every key of [m], once. *)
Definition visits (order : list mgcCacheKey) (m : cache) : Prop :=
  NoDup order ∧ ∀ k, k ∈ order ↔ is_Some (m !! k).

(** Sample data: a complete and an incomplete package, their entries, and
    the patterns [^/tmp/] and [^/]. *)
Definition pkg_x : GoTypes.Package :=
  GoTypes.MarkComplete (GoTypes.NewPackage "example.org/x" "x").

Definition pkg_partial : GoTypes.Package := GoTypes.NewPackage "example.org/y" "y".

Definition ent_x : mgcCacheEnt := {| Key := "/tmp/x"; Pkg := Some pkg_x; Dur := 7 |}.

Definition ent_partial : mgcCacheEnt :=
  {| Key := "/tmp/y"; Pkg := Some pkg_partial; Dur := 3 |}.

Definition pat_tmp : Regexp := {| MatchString := String.prefix "/tmp/" |}.

Definition pat_root : Regexp := {| MatchString := String.prefix "/" |}.

Definition cache_x : cache := {[ "/tmp/x" := ent_x ]}.

Definition ent_at (k : mgcCacheKey) : mgcCacheEnt :=
  {| Key := k; Pkg := Some pkg_x; Dur := 1 |}.

(** The cache with the keys [/tmp/x], [/tmp/y] and [/home/z]. *)
Definition cache_xyz : cache :=
  {[ "/tmp/x" := ent_at "/tmp/x"; "/tmp/y" := ent_at "/tmp/y";
     "/home/z" := ent_at "/home/z" ]}.

End MgcCache.

(** ** The kimporter package *)

Module Kimporter.

(** *** Packages and errors *)

(** [token.Pos] and [token.Position]; Go's [int] is 64 bits wide here. *)
Definition Pos : Type := Z.

Record Position : Type := mkPosition {
  Filename : string;
  Offset : Z;
  Line : Z;
  Column : Z
}.

(** [token.FileSet], seen through [fset.Position(p)]. *)
Record FileSet : Type := mkFileSet { FileSet_Position : Pos -> Position }.

(** [ast.Ident], [ast.BasicLit], [ast.ImportSpec] and [ast.File], with the
    fields the importer reads. *)
Record Ident : Type := mkIdent { NamePos : Pos; Ident_Name : string }.

Record BasicLit : Type := mkBasicLit { ValuePos : Pos; Value : string }.

Record ImportSpec : Type := mkImportSpec {
  Name : option Ident;
  Path : option BasicLit
}.

Record File : Type := mkFile { File_Imports : list ImportSpec }.

(** [TypesInfo], a [uint] bit mask. *)
Definition TypesInfo : Type := N.

(** [Package]: the embedded [*types.Package] is never nil, [NewPackage]
    panics on nil; the other fields are optional. [Info] records which
    maps [TypesInfo.New] allocated. *)
Inductive Package : Type := mkPackage {
  Package_types : GoTypes.Package;
  Fset : option FileSet;
  Info : option TypesInfo;
  Imports : option (list (string * Package));
  Files : option (list (string * File))
}.

(** [NewPackage(pkg, fset, files, info, imports)] *)
Definition NewPackage (pkg : option GoTypes.Package) (fset : option FileSet)
    (files : option (list (string * File))) (info : option TypesInfo)
    (imports : option (list (string * Package))) : outcome Package :=
  match pkg with
  | None => Panic "NewPackage: pkg==nil"
  | Some pkg =>
      Done {| Package_types := pkg; Fset := fset; Info := info;
              Files := files; Imports := imports |}
  end.

(** [p.Complete()] on a [*Package]: the method of the embedded
    [*types.Package], reached through the receiver. *)
Definition Complete (p : option Package) : outcome bool :=
  match p with
  | Some p => GoTypes.Complete (Some (Package_types p))
  | None => Panic nil_deref
  end.

(** [mg.Issue], with the fields the importer fills in. *)
Record Issue : Type := mkIssue {
  Issue_Path : string;
  Row : Z;
  Col : Z;
  Message : string
}.

(** Error values: [fmt.Errorf(format, args...)] is kept as its format and
    arguments, an [mg.Issue] as itself, and an error of a collaborator
    (resolver, parser, type checker) as its text. *)
Inductive error : Type :=
| Errorf (format : string) (args : list string)
| IssueError (i : Issue)
| ErrorString (msg : string).

(** *** States *)

Record stateKey : Type := mkStateKey {
  ImportPath : string;
  Dir : string;
  CheckFuncs : bool;
  CheckImports : bool;
  Tests : bool;
  Tags : string;
  GOARCH : string;
  GOOS : string;
  GOROOT : string;
  GOPATH : string;
  NoHash : bool;
  key_TypesInfo : TypesInfo
}.

(** A [*state] is an address into the heap. *)
Abbreviation addr := nat.

Record state : Type := mkState {
  key : stateKey;
  chkAt : Z;
  invAt : Z;
  imby : list addr;
  err : option error;
  pkg : option Package;
  hash : string
}.

Abbreviation heap := (list state).

(** The factory of [globalState]: [&state{stateKey: k}]. *)
Definition newState (k : stateKey) : state :=
  {| key := k; chkAt := 0; invAt := 0; imby := []; err := None;
     pkg := None; hash := "" |}.

Definition set_invAt (n : Z) (st : state) : state :=
  {| key := key st; chkAt := chkAt st; invAt := n; imby := imby st;
     err := err st; pkg := pkg st; hash := hash st |}.

Definition set_imby (l : list addr) (st : state) : state :=
  {| key := key st; chkAt := chkAt st; invAt := invAt st; imby := l;
     err := err st; pkg := pkg st; hash := hash st |}.

(** The stores at the end of [importPkg]: [ks.pkg, ks.err = ...],
    [ks.hash = kp.hash], [ks.chkAt.Set(chkAt)]. *)
Definition set_checked (p : option Package) (e : option error) (hs : string)
    (at_ : Z) (st : state) : state :=
  {| key := key st; chkAt := at_; invAt := invAt st; imby := imby st;
     err := e; pkg := p; hash := hs |}.

(** A loop [for _, x := range l] whose body may fail. *)
Fixpoint forEach {A S : Type} (body : A -> S -> outcome S) (l : list A)
    (s : S) : outcome S :=
  match l with
  | [] => Done s
  | x :: l' => s' ← body x s; forEach body l' s'
  end.

(** [ks.invalidate(invAt)]. The recursion has no guard; [fuel] bounds its
    depth, and [OutOfFuel] stands for a call that has not returned within
    that depth. *)
Fixpoint invalidate (fuel : nat) (ks : addr) (at_ : Z) (h : heap)
    : outcome heap :=
  match fuel with
  | O => OutOfFuel
  | S fuel' =>
      match h !! ks with
      | None => Panic nil_deref
      | Some st =>
          let h1 := <[ks := set_invAt at_ st]> h in
          let l := imby st in
          forEach (fun p => invalidate fuel' p at_) l h1
      end
  end.

(** [ks.InvalidateMemo(invAt)] *)
Definition InvalidateMemo (fuel : nat) (ks : addr) (at_ : Z) (h : heap)
    : outcome heap :=
  invalidate fuel ks at_ h.

(** The loop of [importedBy]: is [p] one of the pointers of [l]? *)
Fixpoint listed (p : addr) (l : list addr) : bool :=
  match l with
  | [] => false
  | q :: l' => if Nat.eqb p q then true else listed p l'
  end.

(** [ks.importedBy(p)] *)
Definition importedBy (ks p : addr) (h : heap) : outcome heap :=
  match h !! ks with
  | None => Panic nil_deref
  | Some st =>
      if listed p (imby st) then Done h
      else Done (<[ks := set_imby (imby st ++ [p]) st]> h)
  end.

(** [ks.valid(hash)] *)
Definition valid (hs : string) (ks : state) : bool :=
  (invAt ks <? chkAt ks)%Z && (NoHash (key ks) || String.eqb (hash ks) hs).

(** [ks.result()] *)
Definition result (ks : state) : outcome (option Package * option error) :=
  match err ks with
  | Some e => Done (None, Some e)
  | None =>
      complete ← Complete (pkg ks);
      if negb complete
      then Done (pkg ks,
                 Some (Errorf "reimported partially imported package %q"
                              [ImportPath (key ks)]))
      else Done (pkg ks, None)
  end.

(** *** The importer and its per-descent branch *)

(** A Go map of byte slices keyed by file name; [None] is the nil map. *)
Abbreviation srcmap := (option (gmap string (list byte))).

Record Config : Type := mkConfig {
  PackageSrc : srcmap;
  SrcMap : srcmap;
  cfg_CheckFuncs : bool;
  cfg_CheckImports : bool;
  NoConcurrency : bool;
  cfg_Tests : bool;
  cfg_TypesInfo : TypesInfo;
  ImportsTypesInfo : bool
}.

(** [build.Context], with the fields the importer reads. *)
Record BuildContext : Type := mkBuildContext {
  bld_GOARCH : string;
  bld_GOOS : string;
  bld_GOROOT : string;
  bld_GOPATH : string;
  Compiler : string;
  BuildTags : list string
}.

(** A [*vfs.Node]; two pokes of one directory give one node. *)
Definition Node : Type := nat.

(** [mg.Ctx], seen through [mx.VFS.Poke(path)], [node.Poke(rel)] and
    [mx.View.Dir()]. *)
Record Ctx : Type := mkCtx {
  VFS_Poke : string -> Node;
  Node_Poke : Node -> string -> Node;
  View_Dir : string
}.

(** Modelled from the spec: [gopkg.ModPath], the module root and path that
    a resolved package may carry; its declaration is not part of the
    importer's file. *)
Record ModPath : Type := mkModPath { mod_Dir : string; mod_Path : string }.

(** Modelled from the spec: [gopkg.PkgPath], the resolved identity of a
    package: import path, directory and optional module. *)
Record PkgPath : Type := mkPkgPath {
  pp_ImportPath : string;
  pp_Dir : string;
  Mod : option ModPath
}.

Inductive Importer : Type := mkImporter {
  cfg : Config;
  mx : Ctx;
  bld : BuildContext;
  ks : option addr;
  mp : option ModPath;
  par : option Importer;
  tags : string;
  kp_hash : string
}.

(** [ks.targets(pp)] *)
Definition targets (k : stateKey) (pp : PkgPath) : bool :=
  String.eqb (ImportPath k) (pp_ImportPath pp) || String.eqb (Dir k) (pp_Dir pp).

(** [kp.setupJs(pp)] *)
Definition setupJs (pp : PkgPath) (kp : Importer) : Importer :=
  let fs := VFS_Poke (mx kp) in
  let nd := Node_Poke (mx kp) (fs (bld_GOROOT (bld kp))) "src/syscall/js" in
  if negb (Nat.eqb (fs (pp_Dir pp)) nd) && negb (Nat.eqb (fs (View_Dir (mx kp))) nd)
  then kp
  else
    let b := bld kp in
    let b' := {| bld_GOARCH := "wasm"; bld_GOOS := "js";
                 bld_GOROOT := bld_GOROOT b; bld_GOPATH := bld_GOPATH b;
                 Compiler := Compiler b; BuildTags := BuildTags b |} in
    {| cfg := cfg kp; mx := mx kp; bld := b'; ks := ks kp; mp := mp kp;
       par := par kp; tags := tags kp; kp_hash := kp_hash kp |}.

(** [kp.branch(ks, pp)]: the copy [kx] of [kp] and the heap after
    [ks.importedBy(kp.ks)]. *)
Definition branch (kp : Importer) (target : addr) (pp : PkgPath) (h : heap)
    : outcome (Importer * heap) :=
  let mp' := match Mod pp with Some m => Some m | None => mp kp end in
  h' ← match ks kp with
       | Some parent => importedBy target parent h
       | None => Done h
       end;
  let c := cfg kp in
  let ti := if negb (ImportsTypesInfo c) then 0%N else cfg_TypesInfo c in
  let c' := {| PackageSrc := None; SrcMap := SrcMap c;
               cfg_CheckFuncs := false; cfg_CheckImports := false;
               NoConcurrency := NoConcurrency c; cfg_Tests := false;
               cfg_TypesInfo := ti;
               ImportsTypesInfo := ImportsTypesInfo c |} in
  let kx := {| cfg := c'; mx := mx kp; bld := bld kp; ks := Some target;
               mp := mp'; par := Some kp; tags := tags kp;
               kp_hash := "" |} in
  Done (setupJs pp kx, h').

(** The package-level values [pkgC] and [pkgUnsafe]; [types.Unsafe] is a
    complete package of the type checker. *)
Definition pkgC : Package :=
  {| Package_types := GoTypes.MarkComplete (GoTypes.NewPackage "C" "C");
     Fset := None; Info := None; Imports := None; Files := None |}.

Definition pkgUnsafe : Package :=
  {| Package_types := GoTypes.MarkComplete (GoTypes.NewPackage "unsafe" "unsafe");
     Fset := None; Info := None; Imports := None; Files := None |}.

(** [kp.importFakePkg(ipath)] *)
Definition importFakePkg (ipath : string) : option Package :=
  if String.eqb ipath "unsafe" then Some pkgUnsafe
  else if String.eqb ipath "C" then Some pkgC
  else None.

(** *** The driver's entry points and the dependency fan-out *)

(** Go's [int] arithmetic on this platform: 64 bits, two's complement. *)
Definition wrap_int (z : Z) : Z := ((z + 2 ^ 63) mod 2 ^ 64 - 2 ^ 63)%Z.

Definition int_sub (a b : Z) : Z := wrap_int (a - b).

(** [build.Package], with the fields the importer reads. *)
Record BuildPackage : Type := mkBuildPackage {
  bp_Dir : string;
  bp_ImportPath : string;
  bp_Imports : list string;
  bp_TestImports : list string;
  CgoFiles : list string
}.

(** Modelled from the spec: [mgutil.StrSet], the import list with its
    duplicates dropped, and its [Add], the union with further paths; the
    [mgutil] package is not part of the importer's file. *)
Fixpoint StrSet_Add (s l : list string) : list string :=
  match l with
  | [] => s
  | x :: l' => if bool_decide (x ∈ s) then StrSet_Add s l' else StrSet_Add (s ++ [x]) l'
  end.

Definition StrSet (l : list string) : list string := StrSet_Add [] l.

(** [spec.Pos()] of go/ast: the position of the name when the specifier has
    one, else that of the path literal. *)
Definition ImportSpec_Pos (spec : ImportSpec) : outcome Pos :=
  match Name spec with
  | Some id => Done (NamePos id)
  | None =>
      match Path spec with
      | Some lit => Done (ValuePos lit)
      | None => Panic nil_deref
      end
  end.

(** The map [imports] of [importDeps], from import paths to [*Package]. *)
Abbreviation imports_map := (gmap string (option Package)).

Section Driver.

(** What lies outside the importer's file: the state [W] of the process that
    an import reads and writes (file system, registry, caches); the part of
    [ImportPackage] after the check for a synthesized package (resolution,
    cycle detection, parsing and type checking); [strconv.Unquote];
    the [Error()] method of error values; [mgutil.MinNumCPU]. *)
Context {W : Type}.
Variable importResolved :
  Importer -> string -> string -> W -> (option Package * option error) * W.
Variable Unquote : string -> string * option error.
Variable ErrorText : error -> string.
Variable MinNumCPU : nat -> nat.

(** [kp.ImportPackage(ipath, srcDir)] *)
Definition ImportPackage (kp : Importer) (ipath srcDir : string) (w : W)
    : (option Package * option error) * W :=
  match importFakePkg ipath with
  | Some p => ((Some p, None), w)
  | None => importResolved kp ipath srcDir w
  end.

(** [kp.ImportFrom(ipath, srcDir, mode)] *)
Definition ImportFrom (kp : Importer) (ipath srcDir : string) (mode : Z) (w : W)
    : outcome (option GoTypes.Package * option error) * W :=
  if negb (mode =? 0)%Z then (Panic "non-zero import mode", w)
  else
    let '((p, e), w') := ImportPackage kp ipath srcDir w in
    match e with
    | Some e => (Done (None, Some e), w')
    | None =>
        match p with
        | Some p => (Done (Some (Package_types p), None), w')
        | None => (Panic nil_deref, w')
        end
    end.

(** [kp.Import(path)] *)
Definition Import (kp : Importer) (path : string) (w : W)
    : outcome (option GoTypes.Package * option error) * W :=
  ImportFrom kp path "." 0 w.

(** The test of the inner loop of [doImport]: the specifier has a path
    literal and its unquoted value ([""] when unquoting fails) is [ipath]. *)
Definition specMatches (ipath : string) (spec : ImportSpec) : bool :=
  match Path spec with
  | None => false
  | Some lit => String.eqb ipath (fst (Unquote (Value lit)))
  end.

(** The two loops of [doImport] over the files and their specifiers: the
    first specifier that matches. *)
Fixpoint findSpec (ipath : string) (specs : list ImportSpec) : option ImportSpec :=
  match specs with
  | [] => None
  | spec :: specs' =>
      if specMatches ipath spec then Some spec else findSpec ipath specs'
  end.

Fixpoint findSpecInFiles (ipath : string) (astFiles : list File) : option ImportSpec :=
  match astFiles with
  | [] => None
  | af :: astFiles' =>
      match findSpec ipath (File_Imports af) with
      | Some spec => Some spec
      | None => findSpecInFiles ipath astFiles'
      end
  end.

(** The [mg.Issue] that [doImport] builds at a specifier. *)
Definition issueAt (fset : FileSet) (p : Pos) (e : error) : error :=
  let tp := FileSet_Position fset p in
  IssueError {| Issue_Path := Filename tp;
                Row := int_sub (Line tp) 1;
                Col := int_sub (Column tp) 1;
                Message := ErrorText e |}.

(** The closure [doImport] of [importDeps]. *)
Definition doImport (kp : Importer) (bp : BuildPackage) (fset : FileSet)
    (astFiles : list File) (ipath : string) (s : imports_map * W)
    : outcome (option error) * (imports_map * W) :=
  let '(imports, w) := s in
  let '((p, e), w') := ImportPackage kp ipath (bp_Dir bp) w in
  match e with
  | None => (Done None, (<[ipath := p]> imports, w'))
  | Some e =>
      match findSpecInFiles ipath astFiles with
      | Some spec =>
          match ImportSpec_Pos spec with
          | Done pos => (Done (Some (issueAt fset pos e)), (imports, w'))
          | Panic msg => (Panic msg, (imports, w'))
          | OutOfFuel => (OutOfFuel, (imports, w'))
          end
      | None => (Done (Some e), (imports, w'))
      end
  end.

(** The sequential branch of [importDeps]: the first error ends the loop. *)
Fixpoint importSeq (kp : Importer) (bp : BuildPackage) (fset : FileSet)
    (astFiles : list File) (paths : list string) (s : imports_map * W)
    : outcome (option error) * (imports_map * W) :=
  match paths with
  | [] => (Done None, s)
  | ipath :: paths' =>
      match doImport kp bp fset astFiles ipath s with
      | (Done None, s') => importSeq kp bp fset astFiles paths' s'
      | other => other
      end
  end.

(** The error that [doImport] returns for a failed import: the two loops
    over the files and their specifiers, and the issue at the first
    specifier that matches. *)
Definition promote (fset : FileSet) (astFiles : list File) (ipath : string)
    (e : error) : outcome error :=
  match findSpecInFiles ipath astFiles with
  | Some spec => pos ← ImportSpec_Pos spec; Done (issueAt fset pos e)
  | None => Done e
  end.

(** *** The concurrent branch *)

(** A call of [ImportPackage] that runs beside the calls of other workers
    advances by atomic steps on the process state, and the steps of the
    calls interleave: [C] is what a running call holds, [resolveStart] the
    call after the check for a synthesized package, [resolveStep] one step
    of it, which goes on or ends the call with its result. The sequential
    branch runs one call at a time, from its start to its return, which is
    what [importResolved] stands for. *)
Context {C : Type}.
Variable resolveStart : Importer -> string -> string -> C.
Variable resolveStep : C -> W -> (C + (option Package * option error)) * W.

(** A goroutine of the error group: at the [range] over the channel;
    inside [ImportPackage]; back in [doImport] with the result of the call;
    returned. *)
Inductive worker : Type :=
| Idle
| Calling (ipath : string) (c : C)
| Returned (ipath : string) (r : option Package * option error)
| Exited.

(** The error group at work: the closed channel [imps], the goroutines,
    the error that [errg.Wait] will return (the first one returned), the
    map [imports] and the process state. *)
Record group : Type := mkGroup {
  imps : list string;
  workers : list worker;
  first : option error;
  g_imports : imports_map;
  g_world : W
}.

(** The group as [importDeps] starts it: every path in the channel, [n]
    goroutines. *)
Definition group0 (n : nat) (paths : list string) (w : W) : group :=
  {| imps := paths; workers := replicate n Idle; first := None;
     g_imports := ∅; g_world := w |}.

(** One atomic step of the goroutine [i]. At the [range] it receives the
    next path and enters [ImportPackage], or returns nil when the channel
    is drained; inside [ImportPackage] it takes one step of the call; with
    the result of a call that succeeded it stores the package under the
    mutex and is back at the [range]; with the result of a call that failed
    it returns the promoted error, which the group keeps if it is the first.
    A goroutine that has returned takes no step. *)
Definition gstep (kp : Importer) (bp : BuildPackage) (fset : FileSet)
    (astFiles : list File) (i : nat) (g : group) : outcome group :=
  match workers g !! i with
  | None => Done g
  | Some Exited => Done g
  | Some Idle =>
      match imps g with
      | [] =>
          Done {| imps := []; workers := <[i := Exited]> (workers g);
                  first := first g; g_imports := g_imports g; g_world := g_world g |}
      | ipath :: rest =>
          let wk := match importFakePkg ipath with
                    | Some p => Returned ipath (Some p, None)
                    | None => Calling ipath (resolveStart kp ipath (bp_Dir bp))
                    end in
          Done {| imps := rest; workers := <[i := wk]> (workers g);
                  first := first g; g_imports := g_imports g; g_world := g_world g |}
      end
  | Some (Calling ipath c) =>
      let '(r, w') := resolveStep c (g_world g) in
      let wk := match r with
                | inl c' => Calling ipath c'
                | inr r => Returned ipath r
                end in
      Done {| imps := imps g; workers := <[i := wk]> (workers g);
              first := first g; g_imports := g_imports g; g_world := w' |}
  | Some (Returned ipath (p, None)) =>
      Done {| imps := imps g; workers := <[i := Idle]> (workers g);
              first := first g; g_imports := <[ipath := p]> (g_imports g);
              g_world := g_world g |}
  | Some (Returned ipath (p, Some e)) =>
      e' ← promote fset astFiles ipath e;
      Done {| imps := imps g; workers := <[i := Exited]> (workers g);
              first := match first g with Some e0 => Some e0 | None => Some e' end;
              g_imports := g_imports g; g_world := g_world g |}
  end.

(** The interleaving [sched] names, step by step, the goroutine that moves
    next. *)
Fixpoint grun (kp : Importer) (bp : BuildPackage) (fset : FileSet)
    (astFiles : list File) (sched : list nat) (g : group) : outcome group :=
  match sched with
  | [] => Done g
  | i :: sched' => g' ← gstep kp bp fset astFiles i g; grun kp bp fset astFiles sched' g'
  end.

Definition exited (wk : worker) : bool :=
  match wk with
  | Exited => true
  | _ => false
  end.

(** The concurrent branch of [importDeps]: [n] goroutines on the channel
    of [paths], and [errg.Wait], which returns the first error once every
    goroutine has returned; [OutOfFuel] stands for an interleaving that ends
    before that. A panic of a goroutine ends the process, the state it
    leaves is not kept. *)
Definition importPar (kp : Importer) (bp : BuildPackage) (fset : FileSet)
    (astFiles : list File) (n : nat) (sched : list nat) (paths : list string)
    (w : W) : outcome (option error) * (imports_map * W) :=
  match grun kp bp fset astFiles sched (group0 n paths w) with
  | Done g =>
      if forallb exited (workers g)
      then (Done (first g), (g_imports g, g_world g))
      else (OutOfFuel, (g_imports g, g_world g))
  | Panic msg => (Panic msg, (∅, w))
  | OutOfFuel => (OutOfFuel, (∅, w))
  end.

(** The paths that [importDeps] imports: the imports of the package,
    deduplicated, and with them its test imports when [Tests] is set. *)
Definition depPaths (st : state) (bp : BuildPackage) : list string :=
  let paths := StrSet (bp_Imports bp) in
  if Tests (key st) then StrSet_Add paths (bp_TestImports bp) else paths.

(** [kp.importDeps(ks, bp, fset, astFiles)]; [sched] is the interleaving of
    the goroutines when the branch is the concurrent one. *)
Definition importDeps (kp : Importer) (st : state) (bp : BuildPackage)
    (fset : FileSet) (astFiles : list File) (sched : list nat) (w : W)
    : outcome (option error) * (imports_map * W) :=
  let paths := depPaths st bp in
  if NoConcurrency (cfg kp) || Nat.ltb (length paths) 2
  then importSeq kp bp fset astFiles paths (∅, w)
  else importPar kp bp fset astFiles (MinNumCPU (length paths)) sched paths w.

(** The notions in which the error report of the fan-out is stated. The
    path of the specifier, unquoted, is [ipath]: *)
Definition names (ipath : string) (spec : ImportSpec) : Prop :=
  ∃ lit, Path spec = Some lit ∧ fst (Unquote (Value lit)) = ipath.

(** The issue of a specifier: its file name, its line and column less one,
    and the text of the dependency's error. *)
Definition located (fset : FileSet) (spec : ImportSpec) (err e : error) : Prop :=
  ∃ pos i, ImportSpec_Pos spec = Done pos ∧ e = IssueError i ∧
    Issue_Path i = Filename (FileSet_Position fset pos) ∧
    Row i = int_sub (Line (FileSet_Position fset pos)) 1 ∧
    Col i = int_sub (Column (FileSet_Position fset pos)) 1 ∧
    Message i = ErrorText err.

(** The error [e] reported for the dependency [ipath] whose import failed
    with [err]: an issue located at a specifier that names [ipath] when the
    parsed files have one, [err] itself when they have none. *)
Definition promoted (fset : FileSet) (astFiles : list File) (ipath : string)
    (err e : error) : Prop :=
  ((∃ af spec, af ∈ astFiles ∧ spec ∈ File_Imports af ∧ names ipath spec) →
   ∃ af spec, af ∈ astFiles ∧ spec ∈ File_Imports af ∧ names ipath spec ∧
              located fset spec err e) ∧
  ((∀ af spec, af ∈ astFiles → spec ∈ File_Imports af → ¬ names ipath spec) →
   e = err).

(** [e] is the error reported for a failed [ImportPackage] of [ipath]. *)
Definition failed (kp : Importer) (bp : BuildPackage) (fset : FileSet)
    (astFiles : list File) (ipath : string) (e : error) : Prop :=
  ∃ w0 w1 p err,
    ImportPackage kp ipath (bp_Dir bp) w0 = ((p, Some err), w1) ∧
    promoted fset astFiles ipath err e.

(** The paths of [l] are imported one after the other, each without error,
    which takes the map of imports and the process state from [s] to
    [s']. *)
Fixpoint imported_all (kp : Importer) (dir : string) (l : list string)
    (s s' : imports_map * W) : Prop :=
  match l with
  | [] => s' = s
  | ipath :: l' =>
      ∃ p w1, ImportPackage kp ipath dir s.2 = ((p, None), w1) ∧
              imported_all kp dir l' (<[ipath := p]> s.1, w1) s'
  end.

(** In the interleaving [sched] from the group [g0], the call of
    [ImportPackage] for [ipath] that the goroutine [i] runs returns [r]: a
    step of [sched] is the last step of that call. *)
Definition returns_in (kp : Importer) (bp : BuildPackage) (fset : FileSet)
    (astFiles : list File) (sched : list nat) (g0 : group) (i : nat)
    (ipath : string) (r : option Package * option error) : Prop :=
  ∃ sched1 sched2 g c w1,
    sched = (sched1 ++ i :: sched2)%list ∧
    grun kp bp fset astFiles sched1 g0 = Done g ∧
    workers g !! i = Some (Calling ipath c) ∧
    resolveStep c (g_world g) = (inr r, w1).

(** The result [r] of a call for [ipath] in the concurrent branch is that
    of a synthesized package or what a call of the run returned. *)
Definition delivered (kp : Importer) (bp : BuildPackage) (fset : FileSet)
    (astFiles : list File) (sched : list nat) (g0 : group)
    (ipath : string) (r : option Package * option error) : Prop :=
  (∃ pk, importFakePkg ipath = Some pk ∧ r = (Some pk, None)) ∨
  ∃ i, returns_in kp bp fset astFiles sched g0 i ipath r.

(** The path that a goroutine is at work on. *)
Definition holds (wk : worker) (k : string) : Prop :=
  match wk with
  | Calling k' _ => k' = k
  | Returned k' _ => k' = k
  | _ => False
  end.

(** What holds of the group [g] that the interleaving [s] leads to from
    the start: the goroutines are [n]; the channel, the calls and the map
    hold paths of [paths] only; a result at hand and a package of the map
    were delivered in [s]; the error kept is the promoted error of a call
    of [s] that failed; every path is in the channel, at a goroutine or in
    the map, unless an error was returned; and while none was, a goroutine
    has returned only with the channel drained. *)
Record fan_inv (kp : Importer) (bp : BuildPackage) (fset : FileSet)
    (astFiles : list File) (n : nat) (paths : list string) (w : W)
    (s : list nat) (g : group) : Prop := mkFanInv {
  inv_workers : length (workers g) = n;
  inv_imps : ∀ k, k ∈ imps g → k ∈ paths;
  inv_calling : ∀ i k c, workers g !! i = Some (Calling k c) → k ∈ paths;
  inv_returned : ∀ i k r, workers g !! i = Some (Returned k r) →
    k ∈ paths ∧ delivered kp bp fset astFiles s (group0 n paths w) k r;
  inv_imports : ∀ k p, g_imports g !! k = Some p →
    k ∈ paths ∧ delivered kp bp fset astFiles s (group0 n paths w) k (p, None);
  inv_first : ∀ e, first g = Some e →
    ∃ i k p err, k ∈ paths ∧
      returns_in kp bp fset astFiles s (group0 n paths w) i k (p, Some err) ∧
      promoted fset astFiles k err e;
  inv_paths : ∀ k, k ∈ paths →
    k ∈ imps g ∨ (∃ i wk, workers g !! i = Some wk ∧ holds wk k) ∨
    is_Some (g_imports g !! k) ∨ first g ≠ None;
  inv_drained : first g = None → ∀ i, workers g !! i = Some Exited → imps g = []
}.

End Driver.

(** *** The overlay hash *)

(** [hex.EncodeToString]: two digits of ["0123456789abcdef"] per byte, the
    high nibble first. *)
Definition hextable : string := "0123456789abcdef".

Definition hexdigit (n : N) : ascii :=
  match String.get (N.to_nat n) hextable with
  | Some c => c
  | None => "0"%char
  end.

Fixpoint EncodeToString (src : list byte) : string :=
  match src with
  | [] => ""
  | v :: src' =>
      String (hexdigit (N.shiftr (Byte.to_N v) 4))
        (String (hexdigit (N.land (Byte.to_N v) 15)) (EncodeToString src'))
  end.

(** The order of [sort.StringSlice]: Go's [<=] on strings, byte by byte. *)
Definition string_le (a b : string) : Prop := String.leb a b = true.

#[global] Instance string_le_dec (a b : string) : Decision (string_le a b).
Proof. unfold string_le. apply _. Defined.

(** [fns.Sort()] *)
Definition Sort (fns : list string) : list string := merge_sort string_le fns.

(** The slice [fns] after the first loop of [srcMapHash], when [range]
    visits the keys in the order [order]: [make(sort.StringSlice, len(m))]
    holds [len(m)] empty strings already, and [append] adds the keys behind
    them. *)
Definition collected (order : list string) (m : gmap string (list byte))
    : list string :=
  replicate (size m) "" ++ order.

(** The second loop: [b2.Write([]byte(fn)); b2.Write(m[fn])] for each name,
    the hash [b2] being the bytes written to it so far. A name that is not
    a key reads the nil slice. *)
Definition feed (m : gmap string (list byte)) (b2 : list byte) (fn : string)
    : list byte :=
  ((b2 ++ list_byte_of_string fn) ++ default [] (m !! fn))%list.

Definition written (order : list string) (m : gmap string (list byte))
    : list byte :=
  fold_left (feed m) (Sort (collected order m)) [].

Section Hash.

(** [blake2b.New256(nil)] followed by [Sum(nil)]: the digest of the bytes
    written in between; the hash function lies outside the importer. *)
Variable Sum256 : list byte -> list byte.

(** [srcMapHash(m)] when [range] visits the keys in the order [order]. *)
Definition srcMapHash_in (order : list string) (m : srcmap) : string :=
  let m := default ∅ m in
  if Nat.eqb (size m) 0 then ""
  else EncodeToString (Sum256 (written order m)).

(** [srcMapHash(m)] for one visiting order, that of [map_to_list]. *)
Definition srcMapHash (m : srcmap) : string :=
  srcMapHash_in (map fst (map_to_list (default ∅ m))) m.

(** The hash as the specification words it: the names in lexicographic
    order, each one's bytes followed by its content. *)
Definition spec_written (m : gmap string (list byte)) : list byte :=
  concat (map (fun fn => (list_byte_of_string fn ++ default [] (m !! fn))%list)
              (Sort (map fst (map_to_list m)))).

Definition spec_srcMapHash (m : srcmap) : string :=
  let m := default ∅ m in
  if Nat.eqb (size m) 0 then ""
  else EncodeToString (Sum256 (spec_written m)).

End Hash.

(** *** The reverse-dependency graph *)

(** The reverse-dependency edges of a heap: the [imby.l] of each state. *)
Definition graph (h : heap) (a : addr) : list addr :=
  match h !! a with
  | Some st => imby st
  | None => []
  end.

(** Every pointer stored in a list points to a state of the heap. *)
Definition closed (h : heap) : Prop :=
  ∀ a p, p ∈ graph h a → p < length h.

(** The graph has no cycle: a rank decreases along every edge. *)
Definition ranked (rank : addr → nat) (h : heap) : Prop :=
  ∀ a p, p ∈ graph h a → rank p < rank a.

(** Is [b] reached from [a] along at most [n - 1] edges? *)
Fixpoint reachb (n : nat) (g : addr → list addr) (a b : addr) : bool :=
  match n with
  | O => false
  | S n' => Nat.eqb a b || existsb (fun p => reachb n' g p b) (g a)
  end.

(** [b] is [a] or one of its transitive importers. *)
Definition reaches (h : heap) : relation addr :=
  rtc (fun a p => p ∈ graph h a).

(** The operations that read or write states of the registry: allocation by
    [globalState], [importedBy], [invalidate], and the stores of
    [importPkg]. *)
Inductive hop : Type :=
| HNew (k : stateKey)
| HImportedBy (ks p : addr)
| HInvalidate (fuel : nat) (ks : addr) (at_ : Z)
| HChecked (ks : addr) (p : option Package) (e : option error) (hs : string) (at_ : Z).

Definition hstep (o : hop) (h : heap) : outcome heap :=
  match o with
  | HNew k => Done (h ++ [newState k])%list
  | HImportedBy ks p => importedBy ks p h
  | HInvalidate fuel ks at_ => invalidate fuel ks at_ h
  | HChecked ks p e hs at_ =>
      match h !! ks with
      | Some st => Done (<[ks := set_checked p e hs at_ st]> h)
      | None => Panic nil_deref
      end
  end.

(** A sequence of such operations; it ends at the first call that does not
    return. *)
Fixpoint hrun (ops : list hop) (h : heap) : heap :=
  match ops with
  | [] => h
  | o :: ops' =>
      match hstep o h with
      | Done h' => hrun ops' h'
      | _ => h
      end
  end.

(** *** Notions used in the properties *)

(** Two heaps with the same states up to their fields other than the
    importer lists have the same graph. *)
Definition same_graph (h h' : heap) : Prop :=
  length h' = length h ∧ ∀ a, graph h' a = graph h a.

(** [invalidate] applied to the states selected by [b]. *)
Definition mark (at_ : Z) (b : bool) (st : state) : state :=
  if b then set_invAt at_ st else st.

(** No list of the heap holds a state twice. *)
Definition imby_nodup (h : heap) : Prop :=
  ∀ a st, h !! a = Some st → NoDup (imby st).

(** From [h] to [h'] every state is still there and its list has only been
    extended at its end. *)
Definition grows (h h' : heap) : Prop :=
  ∀ a st, h !! a = Some st → ∃ st', h' !! a = Some st' ∧ imby st `prefix_of` imby st'.

(** The error of a package that was stored incomplete. *)
Definition reimported (ks : state) : error :=
  Errorf "reimported partially imported package %q" [ImportPath (key ks)].

(** The node of [GOROOT/src/syscall/js], as [setupJs] pokes it. *)
Definition jsNode (kp : Importer) : Node :=
  Node_Poke (mx kp) (VFS_Poke (mx kp) (bld_GOROOT (bld kp))) "src/syscall/js".

(** The build context forced to the JS/WASM pair. *)
Definition jsBuild (b : BuildContext) : BuildContext :=
  {| bld_GOARCH := "wasm"; bld_GOOS := "js"; bld_GOROOT := bld_GOROOT b;
     bld_GOPATH := bld_GOPATH b; Compiler := Compiler b; BuildTags := BuildTags b |}.

(** A visiting order of [range] over the overlay: every name, once. *)
Definition visits_overlay (order : list string) (m : gmap string (list byte)) : Prop :=
  order ≡ₚ map fst (map_to_list m).

(** *** Sample data *)

Definition key_of (ipath dir : string) : stateKey :=
  {| ImportPath := ipath; Dir := dir; CheckFuncs := false; CheckImports := false;
     Tests := false; Tags := "netgo osusergo"; GOARCH := "amd64"; GOOS := "linux";
     GOROOT := "/go"; GOPATH := "/gopath"; NoHash := true; key_TypesInfo := 0%N |}.

Definition key_a : stateKey := key_of "a" "/gopath/src/a".
Definition key_b : stateKey := key_of "b" "/gopath/src/b".
Definition key_c : stateKey := key_of "c" "/gopath/src/c".

(** Two states that import each other, as the registry holds them after
    [a] imported [b] and, [a] edited, [b] imported [a]. *)
Definition heap_cycle : heap :=
  [set_imby [1] (newState key_a); set_imby [0] (newState key_b)].

(** [a] imports [b], [b] imports [c]: [c] is listed in no state, [b] is
    imported by [a] and [c] by [b]. *)
Definition heap_chain : heap :=
  [newState key_a; set_imby [0] (newState key_b); set_imby [1] (newState key_c)].

Definition rank_chain (a : addr) : nat := a.

Definition pkg_done : Package :=
  {| Package_types := GoTypes.MarkComplete (GoTypes.NewPackage "a" "a");
     Fset := None; Info := None; Imports := None; Files := None |}.

Definition pkg_partial : Package :=
  {| Package_types := GoTypes.NewPackage "a" "a";
     Fset := None; Info := None; Imports := None; Files := None |}.

(** A root importer with per-request settings, in a process whose view is
    not the [syscall/js] directory; [ctx_js] is one whose view is. *)
Definition ctx0 : Ctx :=
  {| VFS_Poke := fun path => String.length path;
     Node_Poke := fun nd rel => nd + String.length rel + 1000;
     View_Dir := "/gopath/src/a" |}.

Definition ctx_js : Ctx :=
  {| VFS_Poke := fun path => 7; Node_Poke := fun nd rel => 7;
     View_Dir := "/go/src/syscall/js" |}.

Definition bld0 : BuildContext :=
  {| bld_GOARCH := "amd64"; bld_GOOS := "linux"; bld_GOROOT := "/go";
     bld_GOPATH := "/gopath"; Compiler := "gc"; BuildTags := ["netgo"; "osusergo"] |}.

Definition cfg_root : Config :=
  {| PackageSrc := Some {[ "a.go" := [x70; x61] ]}; SrcMap := Some {[ "/gopath/src/a/a.go" := [x70; x61] ]};
     cfg_CheckFuncs := true; cfg_CheckImports := true; NoConcurrency := true;
     cfg_Tests := true; cfg_TypesInfo := 127%N; ImportsTypesInfo := false |}.

Definition kp_root : Importer :=
  {| cfg := cfg_root; mx := ctx0; bld := bld0; ks := None; mp := None;
     par := None; tags := "netgo osusergo"; kp_hash := "0f" |}.

Definition kp_a : Importer :=
  {| cfg := cfg_root; mx := ctx0; bld := bld0; ks := Some 0; mp := None;
     par := Some kp_root; tags := "netgo osusergo"; kp_hash := "0f" |}.

Definition pp_b : PkgPath :=
  {| pp_ImportPath := "b"; pp_Dir := "/gopath/src/b"; Mod := None |}.

(** A process state that counts the resolutions performed, a resolver that
    knows every path but ["b"], an unquoting that strips one pair of
    double quotes, and the text of an error. *)
Definition sample_resolve (kp : Importer) (ipath srcDir : string) (w : nat)
    : (option Package * option error) * nat :=
  if String.eqb ipath "b"
  then ((None, Some (ErrorString "cannot find package b")), S w)
  else ((Some pkg_done, None), S w).

(** The same resolver as a call of two steps beside other calls: the first
    looks the path up, the second returns and counts. *)
Definition sample_start (kp : Importer) (ipath srcDir : string)
    : Importer * string * string * bool :=
  (kp, ipath, srcDir, false).

Definition sample_step (c : Importer * string * string * bool) (w : nat)
    : (Importer * string * string * bool + (option Package * option error)) * nat :=
  let '(kp, ipath, srcDir, looked) := c in
  if looked
  then let '(r, w') := sample_resolve kp ipath srcDir w in (inr r, w')
  else (inl (kp, ipath, srcDir, true), w).

(** A root importer that imports its dependencies concurrently. *)
Definition kp_par : Importer :=
  {| cfg := {| PackageSrc := None; SrcMap := None; cfg_CheckFuncs := false;
               cfg_CheckImports := false; NoConcurrency := false;
               cfg_Tests := false; cfg_TypesInfo := 0%N;
               ImportsTypesInfo := false |};
     mx := ctx0; bld := bld0; ks := None; mp := None; par := None;
     tags := "netgo osusergo"; kp_hash := "" |}.

Definition quote_char : ascii := Ascii.ascii_of_nat 34.

Fixpoint unquote_tail (s : string) : option string :=
  match s with
  | EmptyString => None
  | String c s' =>
      match s' with
      | EmptyString => if Ascii.eqb c quote_char then Some EmptyString else None
      | _ => option_map (String c) (unquote_tail s')
      end
  end.

Definition sample_Unquote (s : string) : string * option error :=
  match s with
  | String c s' =>
      if Ascii.eqb c quote_char
      then match unquote_tail s' with
           | Some r => (r, None)
           | None => ("", Some (ErrorString "invalid syntax"))
           end
      else ("", Some (ErrorString "invalid syntax"))
  | EmptyString => ("", Some (ErrorString "invalid syntax"))
  end.

Definition sample_ErrorText (e : error) : string :=
  match e with
  | Errorf format _ => format
  | IssueError i => Message i
  | ErrorString msg => msg
  end.

Definition quoted (s : string) : string :=
  String quote_char (s ++ String quote_char EmptyString).

(** The file [a.go] of package [a]: [import "fmt"] on line 3 and
    [import "b"] on line 4, each path literal at column 8. *)
Definition spec_fmt : ImportSpec :=
  {| Name := None; Path := Some {| ValuePos := 30%Z; Value := quoted "fmt" |} |}.

Definition spec_b : ImportSpec :=
  {| Name := None; Path := Some {| ValuePos := 40%Z; Value := quoted "b" |} |}.

Definition file_a : File := {| File_Imports := [spec_fmt; spec_b] |}.

Definition fset_a : FileSet :=
  {| FileSet_Position := fun p =>
       {| Filename := "/gopath/src/a/a.go"; Offset := (p - 1)%Z;
          Line := (p / 10)%Z; Column := 8%Z |} |}.

Definition bp_a : BuildPackage :=
  {| bp_Dir := "/gopath/src/a"; bp_ImportPath := "a";
     bp_Imports := ["fmt"; "b"]; bp_TestImports := []; CgoFiles := [] |}.

Definition bp_ok : BuildPackage :=
  {| bp_Dir := "/gopath/src/a"; bp_ImportPath := "a";
     bp_Imports := ["fmt"; "unsafe"; "os"]; bp_TestImports := []; CgoFiles := [] |}.

Definition bp_a_noimport : BuildPackage :=
  {| bp_Dir := "/gopath/src/a"; bp_ImportPath := "a";
     bp_Imports := ["b"]; bp_TestImports := []; CgoFiles := [] |}.

(** An overlay whose single file has the empty name and the content
    ["a"], and one with two named files. *)
Definition overlay_noname : gmap string (list byte) := {[ "" := [x61] ]}.

Definition overlay_ab : gmap string (list byte) :=
  {[ "b.go" := [x62]; "a.go" := [x61] ]}.

End Kimporter.

(** ** golang/mgccache.go: iteration *)

Module MgcCacheIter.
Import MgcCache.

(** [mc.entries()] when [range] visits the keys in the order [order]: the
    entries found, in that order. *)
Definition entries_in (order : list mgcCacheKey) (m : cache) : list mgcCacheEnt :=
  omap (fun k => m !! k) order.

(** [mc.forEach(f)] when [range] visits the keys in the order [order]; the
    callback acts on a state [S] of its caller. *)
Definition forEach_in {S : Type} (order : list mgcCacheKey)
    (f : mgcCacheEnt -> S -> S) (m : cache) (s : S) : S :=
  fold_left (fun s k => match m !! k with
                        | Some e => f e s
                        | None => s
                        end) order s.

(** A second entry for the key of [ent_x]. *)
Definition ent_x' : mgcCacheEnt := {| Key := "/tmp/x"; Pkg := Some pkg_x; Dur := 9 |}.

End MgcCacheIter.

(** ** The kimporter package: keys, cycle detection, checking *)

Module KimporterDriver.
Import Kimporter.

(** *** The type-info mask *)

(** The constants [TypesInfoTypes] ... [TypesInfoInitOrder], [1 << iota],
    and [TypesInfoAll]. *)
Definition TypesInfoTypes : TypesInfo := 1%N.
Definition TypesInfoDefs : TypesInfo := 2%N.
Definition TypesInfoUses : TypesInfo := 4%N.
Definition TypesInfoImplicits : TypesInfo := 8%N.
Definition TypesInfoSelections : TypesInfo := 16%N.
Definition TypesInfoScopes : TypesInfo := 32%N.
Definition TypesInfoInitOrder : TypesInfo := 64%N.

Definition TypesInfoAll : TypesInfo :=
  N.lor TypesInfoTypes (N.lor TypesInfoDefs (N.lor TypesInfoUses
    (N.lor TypesInfoImplicits (N.lor TypesInfoSelections
      (N.lor TypesInfoScopes TypesInfoInitOrder))))).

(** [types.Info], seen through which of its maps are allocated. *)
Record types_Info : Type := mkTypesInfo {
  Info_Types : bool;
  Info_Defs : bool;
  Info_Uses : bool;
  Info_Implicits : bool;
  Info_Selections : bool;
  Info_Scopes : bool;
  Info_InitOrder : bool
}.

(** [ti&c != 0] *)
Definition has (ti c : TypesInfo) : bool := negb (N.eqb (N.land ti c) 0).

(** [ti.New()] *)
Definition TypesInfo_New (ti : TypesInfo) : types_Info :=
  {| Info_Types := has ti TypesInfoTypes;
     Info_Defs := has ti TypesInfoDefs;
     Info_Uses := has ti TypesInfoUses;
     Info_Implicits := has ti TypesInfoImplicits;
     Info_Selections := has ti TypesInfoSelections;
     Info_Scopes := has ti TypesInfoScopes;
     Info_InitOrder := has ti TypesInfoInitOrder |}.

(** *** Build tags and state keys *)

(** [strings.Join(l, sep)] *)
Fixpoint Join (l : list string) (sep : string) : string :=
  match l with
  | [] => ""
  | x :: l' =>
      match l' with
      | [] => x
      | _ => x ++ sep ++ Join l' sep
      end
  end.

(** [tagsStr(l)] *)
Definition tagsStr (l : list string) : string :=
  match l with
  | [] => ""
  | [x] => x
  | _ => Join (Sort l) " "
  end.

Section Keys.

(** [mgutil.PathList] and [filepath.ListSeparator] lie outside the
    importer's file. *)
Variable PathList : string -> list string.
Variable ListSeparator : string.

(** [kp.stateKey(pp)] *)
Definition Importer_stateKey (kp : Importer) (pp : PkgPath) : stateKey :=
  let c := cfg kp in
  {| ImportPath := pp_ImportPath pp;
     Dir := pp_Dir pp;
     CheckFuncs := cfg_CheckFuncs c;
     CheckImports := cfg_CheckImports c;
     Tests := cfg_Tests c;
     Tags := tags kp;
     GOOS := bld_GOOS (bld kp);
     GOARCH := bld_GOARCH (bld kp);
     GOROOT := bld_GOROOT (bld kp);
     GOPATH := Join (PathList (bld_GOPATH (bld kp))) ListSeparator;
     NoHash := String.eqb (kp_hash kp) "";
     key_TypesInfo := cfg_TypesInfo c |}.

End Keys.

(** The zero [Config]. *)
Definition Config_zero : Config :=
  {| PackageSrc := None; SrcMap := None; cfg_CheckFuncs := false;
     cfg_CheckImports := false; NoConcurrency := false; cfg_Tests := false;
     cfg_TypesInfo := 0%N; ImportsTypesInfo := false |}.

Section Root.

(** [blake2b] and [goutil.BuildContext] lie outside the importer's file;
    [order] is the order in which [srcMapHash] visits the overlay. *)
Variable Sum256 : list byte -> list byte.
Variable BuildContext_of : Ctx -> BuildContext.

(** [New(mx, cfg)] *)
Definition New (order : list string) (mx : Ctx) (c : option Config) : Importer :=
  let b := BuildContext_of mx in
  let b := {| bld_GOARCH := bld_GOARCH b; bld_GOOS := bld_GOOS b;
              bld_GOROOT := bld_GOROOT b; bld_GOPATH := bld_GOPATH b;
              Compiler := Compiler b;
              BuildTags := (BuildTags b ++ ["netgo"; "osusergo"])%list |} in
  match c with
  | Some c =>
      {| cfg := c; mx := mx; bld := b; ks := None; mp := None; par := None;
         tags := tagsStr (BuildTags b);
         kp_hash := srcMapHash_in Sum256 order (SrcMap c) |}
  | None =>
      {| cfg := Config_zero; mx := mx; bld := b; ks := None; mp := None;
         par := None; tags := tagsStr (BuildTags b); kp_hash := "" |}
  end.

End Root.

(** *** Cycle detection *)

(** The entry of a frame in the message: [ImportPath + "(" + Dir + ")"]. *)
Definition frameName (ipath dir : string) : string := ipath ++ "(" ++ dir ++ ")".

(** The inner loop of [detectCycle]: from [p] upwards, the frames that have
    a state are appended to [l] until one targets [pp]; the loop has no
    test for the end of the chain. *)
Fixpoint cycleChain (p : Importer) (pp : PkgPath) (h : heap) (l : list string)
    : outcome (list string) :=
  let up l :=
    match par p with
    | Some q => cycleChain q pp h l
    | None => Panic nil_deref
    end in
  match ks p with
  | None => up l
  | Some a =>
      match h !! a with
      | None => Panic nil_deref
      | Some st =>
          let l := (l ++ [frameName (ImportPath (key st)) (Dir (key st))])%list in
          if targets (key st) pp
          then Done l
          else up l
      end
  end.

(** The outer loop of [detectCycle], at the frame [p] of the chain of
    [kp]. *)
Fixpoint detectCycle_at (p kp : Importer) (pp : PkgPath) (h : heap)
    : outcome (option error) :=
  let next :=
    match par p with
    | Some q => detectCycle_at q kp pp h
    | None => Done None
    end in
  match ks p with
  | None => next
  | Some a =>
      match h !! a with
      | None => Panic nil_deref
      | Some st =>
          if negb (targets (key st) pp) then next
          else
            l ← cycleChain kp pp h [frameName (pp_ImportPath pp) (pp_Dir pp)];
            Done (Some (Errorf "import cycle: %s" [Join l " <~ "]))
      end
  end.

(** [kp.detectCycle(pp)] *)
Definition detectCycle (kp : Importer) (pp : PkgPath) (h : heap)
    : outcome (option error) :=
  detectCycle_at kp kp pp h.

(** The keys of the states of the frames from [p] upwards, a frame without
    state or with a dangling one left out. *)
Fixpoint frameKeys (p : Importer) (h : heap) : list stateKey :=
  let rest :=
    match par p with
    | Some q => frameKeys q h
    | None => []
    end in
  match ks p with
  | None => rest
  | Some a =>
      match h !! a with
      | Some st => key st :: rest
      | None => rest
      end
  end.

(** Every state pointer of the chain points into the heap. *)
Fixpoint chainClosed (p : Importer) (h : heap) : Prop :=
  match ks p with
  | None => True
  | Some a => a < length h
  end ∧
  match par p with
  | Some q => chainClosed q h
  | None => True
  end.

(** The value of a hexadecimal digit of [hextable], and the byte of two
    digits; a device of the proofs about [EncodeToString]. *)
Definition hexvalue (c : ascii) : N :=
  (fix find (digits : list ascii) (n : N) : N :=
     match digits with
     | [] => 16%N
     | d :: digits' => if Ascii.eqb c d then n else find digits' (N.succ n)
     end) (list_ascii_of_string hextable) 0%N.

Definition hexbyte (hi lo : ascii) : option byte :=
  Byte.of_N (16 * hexvalue hi + hexvalue lo)%N.

(** A digest function for the samples: 32 bytes, the first of them the
    length of the input. *)
Definition sample_Sum256 (b : list byte) : list byte :=
  match Byte.of_N (N.of_nat (length b) mod 256)%N with
  | Some v => v :: replicate 31 x00
  | None => replicate 32 x00
  end.

Definition sample_BuildContext (mx : Ctx) : BuildContext :=
  {| bld_GOARCH := "amd64"; bld_GOOS := "linux"; bld_GOROOT := "/go";
     bld_GOPATH := "/gopath"; Compiler := "gc"; BuildTags := ["cgo"] |}.

Definition sample_PathList (s : string) : list string := [s].

(** The text of a frame's state in the message. *)
Definition keyName (k : stateKey) : string := frameName (ImportPath k) (Dir k).

(** Sample chain: the root imports [a], which imports [b]; [kp_b] is the
    importer that checks [b]. *)
Definition kp_b : Importer :=
  {| cfg := Config_zero; mx := ctx0; bld := bld0; ks := Some 1; mp := None;
     par := Some kp_a; tags := "netgo osusergo"; kp_hash := "" |}.

Definition pp_a : PkgPath :=
  {| pp_ImportPath := "a"; pp_Dir := "/gopath/src/a"; Mod := None |}.

Definition pp_c : PkgPath :=
  {| pp_ImportPath := "c"; pp_Dir := "/gopath/src/c"; Mod := None |}.

Definition heap_ab : heap := [newState key_a; set_imby [0] (newState key_b)].

(** [imports] holds at [k] the package that an [ImportPackage] of [k]
    returned without error. *)
Definition imported {W : Type}
    (importResolved : Importer → string → string → W → (option Package * option error) * W)
    (kp : Importer) (bp : BuildPackage) (imports : imports_map) (k : string) : Prop :=
  ∃ w0 w1 p, ImportPackage importResolved kp k (bp_Dir bp) w0 = ((p, None), w1) ∧
             imports !! k = Some p.

(** From [h] to [h'] a state is as it was or has the tick as [invAt]. *)
Definition ticked (at_ : Z) (h h' : heap) : Prop :=
  length h' = length h ∧
  ∀ a st, h !! a = Some st → h' !! a = Some st ∨ h' !! a = Some (set_invAt at_ st).

End KimporterDriver.

(** ** The registry and the import of one package *)

Module KimporterImport.

Import Kimporter KimporterDriver.

#[global] Instance stateKey_eq_dec : EqDecision stateKey.
Proof. solve_decision. Defined.

(** Modelled from the spec: [mx.VFS.ReadMemo(dir, key, factory)] returns the
    existing state of the key or inserts a freshly initialized one. The
    registry is the heap: the state of a key is the first that has it, and a
    new state is allocated at the end. *)
Definition globalState (k : stateKey) (h : heap) : addr * heap :=
  match list_find (fun st => key st = k) h with
  | Some (a, _) => (a, h)
  | None => (length h, (h ++ [newState k])%list)
  end.

Section Registry.

(** What lies outside the importer's file: the state [W] of the process
    besides the registry; [mgutil.PathList] and [filepath.ListSeparator];
    [memo.InvAt()], the tick of the process; [filepath.Abs] and
    [filepath.IsAbs]; the resolver [kp.mp.FindPkg]. [check] is the method
    [kp.check(ks, pp, pkgSrc)]: parsing, the imports of the dependencies,
    which come back to this importer, and type checking; it may change the
    registry and may panic, and what is proved below holds for every
    behaviour of it. *)
Context {W : Type}.
Variable PathList : string → list string.
Variable ListSeparator : string.
Variable InvAt : W → Z.
Variable check :
  Importer → addr → PkgPath → srcmap → heap * W →
  outcome (option Package * option error) * (heap * W).
Variable Abs : string → string * option error.
Variable IsAbs : string → bool.
Variable FindPkg :
  option ModPath → Ctx → string → string → W → (option PkgPath * option error) * W.

(** [kp.state(pp)] *)
Definition Importer_state (kp : Importer) (pp : PkgPath) (h : heap) : addr * heap :=
  globalState (Importer_stateKey PathList ListSeparator kp pp) h.

(** [kp.importPkg(pp)], in a run that holds [ks.mu] alone; the profile and
    task entries are left out. A panic of [check] passes through, the stores
    after it not done. *)
Definition importPkg (kp : Importer) (pp : PkgPath) (s : heap * W)
    : outcome (option Package * option error) * (heap * W) :=
  let '(h, w) := s in
  match detectCycle kp pp h with
  | Done (Some e) => (Done (None, Some e), (h, w))
  | Done None =>
      let '(a, h1) := Importer_state kp pp h in
      match branch kp a pp h1 with
      | Done (kx, h2) =>
          match h2 !! a with
          | None => (Panic nil_deref, (h2, w))
          | Some st =>
              if valid (kp_hash kp) st then (result st, (h2, w))
              else
                let at_ := InvAt w in
                match check kx a pp (PackageSrc (cfg kp)) (h2, w) with
                | (Done (p, e), (h3, w3)) =>
                    match h3 !! a with
                    | None => (Panic nil_deref, (h3, w3))
                    | Some st3 =>
                        let st4 := set_checked p e (kp_hash kp) at_ st3 in
                        (result st4, (<[a := st4]> h3, w3))
                    end
                | (Panic msg, s3) => (Panic msg, s3)
                | (OutOfFuel, s3) => (OutOfFuel, s3)
                end
          end
      | Panic msg => (Panic msg, (h, w))
      | OutOfFuel => (OutOfFuel, (h, w))
      end
  | Panic msg => (Panic msg, (h, w))
  | OutOfFuel => (OutOfFuel, (h, w))
  end.

(** [kp.findPkg(ipath, srcDir)] *)
Definition findPkg (kp : Importer) (ipath srcDir : string) (w : W)
    : (option PkgPath * option error) * W :=
  FindPkg (mp kp) (mx kp) ipath srcDir w.

(** [kp.ImportPackage(ipath, srcDir)] with its steps written out over the
    registry: the synthesized packages, the absolute source directory, the
    resolution and [importPkg]. *)
Definition ImportPackage_reg (kp : Importer) (ipath srcDir : string) (s : heap * W)
    : outcome (option Package * option error) * (heap * W) :=
  match importFakePkg ipath with
  | Some pkg => (Done (Some pkg, None), s)
  | None =>
      let srcDir := match Abs srcDir with
                    | (p, None) => p
                    | (_, Some _) => srcDir
                    end in
      if negb (IsAbs srcDir)
      then (Done (None, Some (Errorf "srcDir is not absolute: %s" [srcDir])), s)
      else
        let '(h, w) := s in
        let '((pp, e), w1) := findPkg kp ipath srcDir w in
        match e with
        | Some e => (Done (None, Some e), (h, w1))
        | None =>
            match pp with
            | Some pp => importPkg kp pp (h, w1)
            | None => (Panic nil_deref, (h, w1))
            end
        end
  end.

End Registry.

(** The heap after [ks.importedBy(kp.ks)] for a state [st] at [a]. *)
Definition registered (kp : Importer) (a : addr) (st : state) (h : heap) : heap :=
  match ks kp with
  | Some parent =>
      if bool_decide (parent ∈ imby st) then h
      else <[a := set_imby (imby st ++ [parent])%list st]> h
  | None => h
  end.

(** Samples: a process state that counts the checks, a tick one above it, a
    check that delivers [pkg_done], Unix paths, a resolver that knows
    ["b"]. *)
Definition sample_InvAt (w : nat) : Z := Z.of_nat w + 1.

Definition sample_check (kx : Importer) (a : addr) (pp : PkgPath) (src : srcmap)
    (s : heap * nat) : outcome (option Package * option error) * (heap * nat) :=
  (Done (Some pkg_done, None), (s.1, S s.2)).

Definition sample_Abs (s : string) : string * option error := (s, None).

Definition sample_IsAbs (s : string) : bool := String.prefix "/" s.

Definition sample_FindPkg (m : option ModPath) (c : Ctx) (ipath srcDir : string)
    (w : nat) : (option PkgPath * option error) * nat :=
  if String.eqb ipath "b" then ((Some pp_b, None), w)
  else ((None, Some (ErrorString "cannot find package")), w).

(** The package that the check of a source tree delivers for [pp]. *)
Definition pkg_of (pp : PkgPath) : Package :=
  {| Package_types :=
       GoTypes.MarkComplete (GoTypes.NewPackage (pp_ImportPath pp) (pp_ImportPath pp));
     Fset := None; Info := None; Imports := None; Files := None |}.

(** A check over a source tree, [deps] giving the imports of each package:
    the child importer imports the dependencies through [importPkg], one
    after the other, and the package is delivered; an import that fails
    ends the check with its error. [fuel] bounds the depth of the tree. *)
Fixpoint check_tree (fuel : nat) (deps : string → list PkgPath) (kx : Importer)
    (a : addr) (pp : PkgPath) (src : srcmap) (s : heap * nat) {struct fuel}
    : outcome (option Package * option error) * (heap * nat) :=
  match fuel with
  | O => (OutOfFuel, s)
  | S fuel' =>
      (fix each (l : list PkgPath) (s : heap * nat) {struct l}
         : outcome (option Package * option error) * (heap * nat) :=
         match l with
         | [] => (Done (Some (pkg_of pp), None), (s.1, S s.2))
         | d :: l' =>
             match importPkg sample_PathList ":" sample_InvAt
                     (check_tree fuel' deps) kx d s with
             | (Done (_, None), s') => each l' s'
             | (Done (_, Some e), s') => (Done (None, Some e), s')
             | (Panic msg, s') => (Panic msg, s')
             | (OutOfFuel, s') => (OutOfFuel, s')
             end
         end) (deps (pp_ImportPath pp)) s
  end.

(** Two versions of a source tree: in the first [a] imports [b], in the
    second, after an edit of both, [b] imports [a]. *)
Definition tree_v1 (ipath : string) : list PkgPath :=
  if String.eqb ipath "a" then [pp_b] else [].

Definition tree_v2 (ipath : string) : list PkgPath :=
  if String.eqb ipath "b" then [pp_a] else [].

(** The importer of [New(mx, nil)]. *)
Definition kp_plain : Importer := New sample_Sum256 sample_BuildContext [] ctx0 None.

(** The registry along the run: after [a], which imports [b], was imported;
    after both were invalidated at tick 3; after [b], which now imports [a],
    was imported. [reg_state] is a state checked without error. *)
Definition reg_state (pp : PkgPath) (chk inv : Z) (l : list addr) : state :=
  {| key := Importer_stateKey sample_PathList ":" kp_plain pp;
     chkAt := chk; invAt := inv; imby := l; err := None;
     pkg := Some (pkg_of pp); hash := "" |}.

Definition reg_v1 : heap := [reg_state pp_a 1 0 []; reg_state pp_b 1 0 [0]].

Definition reg_edited : heap := [reg_state pp_a 1 3 []; reg_state pp_b 1 3 [0]].

Definition reg_v2 : heap := [reg_state pp_a 4 3 [1]; reg_state pp_b 4 3 [0]].

Definition key_root_b : stateKey := Importer_stateKey sample_PathList ":" kp_root pp_b.

Definition st_checked : state := set_checked (Some pkg_done) None "0f" 1 (newState key_root_b).

End KimporterImport.

(** * Properties of the completed-package cache *)

Module MgcCacheFacts.
Import MgcCache.
Local Open Scope list_scope.

(** How often the inner loop of [prune] appends an entry stored at [k]. *)
Lemma hits_matches pats k : matches pats k = true ↔ 0 < hits pats k.
Proof.
  unfold matches. induction pats as [|pat pats IH]; simpl.
  - split; [discriminate | lia].
  - destruct (MatchString pat k); simpl; [split; [lia | done] | exact IH].
Qed.

(** The inner loop, in closed form. *)
Lemma prune_pats_closed e pats ents (m : cache) :
  prune_pats e pats ents m =
  (ents ++ replicate (hits pats (Key e)) e,
   if matches pats (Key e) then delete (Key e) m else m).
Proof.
  revert ents m. induction pats as [|pat pats IH]; intros ents m; simpl.
  - by rewrite app_nil_r.
  - unfold matches in *. simpl.
    destruct (MatchString pat (Key e)) eqn:E; simpl.
    + rewrite IH. rewrite <- app_assoc. simpl. f_equal.
      destruct (existsb _ pats); [by rewrite delete_delete_eq | done].
    + apply IH.
Qed.

Lemma keyed_delete k (m : cache) : keyed m → keyed (delete k m).
Proof.
  intros Hk k' e He. apply lookup_delete_Some in He as [_ He]. by apply Hk.
Qed.

(** The map that [prune] leaves: the visited keys that match are gone, all
    other entries are as they were. *)
Lemma prune_range_map order pats ents (m : cache) k :
  keyed m →
  (prune_range order pats ents m).2 !! k =
  if bool_decide (k ∈ order) && matches pats k then None else m !! k.
Proof.
  revert ents m. induction order as [|k0 order IH]; intros ents m Hk; simpl.
  - done.
  - assert (Hne : k ≠ k0 → bool_decide (k ∈ k0 :: order) = bool_decide (k ∈ order)).
    { intros Hk0. apply bool_decide_ext. rewrite elem_of_cons.
      split; [by intros [?|?] | by right]. }
    assert (Heq : bool_decide (k0 ∈ k0 :: order) = true).
    { apply bool_decide_eq_true_2. left. }
    destruct (m !! k0) as [e|] eqn:He.
    + rewrite prune_pats_closed. rewrite (Hk _ _ He).
      destruct (matches pats k0) eqn:Em.
      * rewrite IH; [|apply keyed_delete, Hk].
        destruct (decide (k = k0)) as [->|Hk0].
        -- rewrite Heq, Em. simpl. rewrite lookup_delete_eq.
           by destruct (bool_decide (k0 ∈ order)).
        -- rewrite lookup_delete_ne by done. by rewrite Hne.
      * rewrite IH by done.
        destruct (decide (k = k0)) as [->|Hk0].
        -- rewrite Em. by rewrite !andb_false_r.
        -- by rewrite Hne.
    + rewrite IH by done.
      destruct (decide (k = k0)) as [->|Hk0].
      * rewrite He. by destruct (bool_decide (k0 ∈ k0 :: order) && _), (bool_decide (k0 ∈ order) && _).
      * by rewrite Hne.
Qed.

(** The list that [prune] returns: each visited entry, once per pattern
    that matches its key. *)
Lemma prune_range_list order pats ents (m : cache) :
  keyed m → NoDup order →
  (prune_range order pats ents m).1 =
  ents ++ flat_map (fun k => match m !! k with
                             | Some e => replicate (hits pats k) e
                             | None => []
                             end) order.
Proof.
  revert ents m. induction order as [|k0 order IH]; intros ents m Hk Hnd; simpl.
  - by rewrite app_nil_r.
  - apply NoDup_cons in Hnd as [Hnotin Hnd].
    assert (Hflat : ∀ m' : cache, (∀ k, k ∈ order → m' !! k = m !! k) →
      flat_map (fun k => match m' !! k with
                         | Some e => replicate (hits pats k) e
                         | None => [] end) order =
      flat_map (fun k => match m !! k with
                         | Some e => replicate (hits pats k) e
                         | None => [] end) order).
    { intros m' Hm'. clear IH Hnd Hnotin.
      induction order as [|k1 order IH']; simpl; [done|].
      rewrite Hm' by left. f_equal. apply IH'. intros k Hin. apply Hm'. by right. }
    destruct (m !! k0) as [e|] eqn:He.
    + rewrite prune_pats_closed. rewrite (Hk _ _ He).
      destruct (matches pats k0) eqn:Em.
      * rewrite IH; [|apply keyed_delete, Hk|exact Hnd]. rewrite <- app_assoc. do 2 f_equal.
        apply Hflat. intros k Hin. apply lookup_delete_ne. set_solver.
      * rewrite IH by done. by rewrite <- app_assoc.
    + rewrite IH by done. done.
Qed.

Lemma visits_map_to_list (m : cache) : visits (map fst (map_to_list m)) m.
Proof.
  split; [apply NoDup_fst_map_to_list|].
  intros k. rewrite list_elem_of_fmap. split.
  - intros [[k' e] [-> Hin]]. apply elem_of_map_to_list in Hin. by exists e.
  - intros [e He]. exists (k, e). split; [done|]. by apply elem_of_map_to_list.
Qed.

(** What [prune] does evict: whatever the visiting order, the entries whose
    key matches a pattern leave the map and the others stay as they were. *)
Lemma prune_evicts_matching order pats (m : cache) k :
  keyed m → visits order m →
  (prune_in order pats m).2 !! k = if matches pats k then None else m !! k.
Proof.
  intros Hk [_ Hcov]. unfold prune_in. rewrite prune_range_map by done.
  destruct (matches pats k); [|by rewrite andb_false_r].
  rewrite andb_true_r. case_bool_decide as Hin; [done|].
  destruct (m !! k) eqn:E; [|done]. exfalso. apply Hin, Hcov. by eexists.
Qed.

(** The members of the returned list are the evicted entries. *)
Lemma prune_returns_evicted order pats (m : cache) e :
  keyed m → visits order m →
  e ∈ (prune_in order pats m).1 ↔ ∃ k, m !! k = Some e ∧ matches pats k = true.
Proof.
  intros Hk [Hnd Hcov]. unfold prune_in. rewrite prune_range_list by done.
  simpl. rewrite list_elem_of_In, in_flat_map. split.
  - intros (k & _ & Hin). exists k. destruct (m !! k) as [e'|]; [|by destruct Hin].
    apply list_elem_of_In, elem_of_replicate in Hin as [-> Hn].
    split; [done|]. apply hits_matches. lia.
  - intros (k & He & Hm). exists k. split.
    + apply list_elem_of_In, Hcov. by eexists.
    + rewrite He. apply list_elem_of_In, elem_of_replicate. split; [done|].
      apply hits_matches in Hm. lia.
Qed.

Lemma filter_replicate_key k n (e : mgcCacheEnt) :
  filter (fun e' => Key e' = k) (replicate n e) =
  if decide (Key e = k) then replicate n e else [].
Proof.
  induction n as [|n IH]; simpl; [by case_decide|].
  rewrite filter_cons, IH. by case_decide.
Qed.

(** How often an evicted entry is returned: once per matching pattern. *)
Lemma prune_returns_per_pattern order pats (m : cache) k e :
  keyed m → visits order m → m !! k = Some e →
  length (filter (fun e' => Key e' = k) (prune_in order pats m).1) = hits pats k.
Proof.
  intros Hk [Hnd Hcov] He. unfold prune_in. rewrite prune_range_list by done.
  simpl. assert (Hin : k ∈ order) by (apply Hcov; by eexists).
  clear Hcov. induction order as [|k0 order IH]; [by apply not_elem_of_nil in Hin|].
  apply NoDup_cons in Hnd as [Hnotin Hnd]. simpl. rewrite filter_app, length_app.
  assert (Hrest : ∀ l, k ∉ l →
    filter (fun e' => Key e' = k)
      (flat_map (fun k => match m !! k with
                          | Some e => replicate (hits pats k) e
                          | None => [] end) l) = []).
  { intros l Hl. induction l as [|k1 l IHl]; [done|]. simpl. rewrite filter_app.
    rewrite IHl by (intros ?; apply Hl; by right). rewrite app_nil_r.
    destruct (m !! k1) as [e1|] eqn:E1; [|done].
    rewrite filter_replicate_key. rewrite (Hk _ _ E1).
    case_decide as Hk1; [|done]. exfalso. apply Hl. rewrite Hk1. left. }
  destruct (decide (k = k0)) as [<-|Hne].
  - rewrite He, Hrest by done. simpl. rewrite Nat.add_0_r.
    rewrite filter_replicate_key, (Hk _ _ He), decide_True by done.
    by rewrite length_replicate.
  - rewrite IH; [|done|by apply elem_of_cons in Hin as [?|?]].
    destruct (m !! k0) as [e0|] eqn:E0; [|done].
    rewrite filter_replicate_key, (Hk _ _ E0), decide_False by congruence. done.
Qed.

(** With the one pattern [^/tmp/], [prune] evicts [/tmp/x] and [/tmp/y],
    returns each once and leaves [/home/z]. *)
Example prune_tmp_of_three :
  let '(ents, m) := prune [pat_tmp] cache_xyz in
  ents ≡ₚ [ent_at "/tmp/x"; ent_at "/tmp/y"] ∧ m = {[ "/home/z" := ent_at "/home/z" ]}.
Proof.
  vm_compute. split; [|reflexivity].
  first [ reflexivity | apply perm_swap ].
Qed.

(** C2, evaluated where it fails: the entry stored under [/tmp/x] matches
    both [^/tmp/] and [^/]; [prune] evicts it and returns it twice, not
    once. *)
Theorem prune_returns_entry_twice :
  prune [pat_tmp; pat_root] cache_x = ([ent_x; ent_x], ∅).
Proof. vm_compute. reflexivity. Qed.

(** *** Admission *)

Lemma all_complete_empty : all_complete ∅.
Proof. intros k e He. by rewrite lookup_empty in He. Qed.

Lemma all_complete_subseteq (m m' : cache) :
  (∀ k e, m' !! k = Some e → m !! k = Some e) → all_complete m → all_complete m'.
Proof. intros Hsub Hm k e He. apply (Hm k), Hsub, He. Qed.

Lemma put_all_complete e (m m' : cache) :
  put e m = Done m' → all_complete m → all_complete m'.
Proof.
  unfold put. destruct (Pkg e) as [p|] eqn:Ep; simpl; [|discriminate].
  destruct (GoTypes.complete p) eqn:Ec; intros [= <-] Hm; [|done].
  intros k e' He'. apply lookup_insert_Some in He' as [[_ <-]|[_ He']].
  - by exists p.
  - by apply (Hm k).
Qed.

Lemma del_all_complete k (m : cache) : all_complete m → all_complete (del k m).
Proof.
  unfold del. destruct (m !! k); [|done]. apply all_complete_subseteq.
  intros k' e He. by apply lookup_delete_Some in He as [_ He].
Qed.

Lemma prune_pats_sub e pats ents (m : cache) k e' :
  (prune_pats e pats ents m).2 !! k = Some e' → m !! k = Some e'.
Proof.
  rewrite prune_pats_closed. simpl. destruct (matches pats (Key e)); [|done].
  intros He. by apply lookup_delete_Some in He as [_ He].
Qed.

Lemma prune_range_sub order pats ents (m : cache) k e' :
  (prune_range order pats ents m).2 !! k = Some e' → m !! k = Some e'.
Proof.
  revert ents m. induction order as [|k0 order IH]; intros ents m; simpl; [done|].
  destruct (m !! k0) as [e|] eqn:He; [|apply IH].
  destruct (prune_pats e pats ents m) as [ents' m'] eqn:Ep. intros H%IH.
  apply (prune_pats_sub e pats ents). by rewrite Ep.
Qed.

Lemma step_all_complete o (m m' : cache) :
  step o m = Done m' → all_complete m → all_complete m'.
Proof.
  destruct o as [k|e|k|order pats]; simpl.
  - by intros [= <-].
  - apply put_all_complete.
  - intros [= <-]. apply del_all_complete.
  - intros [= <-]. apply all_complete_subseteq. intros k e.
    apply prune_range_sub.
Qed.

Lemma run_all_complete ops (m : cache) : all_complete m → all_complete (run ops m).
Proof.
  revert m. induction ops as [|o ops IH]; intros m Hm; simpl; [done|].
  destruct (step o m) as [m'| |] eqn:Es; [|done..].
  eapply IH, step_all_complete; eauto.
Qed.

(** C4: [put] of an entry whose package is not complete returns with the
    cache as it was, and every entry of a cache reached from the empty one
    by [get], [put], [del] and [prune] holds a complete package. *)
Theorem cache_admits_only_complete
    (e : mgcCacheEnt) (p : GoTypes.Package) (m : cache)
    (ops : list op) (k : mgcCacheKey) (e' : mgcCacheEnt) :
  (Pkg e = Some p → GoTypes.complete p = false → put e m = Done m) ∧
  (run ops ∅ !! k = Some e' →
   ∃ p', Pkg e' = Some p' ∧ GoTypes.complete p' = true).
Proof.
  split.
  - intros Hp Hc. unfold put. rewrite Hp. simpl. by rewrite Hc.
  - apply (run_all_complete ops ∅ all_complete_empty).
Qed.

Lemma cache_admits_only_complete_witness :
  put ent_partial cache_x = Done cache_x ∧
  ∃ p', Pkg ent_x = Some p' ∧ GoTypes.complete p' = true.
Proof.
  pose proof (cache_admits_only_complete ent_partial pkg_partial cache_x
                [OpPut ent_partial; OpPut ent_x; OpGet "/tmp/x"; OpDel "/tmp/y"]
                "/tmp/x" ent_x) as [Hput Hrun].
  split.
  - apply Hput; reflexivity.
  - apply Hrun. vm_compute. reflexivity.
Defined.

End MgcCacheFacts.

(** * Properties of the importer *)

Module KimporterFacts.
Import Kimporter.
Local Open Scope list_scope.

(** *** Invalidation *)

Lemma mark_imby at_ b st : imby (mark at_ b st) = imby st.
Proof. by destruct b. Qed.

Lemma mark_mark at_ b st : mark at_ b (set_invAt at_ st) = set_invAt at_ st.
Proof. by destruct b. Qed.

Lemma same_graph_refl h : same_graph h h.
Proof. by split. Qed.

Lemma same_graph_marked at_ (f : addr → bool) (h0 h h' : heap) :
  same_graph h0 h → length h' = length h →
  (∀ a, h' !! a = mark at_ (f a) <$> h !! a) → same_graph h0 h'.
Proof.
  intros [Hlen Hg] Hlen' Hh'. split; [congruence|].
  intros a. rewrite <- Hg. unfold graph. rewrite Hh'.
  destruct (h !! a); simpl; [apply mark_imby | done].
Qed.

Lemma lookup_insert_invAt (h : heap) ks st at_ a :
  h !! ks = Some st →
  <[ks := set_invAt at_ st]> h !! a = mark at_ (Nat.eqb ks a) <$> h !! a.
Proof.
  intros Hks. destruct (Nat.eqb_spec ks a) as [<-|Hne].
  - rewrite list_lookup_insert_eq by by eapply lookup_lt_Some.
    by rewrite Hks.
  - rewrite list_lookup_insert_ne by done. by destruct (h !! a).
Qed.

Lemma reachb_ext n g g' a b :
  (∀ x, g x = g' x) → reachb n g a b = reachb n g' a b.
Proof.
  intros Hg. revert a. induction n as [|n IH]; intros a; simpl; [done|].
  rewrite Hg. f_equal. induction (g' a) as [|p l IHl]; simpl; [done|].
  by rewrite IH, IHl.
Qed.

Lemma invalidate_S fuel ks at_ (h : heap) :
  invalidate (S fuel) ks at_ h =
  match h !! ks with
  | None => Panic nil_deref
  | Some st =>
      forEach (fun p => invalidate fuel p at_) (imby st) (<[ks := set_invAt at_ st]> h)
  end.
Proof. reflexivity. Qed.

(** More fuel does not change a call that has returned or panicked. *)
Lemma invalidate_fuel_mono fuel at_ : ∀ ks (h : heap) r,
  invalidate fuel ks at_ h = r → r ≠ OutOfFuel →
  invalidate (S fuel) ks at_ h = r.
Proof.
  induction fuel as [|fuel IH]; intros ks h r Hr Hne; [by subst|].
  rewrite invalidate_S in *. destruct (h !! ks) as [st|]; [|done].
  revert Hr Hne. generalize (<[ks := set_invAt at_ st]> h) as h1.
  induction (imby st) as [|p l IHl]; intros h1 Hr Hne; simpl in *; [done|].
  destruct (invalidate fuel p at_ h1) as [h2| |] eqn:E1.
  - rewrite (IH p h1 (Done h2) E1) by done. simpl in *. by apply IHl.
  - rewrite (IH p h1 (Panic msg) E1) by done. done.
  - simpl in Hr. congruence.
Qed.

(** The loop of [invalidate], given that the recursive calls return. *)
Lemma forEach_invalidate n at_ (rank : addr → nat) (h0 : heap) :
  (∀ ks h, same_graph h0 h → ks < length h0 → rank ks < n →
     ∃ h', invalidate n ks at_ h = Done h' ∧ length h' = length h ∧
           ∀ a, h' !! a = mark at_ (reachb n (graph h0) ks a) <$> h !! a) →
  ∀ l h, same_graph h0 h → (∀ p, p ∈ l → p < length h0 ∧ rank p < n) →
    ∃ h', forEach (fun p => invalidate n p at_) l h = Done h' ∧
          length h' = length h ∧
          ∀ a, h' !! a =
               mark at_ (existsb (fun p => reachb n (graph h0) p a) l) <$> h !! a.
Proof.
  intros IHn l. induction l as [|p l IHl]; intros h Hsame Hl; simpl.
  - exists h. repeat split. intros a. by destruct (h !! a).
  - destruct (Hl p) as [Hp Hr]; [by left|].
    destruct (IHn p h Hsame Hp Hr) as (h1 & -> & Hlen1 & Hh1). simpl.
    destruct (IHl h1) as (h2 & -> & Hlen2 & Hh2).
    { by eapply same_graph_marked. }
    { intros q Hq. apply Hl. by right. }
    exists h2. split; [done|]. split; [congruence|].
    intros a. rewrite Hh2, Hh1. destruct (h !! a) as [st|]; simpl; [|done].
    f_equal. by destruct (reachb n (graph h0) p a), (existsb _ l).
Qed.

(** On a graph without cycles [invalidate] returns, having marked what it
    reached. *)
Lemma invalidate_ranked (rank : addr → nat) (h0 : heap) at_ :
  closed h0 → ranked rank h0 →
  ∀ n ks h, same_graph h0 h → ks < length h0 → rank ks < n →
    ∃ h', invalidate n ks at_ h = Done h' ∧ length h' = length h ∧
          ∀ a, h' !! a = mark at_ (reachb n (graph h0) ks a) <$> h !! a.
Proof.
  intros Hclosed Hrank n. induction n as [|n IH]; intros ks h Hsame Hks Hr; [lia|].
  rewrite invalidate_S. destruct Hsame as [Hlen Hg].
  destruct (lookup_lt_is_Some_2 h ks) as [st Hst]; [lia|]. rewrite Hst.
  assert (Himby : imby st = graph h0 ks).
  { rewrite <- Hg. unfold graph. by rewrite Hst. }
  destruct (forEach_invalidate n at_ rank h0 IH (imby st)
              (<[ks := set_invAt at_ st]> h)) as (h' & Hrun & Hlen' & Hh').
  { eapply (same_graph_marked at_ (Nat.eqb ks) h0 h); [by split| |].
    - by rewrite length_insert.
    - intros a. by apply lookup_insert_invAt. }
  { intros p Hp. rewrite Himby in Hp. split; [by eapply Hclosed|].
    specialize (Hrank ks p Hp). lia. }
  exists h'. split; [done|]. split; [by rewrite Hlen', length_insert|].
  intros a. rewrite Hh', (lookup_insert_invAt h ks st at_ a Hst), Himby.
  destruct (h !! a) as [st'|]; simpl; [|done]. f_equal.
  by destruct (Nat.eqb ks a), (existsb _ _).
Qed.

Lemma reachb_sound n (h : heap) a b :
  reachb n (graph h) a b = true → reaches h a b.
Proof.
  revert a. induction n as [|n IH]; intros a; simpl; [discriminate|].
  intros [Heq|Hex]%orb_true_iff.
  - apply Nat.eqb_eq in Heq as ->. apply rtc_refl.
  - apply existsb_exists in Hex as (p & Hp & Hr).
    eapply rtc_l; [|by apply IH]. by apply list_elem_of_In.
Qed.

Lemma reachb_complete (rank : addr → nat) (h : heap) a b :
  ranked rank h → reaches h a b → ∀ n, rank a < n → reachb n (graph h) a b = true.
Proof.
  intros Hrank Hreach. induction Hreach as [a|a p b Hedge _ IH]; intros n Hn.
  - destruct n; [lia|]. simpl. by rewrite Nat.eqb_refl.
  - destruct n; [lia|]. simpl. apply orb_true_iff. right.
    apply existsb_exists. exists p. split; [by apply list_elem_of_In|].
    apply IH. specialize (Hrank a p Hedge). lia.
Qed.

Example invalidate_chain :
  invalidate 3 2 9 heap_chain =
  Done [set_invAt 9 (newState key_a); set_invAt 9 (set_imby [0] (newState key_b));
        set_invAt 9 (set_imby [1] (newState key_c))].
Proof. reflexivity. Qed.

Example invalidate_chain_middle :
  invalidate 3 1 9 heap_chain =
  Done [set_invAt 9 (newState key_a); set_invAt 9 (set_imby [0] (newState key_b));
        set_imby [1] (newState key_c)].
Proof. reflexivity. Qed.

(** The two states of [heap_cycle] keep calling each other. *)
Lemma invalidate_two_cycle at_ fuel : ∀ (h : heap) a,
  length h = 2 → graph h 0 = [1] → graph h 1 = [0] → a < 2 →
  invalidate fuel a at_ h = OutOfFuel.
Proof.
  induction fuel as [|fuel IH]; intros h a Hlen H0 H1 Ha; [done|].
  rewrite invalidate_S.
  destruct (lookup_lt_is_Some_2 h a) as [st Hst]; [lia|]. rewrite Hst.
  set (h1 := <[a := set_invAt at_ st]> h).
  assert (Hg : ∀ x, graph h1 x = graph h x).
  { intros x. unfold graph, h1. rewrite (lookup_insert_invAt h a st at_ x Hst).
    destruct (h !! x); simpl; [apply mark_imby | done]. }
  assert (Hl : imby st = [1 - a]).
  { assert (a = 0 ∨ a = 1) as [->| ->] by lia.
    - unfold graph in H0. by rewrite Hst in H0.
    - unfold graph in H1. by rewrite Hst in H1. }
  rewrite Hl. simpl. rewrite IH; [done| | | |lia].
  - unfold h1. by rewrite length_insert.
  - by rewrite Hg.
  - by rewrite Hg.
Qed.

(** The cyclic heap is one the registry reaches: [a] imports [b], and
    later [b] imports [a]. *)
Lemma heap_cycle_reached :
  hrun [HNew key_a; HNew key_b; HImportedBy 1 0; HImportedBy 0 1] [] = heap_cycle.
Proof. reflexivity. Qed.

(** On two states that import each other no depth of recursion lets
    [invalidate] end, neither by a return nor by a panic. *)
Lemma invalidate_cycle_never_returns :
  ¬ ∃ fuel, invalidate fuel 0 9 heap_cycle ≠ OutOfFuel.
Proof.
  intros (fuel & Hrun). apply Hrun.
  apply (invalidate_two_cycle 9 fuel heap_cycle 0); [done..|lia].
Qed.

(** On every finite reverse-dependency graph without cycles [invalidate]
    returns; it has set [invAt] to the tick in the state and in all its
    transitive importers, and has changed nothing else. *)
Theorem invalidate_terminates_acyclic
    (rank : addr → nat) (h : heap) (ks : addr) (at_ : Z) :
  closed h → ranked rank h → ks < length h →
  ∃ fuel h', invalidate fuel ks at_ h = Done h' ∧ length h' = length h ∧
    ∀ a st, h !! a = Some st →
      (reaches h ks a → h' !! a = Some (set_invAt at_ st)) ∧
      (¬ reaches h ks a → h' !! a = Some st).
Proof.
  intros Hclosed Hrank Hks.
  destruct (invalidate_ranked rank h at_ Hclosed Hrank (S (rank ks)) ks h)
    as (h' & Hrun & Hlen & Hh'); [apply same_graph_refl|done|lia|].
  exists (S (rank ks)), h'. split; [done|]. split; [done|].
  intros a st Hst. rewrite Hh', Hst.
  destruct (reachb (S (rank ks)) (graph h) ks a) eqn:Er.
  - split; [done|]. intros Hn. destruct Hn. by eapply reachb_sound.
  - split; [|done]. intros Hreach.
    rewrite (reachb_complete rank h ks a Hrank Hreach) in Er; [done|lia].
Qed.

Lemma heap_chain_closed : closed heap_chain.
Proof.
  intros a p. unfold graph, heap_chain.
  destruct a as [|[|[|a]]]; simpl; rewrite ?lookup_nil;
    first [ by intros []%elem_of_nil
          | intros [->|[]%elem_of_nil]%elem_of_cons; lia ].
Qed.

Lemma heap_chain_ranked : ranked rank_chain heap_chain.
Proof.
  intros a p. unfold graph, rank_chain, heap_chain.
  destruct a as [|[|[|a]]]; simpl; rewrite ?lookup_nil;
    first [ by intros []%elem_of_nil
          | intros [->|[]%elem_of_nil]%elem_of_cons; lia ].
Qed.

Lemma invalidate_terminates_acyclic_witness :
  ∃ fuel h', invalidate fuel 2 9 heap_chain = Done h' ∧ length h' = length heap_chain ∧
    ∀ a st, heap_chain !! a = Some st →
      (reaches heap_chain 2 a → h' !! a = Some (set_invAt 9 st)) ∧
      (¬ reaches heap_chain 2 a → h' !! a = Some st).
Proof.
  apply (invalidate_terminates_acyclic rank_chain heap_chain 2 9).
  - exact heap_chain_closed.
  - exact heap_chain_ranked.
  - simpl. lia.
Defined.

(** *** The importer lists *)

Lemma grows_refl h : grows h h.
Proof. intros a st Hst. by exists st. Qed.

Lemma grows_trans h1 h2 h3 : grows h1 h2 → grows h2 h3 → grows h1 h3.
Proof.
  intros H12 H23 a st Hst. destruct (H12 a st Hst) as (st2 & Hst2 & Hp2).
  destruct (H23 a st2 Hst2) as (st3 & Hst3 & Hp3). exists st3. split; [done|].
  by etrans.
Qed.

Lemma listed_elem_of p l : listed p l = true ↔ p ∈ l.
Proof.
  induction l as [|q l IH]; simpl.
  - split; [discriminate | by intros ?%elem_of_nil].
  - rewrite elem_of_cons. destruct (Nat.eqb_spec p q) as [->|Hne].
    + split; [by left | done].
    + rewrite IH. split; [by right | by intros [?|?]].
Qed.

(** [importedBy] in closed form. *)
Lemma importedBy_closed ks p (h : heap) st :
  h !! ks = Some st →
  importedBy ks p h =
  Done (if bool_decide (p ∈ imby st) then h
        else <[ks := set_imby (imby st ++ [p]) st]> h).
Proof.
  intros Hst. unfold importedBy. rewrite Hst.
  destruct (listed p (imby st)) eqn:El.
  - apply listed_elem_of in El. by rewrite bool_decide_eq_true_2.
  - rewrite bool_decide_eq_false_2; [done|]. intros Hin%listed_elem_of. congruence.
Qed.

Lemma importedBy_nodup ks p (h h' : heap) :
  importedBy ks p h = Done h' → imby_nodup h → imby_nodup h'.
Proof.
  unfold importedBy. destruct (h !! ks) as [st|] eqn:Hst; [|discriminate].
  destruct (listed p (imby st)) eqn:El; intros [= <-] Hnd; [done|].
  intros a st' Hst'. destruct (decide (a = ks)) as [->|Hne].
  - rewrite list_lookup_insert_eq in Hst' by by eapply lookup_lt_Some.
    injection Hst' as <-. simpl. apply NoDup_app. split; [by eapply Hnd|].
    split; [|apply NoDup_singleton].
    intros x Hx ->%list_elem_of_singleton. apply listed_elem_of in Hx. congruence.
  - rewrite list_lookup_insert_ne in Hst' by done. by eapply Hnd.
Qed.

Lemma importedBy_grows ks p (h h' : heap) :
  importedBy ks p h = Done h' → grows h h'.
Proof.
  unfold importedBy. destruct (h !! ks) as [st|] eqn:Hst; [|discriminate].
  destruct (listed p (imby st)); intros [= <-]; [apply grows_refl|].
  intros a st' Hst'. destruct (decide (a = ks)) as [->|Hne].
  - rewrite list_lookup_insert_eq by by eapply lookup_lt_Some.
    eexists. split; [done|]. simpl. assert (st' = st) as -> by congruence.
    by apply prefix_app_r.
  - rewrite list_lookup_insert_ne by done. by exists st'.
Qed.

(** [invalidate], when it returns, has left every list as it was; this
    holds on every graph. *)
Lemma invalidate_keeps_lists fuel at_ : ∀ ks (h h' : heap),
  invalidate fuel ks at_ h = Done h' →
  length h' = length h ∧ ∀ a, imby <$> h' !! a = imby <$> h !! a.
Proof.
  induction fuel as [|fuel IH]; intros ks h h'; [discriminate|].
  rewrite invalidate_S. destruct (h !! ks) as [st|] eqn:Hst; [|discriminate].
  assert (Hloop : ∀ l (h1 h2 : heap),
    forEach (fun p => invalidate fuel p at_) l h1 = Done h2 →
    length h2 = length h1 ∧ ∀ a, imby <$> h2 !! a = imby <$> h1 !! a).
  { induction l as [|p l IHl]; intros h1 h2; simpl.
    - by intros [= <-].
    - destruct (invalidate fuel p at_ h1) as [h1'| |] eqn:E1; [|discriminate..].
      intros [Hlen2 Hh2]%IHl. apply IH in E1 as [Hlen1 Hh1].
      split; [congruence|]. intros a. by rewrite Hh2. }
  intros [Hlen Hh]%Hloop. split; [by rewrite Hlen, length_insert|].
  intros a. rewrite Hh, (lookup_insert_invAt h ks st at_ a Hst).
  destruct (h !! a); simpl; [|done]. by rewrite mark_imby.
Qed.

(** Without a cycle the recursion ends, be it by a panic on a nil entry. *)
Lemma invalidate_ranked_halts (rank : addr → nat) (h0 : heap) at_ :
  ranked rank h0 →
  ∀ n ks h, same_graph h0 h → rank ks < n → invalidate n ks at_ h ≠ OutOfFuel.
Proof.
  intros Hrank n. induction n as [|n IH]; intros ks h [Hlen Hg] Hr; [lia|].
  rewrite invalidate_S. destruct (h !! ks) as [st|] eqn:Hst; [|done].
  assert (Himby : imby st = graph h0 ks).
  { rewrite <- Hg. unfold graph. by rewrite Hst. }
  assert (Hl : ∀ p, p ∈ imby st → rank p < n).
  { intros p Hp. rewrite Himby in Hp. specialize (Hrank ks p Hp). lia. }
  assert (Hsame : same_graph h0 (<[ks := set_invAt at_ st]> h)).
  { eapply (same_graph_marked at_ (Nat.eqb ks) h0 h); [by split| |].
    - by rewrite length_insert.
    - intros a. by apply lookup_insert_invAt. }
  clear Himby Hst. revert Hl Hsame. generalize (<[ks := set_invAt at_ st]> h) as h1.
  induction (imby st) as [|p l IHl]; intros h1 Hl Hsame; simpl; [done|].
  destruct (invalidate n p at_ h1) as [h2| |] eqn:E1; simpl; [|done|].
  - apply IHl; [intros q Hq; apply Hl; by right|].
    apply invalidate_keeps_lists in E1 as [Hlen2 Hh2]. destruct Hsame as [Hlen1 Hg1].
    split; [congruence|]. intros a. rewrite <- Hg1. unfold graph.
    specialize (Hh2 a). destruct (h2 !! a), (h1 !! a); simpl in *; congruence.
  - by destruct (IH p h1 Hsame (Hl p ltac:(left))).
Qed.

Lemma keeps_lists_nodup (h h' : heap) :
  (∀ a, imby <$> h' !! a = imby <$> h !! a) → imby_nodup h → imby_nodup h'.
Proof.
  intros Hh Hnd a st' Hst'. specialize (Hh a). rewrite Hst' in Hh.
  destruct (h !! a) as [st|] eqn:Hst; [|done]. injection Hh as ->. by eapply Hnd.
Qed.

Lemma keeps_lists_grows (h h' : heap) :
  (∀ a, imby <$> h' !! a = imby <$> h !! a) → grows h h'.
Proof.
  intros Hh a st Hst. specialize (Hh a). rewrite Hst in Hh.
  destruct (h' !! a) as [st'|]; [|done]. exists st'. split; [done|].
  injection Hh as ->. done.
Qed.

Lemma checked_keeps_lists ks p e hs at_ (h : heap) st a :
  h !! ks = Some st →
  imby <$> <[ks := set_checked p e hs at_ st]> h !! a = imby <$> h !! a.
Proof.
  intros Hst. destruct (decide (a = ks)) as [->|Hne].
  - rewrite list_lookup_insert_eq by by eapply lookup_lt_Some. by rewrite Hst.
  - by rewrite list_lookup_insert_ne.
Qed.

Lemma hstep_nodup o (h h' : heap) :
  hstep o h = Done h' → imby_nodup h → imby_nodup h'.
Proof.
  destruct o as [k|ks p|fuel ks at_|ks p e hs at_]; simpl.
  - intros [= <-] Hnd a st [Hst|[_ Hst]]%lookup_app_Some; [by eapply Hnd|].
    apply list_lookup_singleton_Some in Hst as [_ <-]. apply NoDup_nil_2.
  - apply importedBy_nodup.
  - intros [_ Hh]%invalidate_keeps_lists. by apply keeps_lists_nodup.
  - destruct (h !! ks) as [st|] eqn:Hst; [|discriminate]. intros [= <-].
    apply keeps_lists_nodup. intros a. by apply checked_keeps_lists.
Qed.

Lemma hstep_grows o (h h' : heap) : hstep o h = Done h' → grows h h'.
Proof.
  destruct o as [k|ks p|fuel ks at_|ks p e hs at_]; simpl.
  - intros [= <-] a st Hst. exists st. split; [|done].
    by apply lookup_app_l_Some.
  - apply importedBy_grows.
  - intros [_ Hh]%invalidate_keeps_lists. by apply keeps_lists_grows.
  - destruct (h !! ks) as [st|] eqn:Hst; [|discriminate]. intros [= <-].
    apply keeps_lists_grows. intros a. by apply checked_keeps_lists.
Qed.

Lemma hrun_nodup ops (h : heap) : imby_nodup h → imby_nodup (hrun ops h).
Proof.
  revert h. induction ops as [|o ops IH]; intros h Hnd; simpl; [done|].
  destruct (hstep o h) as [h'| |] eqn:Es; [|done..].
  eapply IH, hstep_nodup; eauto.
Qed.

Lemma hrun_grows ops (h : heap) : grows h (hrun ops h).
Proof.
  revert h. induction ops as [|o ops IH]; intros h; simpl; [apply grows_refl|].
  destruct (hstep o h) as [h'| |] eqn:Es; [|apply grows_refl..].
  eapply grows_trans; [by eapply hstep_grows | apply IH].
Qed.

(** C6: in every heap reached from the empty registry no importer list
    holds a state twice, and whatever operations follow ([invalidate]
    among them) the list is only extended at its end; [importedBy] appends
    its argument exactly when the list does not hold it yet. *)
Theorem importedBy_is_growing_set
    (ops ops' : list hop) (a : addr) (st : state)
    (h : heap) (ks p : addr) (st0 : state) :
  (hrun ops [] !! a = Some st →
   NoDup (imby st) ∧
   ∃ st', hrun ops' (hrun ops []) !! a = Some st' ∧ imby st `prefix_of` imby st') ∧
  (h !! ks = Some st0 →
   importedBy ks p h =
   Done (if bool_decide (p ∈ imby st0) then h
         else <[ks := set_imby (imby st0 ++ [p]) st0]> h)).
Proof.
  split.
  - intros Hst. split.
    + eapply (hrun_nodup ops []); [|done]. intros a' st' Hst'.
      by rewrite lookup_nil in Hst'.
    + by apply (hrun_grows ops' (hrun ops [])).
  - apply importedBy_closed.
Qed.

Lemma importedBy_is_growing_set_witness :
  (NoDup [0] ∧
   ∃ st', hrun [HImportedBy 1 0; HInvalidate 3 1 9; HImportedBy 1 2]
               (hrun [HNew key_a; HNew key_b; HNew key_c; HImportedBy 1 0] []) !! 1
          = Some st' ∧ [0] `prefix_of` imby st') ∧
  importedBy 1 0 heap_chain = Done heap_chain.
Proof.
  pose proof (importedBy_is_growing_set
                [HNew key_a; HNew key_b; HNew key_c; HImportedBy 1 0]
                [HImportedBy 1 0; HInvalidate 3 1 9; HImportedBy 1 2]
                1 (set_imby [0] (newState key_b))
                heap_chain 1 0 (set_imby [0] (newState key_b))) as [Hrun Himp].
  split.
  - apply Hrun. reflexivity.
  - apply Himp. reflexivity.
Defined.

(** *** The result policy *)

(** C5: [result] returns [(nil, err)] when [err] is set; else, when the
    stored package reports itself incomplete, the package with the error
    [reimported partially imported package <ImportPath>]; else the package
    and no error. *)
Theorem result_policy (ks : state) (e : error) :
  (err ks = Some e → result ks = Done (None, Some e)) ∧
  (err ks = None → Complete (pkg ks) = Done false →
   result ks = Done (pkg ks, Some (reimported ks))) ∧
  (err ks = None → Complete (pkg ks) = Done true →
   result ks = Done (pkg ks, None)).
Proof.
  unfold result. repeat split.
  - by intros ->.
  - by intros -> ->.
  - by intros -> ->.
Qed.

Lemma result_policy_witness :
  result (set_checked None (Some (ErrorString "no such package")) "" 5 (newState key_a))
    = Done (None, Some (ErrorString "no such package")) ∧
  result (set_checked (Some pkg_partial) None "" 5 (newState key_a))
    = Done (Some pkg_partial,
            Some (Errorf "reimported partially imported package %q" ["a"])) ∧
  result (set_checked (Some pkg_done) None "" 5 (newState key_a))
    = Done (Some pkg_done, None).
Proof.
  split; [|split].
  - apply (result_policy _ (ErrorString "no such package")). reflexivity.
  - apply (result_policy (set_checked (Some pkg_partial) None "" 5 (newState key_a))
             (ErrorString "")); reflexivity.
  - apply (result_policy (set_checked (Some pkg_done) None "" 5 (newState key_a))
             (ErrorString "")); reflexivity.
Defined.

(** C10: [result] returns exactly when [err] or [pkg] is set; on a state
    with neither, such as the one [globalState] has just allocated, it
    calls [Complete] through the nil [*Package] and panics. *)
Theorem result_needs_err_or_pkg (ks : state) (k : stateKey) :
  (err ks = None → pkg ks = None → result ks = Panic nil_deref) ∧
  ((∃ r, result ks = Done r) ↔ (err ks ≠ None ∨ pkg ks ≠ None)) ∧
  result (newState k) = Panic nil_deref.
Proof.
  unfold result. split; [|split].
  - by intros -> ->.
  - destruct (err ks) as [e|], (pkg ks) as [p|]; simpl.
    + split; [by left | by eexists].
    + split; [by left | by eexists].
    + split; [by right|]. intros _. destruct (GoTypes.complete _); by eexists.
    + split; [by intros [r ?] | by intros [?|?]].
  - done.
Qed.

Lemma result_needs_err_or_pkg_witness :
  result (newState key_a) = Panic nil_deref ∧
  ((∃ r, result (newState key_a) = Done r) ↔
   (err (newState key_a) ≠ None ∨ pkg (newState key_a) ≠ None)).
Proof.
  destruct (result_needs_err_or_pkg (newState key_a) key_a) as (Hpanic & Hiff & _).
  split; [apply Hpanic; reflexivity | exact Hiff].
Defined.

(** *** The branch of a descent *)

Lemma setupJs_frame pp kp :
  cfg (setupJs pp kp) = cfg kp ∧ mx (setupJs pp kp) = mx kp ∧
  ks (setupJs pp kp) = ks kp ∧ mp (setupJs pp kp) = mp kp ∧
  par (setupJs pp kp) = par kp ∧ tags (setupJs pp kp) = tags kp ∧
  kp_hash (setupJs pp kp) = kp_hash kp.
Proof. unfold setupJs. by destruct (_ && _). Qed.

Lemma setupJs_bld pp kp :
  bld (setupJs pp kp) =
  if bool_decide (VFS_Poke (mx kp) (pp_Dir pp) ≠ jsNode kp ∧
                  VFS_Poke (mx kp) (View_Dir (mx kp)) ≠ jsNode kp)
  then bld kp else jsBuild (bld kp).
Proof.
  unfold setupJs, jsNode.
  destruct (Nat.eqb_spec (VFS_Poke (mx kp) (pp_Dir pp))
              (Node_Poke (mx kp) (VFS_Poke (mx kp) (bld_GOROOT (bld kp))) "src/syscall/js"))
    as [E1|E1]; simpl.
  - rewrite bool_decide_eq_false_2; [done|]. by intros [? _].
  - destruct (Nat.eqb_spec (VFS_Poke (mx kp) (View_Dir (mx kp)))
              (Node_Poke (mx kp) (VFS_Poke (mx kp) (bld_GOROOT (bld kp))) "src/syscall/js"))
      as [E2|E2]; simpl.
    + rewrite bool_decide_eq_false_2; [done|]. by intros [_ ?].
    + by rewrite bool_decide_eq_true_2.
Qed.

(** The other fields of the child: the module of the resolved package when
    it has one, the target state, the type-info mask cleared unless
    [ImportsTypesInfo] is set, and the rest of the configuration as it
    was; the heap is the one [importedBy] left. *)
Lemma branch_other_fields kp target pp (h h' : heap) kx :
  branch kp target pp h = Done (kx, h') →
  mp kx = (match Mod pp with Some m => Some m | None => mp kp end) ∧
  ks kx = Some target ∧
  cfg_TypesInfo (cfg kx) =
    (if ImportsTypesInfo (cfg kp) then cfg_TypesInfo (cfg kp) else 0%N) ∧
  SrcMap (cfg kx) = SrcMap (cfg kp) ∧
  NoConcurrency (cfg kx) = NoConcurrency (cfg kp) ∧
  ImportsTypesInfo (cfg kx) = ImportsTypesInfo (cfg kp) ∧
  (match ks kp with
   | Some parent => importedBy target parent h = Done h'
   | None => h' = h
   end).
Proof.
  unfold branch. destruct (ks kp) as [parent|]; simpl.
  - destruct (importedBy target parent h) as [h1| |]; [|discriminate..]. simpl.
    intros [= <- <-].
    match goal with |- context [setupJs pp ?k] => set (kx := k) end.
    destruct (setupJs_frame pp kx) as (-> & _ & -> & -> & _). simpl.
    by destruct (ImportsTypesInfo (cfg kp)).
  - intros [= <- <-].
    match goal with |- context [setupJs pp ?k] => set (kx := k) end.
    destruct (setupJs_frame pp kx) as (-> & _ & -> & -> & _). simpl.
    by destruct (ImportsTypesInfo (cfg kp)).
Qed.

(** [branch] returns whenever the target state exists. *)
Lemma branch_returns kp target pp (h : heap) :
  target < length h → ∃ kx h', branch kp target pp h = Done (kx, h').
Proof.
  intros Ht. unfold branch, importedBy.
  destruct (lookup_lt_is_Some_2 h target Ht) as [st Hst].
  destruct (ks kp) as [parent|]; simpl; [|by eexists _, _].
  rewrite Hst. destruct (listed parent (imby st)); by eexists _, _.
Qed.

(** C7: [branch] returns a child that has no [PackageSrc], has
    [CheckFuncs], [CheckImports] and [Tests] off, the empty hash and the
    branching importer as parent; its context and tags are the parent's, and
    so is its build context unless the directory or the view is the
    [syscall/js] directory, where only OS and architecture are forced. *)
Theorem branch_clears_root_settings
    (kp : Importer) (target : addr) (pp : PkgPath) (h : heap) :
  target < length h →
  ∃ kx h',
    branch kp target pp h = Done (kx, h') ∧
    PackageSrc (cfg kx) = None ∧
    cfg_CheckFuncs (cfg kx) = false ∧
    cfg_CheckImports (cfg kx) = false ∧
    cfg_Tests (cfg kx) = false ∧
    kp_hash kx = "" ∧
    par kx = Some kp ∧
    mx kx = mx kp ∧
    tags kx = tags kp ∧
    bld kx = (if bool_decide (VFS_Poke (mx kp) (pp_Dir pp) ≠ jsNode kp ∧
                              VFS_Poke (mx kp) (View_Dir (mx kp)) ≠ jsNode kp)
              then bld kp else jsBuild (bld kp)).
Proof.
  intros Ht. destruct (branch_returns kp target pp h Ht) as (kx & h' & Hb).
  exists kx, h'. split; [done|]. revert Hb. unfold branch.
  destruct (match ks kp with Some parent => importedBy target parent h | None => Done h end)
    as [h1| |]; [|discriminate..].
  intros [= <- <-].
  match goal with |- context [setupJs pp ?k] => set (kx := k) end.
  destruct (setupJs_frame pp kx) as (-> & -> & _ & _ & -> & -> & ->).
  rewrite setupJs_bld. done.
Qed.

(** In a process whose view is the [syscall/js] directory the child's
    build context is the JS/WASM one. *)
Example branch_js :
  (λ r, match r with
        | Done (kx, _) => bld kx = jsBuild bld0 ∧ tags kx = "netgo osusergo"
        | _ => False
        end)
    (branch {| cfg := cfg_root; mx := ctx_js; bld := bld0; ks := None; mp := None;
               par := None; tags := "netgo osusergo"; kp_hash := "0f" |}
            1 pp_b [newState key_a; newState key_b]).
Proof. by split. Qed.

Lemma branch_clears_root_settings_witness :
  ∃ kx h',
    branch kp_a 1 pp_b [newState key_a; newState key_b] = Done (kx, h') ∧
    PackageSrc (cfg kx) = None ∧ cfg_CheckFuncs (cfg kx) = false ∧
    cfg_CheckImports (cfg kx) = false ∧ cfg_Tests (cfg kx) = false ∧
    kp_hash kx = "" ∧ par kx = Some kp_a ∧ mx kx = ctx0 ∧
    tags kx = "netgo osusergo" ∧ bld kx = bld0.
Proof.
  apply (branch_clears_root_settings kp_a 1 pp_b [newState key_a; newState key_b]).
  simpl. lia.
Defined.

(** *** Entry points and the dependency fan-out *)

Lemma int_sub_one z : (- 2 ^ 63 < z < 2 ^ 63)%Z → int_sub z 1 = (z - 1)%Z.
Proof.
  intros Hz. unfold int_sub, wrap_int.
  rewrite Z.mod_small by lia. lia.
Qed.

Section DriverFacts.

Context {W : Type}.
Variable importResolved :
  Importer → string → string → W → (option Package * option error) * W.
Variable Unquote : string → string * option error.
Variable ErrorText : error → string.
Variable MinNumCPU : nat → nat.
Context {C : Type}.
Variable resolveStart : Importer → string → string → C.
Variable resolveStep : C → W → (C + (option Package * option error)) * W.

Local Abbreviation names := (Kimporter.names Unquote).
Local Abbreviation located := (Kimporter.located ErrorText).
Local Abbreviation promoted := (Kimporter.promoted Unquote ErrorText).
Local Abbreviation failed := (Kimporter.failed importResolved Unquote ErrorText).

(** C9: with a mode other than 0 [ImportFrom] panics before any import is
    attempted, whatever the resolver would do, and the process state is
    untouched; with mode 0 it returns the [types.Package] under the result
    of [ImportPackage], or that call's error. *)
Theorem ImportFrom_mode
    (kp : Importer) (ipath srcDir : string) (mode : Z) (w w' : W)
    (p : Package) (p' : option Package) (e : error) :
  (mode ≠ 0%Z →
   ImportFrom importResolved kp ipath srcDir mode w = (Panic "non-zero import mode", w)) ∧
  (ImportPackage importResolved kp ipath srcDir w = ((Some p, None), w') →
   ImportFrom importResolved kp ipath srcDir 0 w = (Done (Some (Package_types p), None), w')) ∧
  (ImportPackage importResolved kp ipath srcDir w = ((p', Some e), w') →
   ImportFrom importResolved kp ipath srcDir 0 w = (Done (None, Some e), w')).
Proof.
  unfold ImportFrom. repeat split.
  - intros Hm. by rewrite (proj2 (Z.eqb_neq mode 0) Hm).
  - by intros ->.
  - by intros ->.
Qed.

Lemma specMatches_names ipath spec :
  specMatches Unquote ipath spec = true ↔ names ipath spec.
Proof.
  unfold specMatches, names. destruct (Path spec) as [lit|].
  - rewrite String.eqb_eq. split.
    + intros ->. by exists lit.
    + by intros (? & [= <-] & <-).
  - split; [discriminate | by intros (? & ? & _)].
Qed.

Lemma findSpec_Some ipath specs spec :
  findSpec Unquote ipath specs = Some spec → spec ∈ specs ∧ names ipath spec.
Proof.
  induction specs as [|sp specs IH]; simpl; [discriminate|].
  destruct (specMatches Unquote ipath sp) eqn:Em.
  - intros [= <-]. split; [left | by apply specMatches_names].
  - intros [Hin Hn]%IH. split; [by right | done].
Qed.

Lemma findSpec_None ipath specs :
  findSpec Unquote ipath specs = None → ∀ spec, spec ∈ specs → ¬ names ipath spec.
Proof.
  induction specs as [|sp specs IH]; simpl; intros Hf spec Hin.
  - by apply elem_of_nil in Hin.
  - destruct (specMatches Unquote ipath sp) eqn:Em; [discriminate|].
    apply elem_of_cons in Hin as [->|Hin]; [|by apply IH].
    rewrite <- specMatches_names. congruence.
Qed.

Lemma findSpecInFiles_Some ipath astFiles spec :
  findSpecInFiles Unquote ipath astFiles = Some spec →
  ∃ af, af ∈ astFiles ∧ spec ∈ File_Imports af ∧ names ipath spec.
Proof.
  induction astFiles as [|af astFiles IH]; simpl; [discriminate|].
  destruct (findSpec Unquote ipath (File_Imports af)) as [sp|] eqn:Ef.
  - intros [= <-]. apply findSpec_Some in Ef as [Hin Hn]. exists af.
    split; [left | done].
  - intros (af' & Hin & Hrest)%IH. exists af'. split; [by right | done].
Qed.

Lemma findSpecInFiles_None ipath astFiles :
  findSpecInFiles Unquote ipath astFiles = None →
  ∀ af spec, af ∈ astFiles → spec ∈ File_Imports af → ¬ names ipath spec.
Proof.
  induction astFiles as [|af0 astFiles IH]; simpl; intros Hf af spec Hin Hspec.
  - by apply elem_of_nil in Hin.
  - destruct (findSpec Unquote ipath (File_Imports af0)) eqn:Ef; [discriminate|].
    apply elem_of_cons in Hin as [->|Hin]; [by eapply findSpec_None | by eapply IH].
Qed.

Lemma doImport_error kp bp fset astFiles ipath s e s' :
  doImport importResolved Unquote ErrorText kp bp fset astFiles ipath s
    = (Done (Some e), s') →
  failed kp bp fset astFiles ipath e.
Proof.
  unfold doImport. destruct s as [imports w].
  destruct (ImportPackage importResolved kp ipath (bp_Dir bp) w) as [[p [err|]] w1] eqn:Ei;
    [|discriminate].
  intros Hd. exists w, w1, p, err. split; [done|].
  destruct (findSpecInFiles Unquote ipath astFiles) as [spec|] eqn:Ef.
  - destruct (ImportSpec_Pos spec) as [pos| |] eqn:Epos; [|discriminate..].
    injection Hd as <- <-.
    apply findSpecInFiles_Some in Ef as (af & Haf & Hspec & Hn). split.
    + intros _. exists af, spec. repeat split; try done.
      exists pos. eexists. by repeat split.
    + intros Hnone. by destruct (Hnone af spec).
  - injection Hd as <- <-. split; [|done].
    intros (af & spec & Haf & Hspec & Hn).
    by destruct (findSpecInFiles_None _ _ Ef af spec).
Qed.


Lemma importSeq_error kp bp fset astFiles paths s e s' :
  importSeq importResolved Unquote ErrorText kp bp fset astFiles paths s
    = (Done (Some e), s') →
  ∃ ipath, ipath ∈ paths ∧ failed kp bp fset astFiles ipath e.
Proof.
  revert s. induction paths as [|ipath paths IH]; intros s; simpl; [discriminate|].
  destruct (doImport importResolved Unquote ErrorText kp bp fset astFiles ipath s)
    as [[[e0|]| |] s1] eqn:Ed.
  - intros [= <- <-]. exists ipath. split; [left | by eapply doImport_error].
  - intros (ip & Hin & Hf)%IH. exists ip. split; [by right | done].
  - discriminate.
  - discriminate.
Qed.

Local Abbreviation promote := (Kimporter.promote Unquote ErrorText).
Local Abbreviation doImport := (Kimporter.doImport importResolved Unquote ErrorText).
Local Abbreviation importSeq := (Kimporter.importSeq importResolved Unquote ErrorText).
Local Abbreviation imported_all := (Kimporter.imported_all importResolved).
Local Abbreviation gstep := (Kimporter.gstep Unquote ErrorText resolveStart resolveStep).
Local Abbreviation grun := (Kimporter.grun Unquote ErrorText resolveStart resolveStep).
Local Abbreviation importPar := (Kimporter.importPar Unquote ErrorText resolveStart resolveStep).
Local Abbreviation returns_in := (Kimporter.returns_in Unquote ErrorText resolveStart resolveStep).
Local Abbreviation delivered := (Kimporter.delivered Unquote ErrorText resolveStart resolveStep).
Local Abbreviation fan_inv := (Kimporter.fan_inv Unquote ErrorText resolveStart resolveStep).

(** The error part of [doImport] never panics: a specifier that matches has
    a path literal, hence a position. *)
Lemma promote_promoted fset astFiles ipath err :
  ∃ e, promote fset astFiles ipath err = Done e ∧ promoted fset astFiles ipath err e.
Proof.
  unfold Kimporter.promote.
  destruct (findSpecInFiles Unquote ipath astFiles) as [spec|] eqn:Ef.
  - pose proof Ef as (af & Haf & Hspec & Hn)%findSpecInFiles_Some.
    assert (∃ pos, ImportSpec_Pos spec = Done pos) as [pos Hpos].
    { unfold ImportSpec_Pos. destruct Hn as (lit & -> & _).
      destruct (Name spec); by eexists. }
    rewrite Hpos. eexists. split; [done|]. split.
    + intros _. exists af, spec. repeat split; try done.
      exists pos. eexists. by repeat split.
    + intros Hnone. by destruct (Hnone af spec).
  - exists err. split; [done|]. split; [|done].
    intros (af & spec & Haf & Hspec & Hn).
    by destruct (findSpecInFiles_None _ _ Ef af spec).
Qed.

(** *** The sequential branch *)




(** *** The concurrent branch *)

Lemma grun_app kp bp fset astFiles s1 s2 g :
  grun kp bp fset astFiles (s1 ++ s2) g =
  (g' ← grun kp bp fset astFiles s1 g; grun kp bp fset astFiles s2 g').
Proof.
  revert g. induction s1 as [|i s1 IH]; intros g; simpl; [done|].
  destruct (gstep kp bp fset astFiles i g); simpl; [apply IH | done..].
Qed.

(** A goroutine always has a step: nothing in the group panics. *)
Lemma gstep_total kp bp fset astFiles i g :
  ∃ g', gstep kp bp fset astFiles i g = Done g'.
Proof.
  unfold Kimporter.gstep.
  destruct (workers g !! i) as [[|k c|k [p [e|]]|]|]; try by eexists.
  - destruct (imps g); by eexists.
  - destruct (resolveStep c (g_world g)) as [r w']. by eexists.
  - destruct (promote_promoted fset astFiles k e) as (e' & -> & _). by eexists.
Qed.

Lemma grun_total kp bp fset astFiles s : ∀ g,
  ∃ g', grun kp bp fset astFiles s g = Done g'.
Proof.
  induction s as [|i s IH]; intros g; simpl; [by eexists|].
  destruct (gstep_total kp bp fset astFiles i g) as [g1 ->]. apply IH.
Qed.

Lemma returns_in_app kp bp fset astFiles s s' g0 i k r :
  returns_in kp bp fset astFiles s g0 i k r →
  returns_in kp bp fset astFiles (s ++ s') g0 i k r.
Proof.
  intros (s1 & s2 & g & c & w1 & -> & Hrun & Hw & Hs).
  exists s1, (s2 ++ s'), g, c, w1. by rewrite <- app_assoc.
Qed.

Lemma delivered_app kp bp fset astFiles s s' g0 k r :
  delivered kp bp fset astFiles s g0 k r →
  delivered kp bp fset astFiles (s ++ s') g0 k r.
Proof.
  intros [Hfake|[i Hr]]; [by left|]. right. exists i. by apply returns_in_app.
Qed.

Lemma fan_inv_start kp bp fset astFiles n paths w :
  fan_inv kp bp fset astFiles n paths w [] (group0 n paths w).
Proof.
  split; simpl.
  - apply length_replicate.
  - done.
  - by intros i k c [? _]%lookup_replicate_1.
  - by intros i k r [? _]%lookup_replicate_1.
  - intros k p. by rewrite lookup_empty.
  - done.
  - intros k Hk. by left.
  - by intros _ i [? _]%lookup_replicate_1.
Qed.

Lemma fan_inv_step kp bp fset astFiles n paths w s g i g' :
  fan_inv kp bp fset astFiles n paths w s g →
  grun kp bp fset astFiles s (group0 n paths w) = Done g →
  gstep kp bp fset astFiles i g = Done g' →
  fan_inv kp bp fset astFiles n paths w (s ++ [i]) g'.
Proof.
  intros [Hlen Himps Hcall Hret Himp Hfirst Hpaths Hdr] Hrun Hstep.
  assert (Hret' : ∀ j k r, workers g !! j = Some (Returned k r) →
    k ∈ paths ∧ delivered kp bp fset astFiles (s ++ [i]) (group0 n paths w) k r).
  { intros j k r Hj. destruct (Hret j k r Hj). split; [done | by apply delivered_app]. }
  assert (Himp' : ∀ k p, g_imports g !! k = Some p →
    k ∈ paths ∧ delivered kp bp fset astFiles (s ++ [i]) (group0 n paths w) k (p, None)).
  { intros k p Hk. destruct (Himp k p Hk). split; [done | by apply delivered_app]. }
  assert (Hfirst' : ∀ e, first g = Some e →
    ∃ j k p err, k ∈ paths ∧
      returns_in kp bp fset astFiles (s ++ [i]) (group0 n paths w) j k (p, Some err) ∧
      promoted fset astFiles k err e).
  { intros e He. destruct (Hfirst e He) as (j & k & p & err & Hk & Hr & Hp).
    exists j, k, p, err. split; [done|]. split; [by apply returns_in_app | done]. }
  clear Hret Himp Hfirst.
  assert (Hi : ∀ wk, workers g !! i = Some wk → i < length (workers g)).
  { intros wk Hwk. by eapply lookup_lt_Some. }
  unfold Kimporter.gstep in Hstep.
  destruct (workers g !! i) as [[|k c|k [p [e|]]|]|] eqn:Hwi.
  - destruct (imps g) as [|ip rest] eqn:Hq; injection Hstep as <-.
    + split; simpl.
      * by rewrite length_insert.
      * by intros k ?%elem_of_nil.
      * intros j k c [(_ & [=] & _)|(_ & Hj)]%list_lookup_insert_Some. eauto.
      * intros j k r [(_ & [=] & _)|(_ & Hj)]%list_lookup_insert_Some. eauto.
      * done.
      * done.
      * intros k Hk.
        destruct (Hpaths k Hk) as [Hin|[(j & wk & Hj & Hh)|[?|?]]]; [| |auto..].
        -- by apply elem_of_nil in Hin.
        -- right; left. exists j, wk. split; [|done].
           rewrite list_lookup_insert_ne; [done|]. intros <-.
           rewrite Hwi in Hj. by injection Hj as <-.
      * done.
    + split; simpl.
      * by rewrite length_insert.
      * intros k Hk. apply Himps. by right.
      * intros j k c [(-> & Hwk & _)|(_ & Hj)]%list_lookup_insert_Some; [|eauto].
        destruct (importFakePkg ip); [discriminate|]. injection Hwk as <- _.
        apply Himps. left.
      * intros j k r [(-> & Hwk & _)|(_ & Hj)]%list_lookup_insert_Some; [|eauto].
        destruct (importFakePkg ip) as [pk|] eqn:Ef; [|discriminate].
        injection Hwk as <- <-. split; [apply Himps; left|].
        left. by exists pk.
      * done.
      * done.
      * intros k Hk.
        destruct (Hpaths k Hk) as [Hin|[(j & wk & Hj & Hh)|[?|?]]]; [| |auto..].
        -- apply elem_of_cons in Hin as [->|Hin]; [|by left].
           right; left. eexists i, _. split; [apply list_lookup_insert_eq; eauto|].
           by destruct (importFakePkg ip).
        -- right; left. exists j, wk. split; [|done].
           rewrite list_lookup_insert_ne; [done|]. intros <-.
           rewrite Hwi in Hj. by injection Hj as <-.
      * intros Hf j [(-> & Hwk & _)|(_ & Hj)]%list_lookup_insert_Some.
        -- by destruct (importFakePkg ip).
        -- by specialize (Hdr Hf j Hj).
  - destruct (resolveStep c (g_world g)) as [r w'] eqn:Hs. injection Hstep as <-.
    split; simpl.
    + by rewrite length_insert.
    + done.
    + intros j k' c' [(-> & Hwk & _)|(_ & Hj)]%list_lookup_insert_Some; [|eauto].
      destruct r; [injection Hwk as <- _ | discriminate]. eauto.
    + intros j k' r' [(-> & Hwk & _)|(_ & Hj)]%list_lookup_insert_Some; [|eauto].
      destruct r as [c'|r]; [discriminate|]. injection Hwk as <- <-.
      split; [eauto|]. right. exists j, s, [], g, c, w'. done.
    + done.
    + done.
    + intros k' Hk.
      destruct (Hpaths k' Hk) as [?|[(j & wk & Hj & Hh)|[?|?]]]; [auto| |auto..].
      right; left. destruct (decide (j = i)) as [->|Hne].
      * rewrite Hwi in Hj. injection Hj as <-. simpl in Hh. subst k'.
        eexists i, _. split; [apply list_lookup_insert_eq; eauto|]. by destruct r.
      * exists j, wk. split; [|done]. by rewrite list_lookup_insert_ne.
    + intros Hf j [(-> & Hwk & _)|(_ & Hj)]%list_lookup_insert_Some;
        [by destruct r | by eapply Hdr].
  - destruct (promote_promoted fset astFiles k e) as (e' & He' & Hp).
    rewrite He' in Hstep. simpl in Hstep. injection Hstep as <-.
    split; simpl.
    + by rewrite length_insert.
    + done.
    + intros j k' c' [(_ & [=] & _)|(_ & Hj)]%list_lookup_insert_Some. eauto.
    + intros j k' r' [(_ & [=] & _)|(_ & Hj)]%list_lookup_insert_Some. eauto.
    + done.
    + intros e0 He0. destruct (first g) as [e1|] eqn:Hf1.
      * injection He0 as <-. by apply Hfirst'.
      * injection He0 as <-.
        destruct (Hret' i k (p, Some e) Hwi) as [Hk [(pk & _ & [=])|[j Hr]]].
        by exists j, k, p, e.
    + intros k' Hk. right; right; right. by destruct (first g).
    + intros Hf. by destruct (first g).
  - injection Hstep as <-. split; simpl.
    + by rewrite length_insert.
    + done.
    + intros j k' c' [(_ & [=] & _)|(_ & Hj)]%list_lookup_insert_Some. eauto.
    + intros j k' r' [(_ & [=] & _)|(_ & Hj)]%list_lookup_insert_Some. eauto.
    + intros k' p' [[-> ->]|[_ Hk]]%lookup_insert_Some; [|eauto]. by eapply Hret'.
    + done.
    + intros k' Hk.
      destruct (Hpaths k' Hk) as [?|[(j & wk & Hj & Hh)|[Hs|?]]]; [auto| | |auto].
      * destruct (decide (j = i)) as [->|Hne].
        -- rewrite Hwi in Hj. injection Hj as <-. simpl in Hh. subst k'.
           right; right; left. rewrite lookup_insert_eq. by eexists.
        -- right; left. exists j, wk. split; [|done]. by rewrite list_lookup_insert_ne.
      * right; right; left. apply lookup_insert_is_Some'. by right.
    + intros Hf j [(_ & [=] & _)|(_ & Hj)]%list_lookup_insert_Some. by eapply Hdr.
  - injection Hstep as <-. by split.
  - injection Hstep as <-. by split.
Qed.

Lemma fan_inv_run kp bp fset astFiles n paths w s : ∀ g,
  grun kp bp fset astFiles s (group0 n paths w) = Done g →
  fan_inv kp bp fset astFiles n paths w s g.
Proof.
  induction s as [|i s IH] using rev_ind; intros g.
  - intros [= <-]. apply fan_inv_start.
  - rewrite grun_app.
    destruct (grun kp bp fset astFiles s (group0 n paths w)) as [g1| |] eqn:Hrun;
      try discriminate.
    simpl. destruct (gstep kp bp fset astFiles i g1) as [g2| |] eqn:Hstep;
      try discriminate.
    simpl. intros [= <-]. eapply fan_inv_step; eauto.
Qed.




Lemma exited_lookup (l : list (@worker C)) j wk :
  forallb exited l = true → l !! j = Some wk → wk = Exited.
Proof.
  intros Hall Hj. apply list_elem_of_lookup_2, list_elem_of_In in Hj.
  pose proof (proj1 (forallb_forall _ _) Hall wk Hj) as He. by destruct wk.
Qed.



(** When [errg.Wait] returns no error and there was a goroutine, every path
    of the channel has its package in the map, and the map holds nothing
    else. *)
Lemma importPar_success kp bp fset astFiles n sched paths w imports w' :
  0 < n →
  importPar kp bp fset astFiles n sched paths w = (Done None, (imports, w')) →
  (∀ k, is_Some (imports !! k) ↔ k ∈ paths) ∧
  (∀ k p, imports !! k = Some p →
     delivered kp bp fset astFiles sched (group0 n paths w) k (p, None)).
Proof.
  intros Hn. unfold Kimporter.importPar.
  destruct (grun kp bp fset astFiles sched (group0 n paths w)) as [g| |] eqn:Hrun;
    try discriminate.
  destruct (forallb exited (workers g)) eqn:Hall; [|discriminate].
  intros [= Hf <- <-].
  destruct (fan_inv_run _ _ _ _ _ _ _ _ _ Hrun)
    as [Hlen Himps Hcall Hret Himp Hfirst Hpaths Hdr].
  assert (Hq : imps g = []).
  { destruct (lookup_lt_is_Some_2 (workers g) 0) as [wk Hwk]; [lia|].
    apply (Hdr Hf 0). by rewrite Hwk, (exited_lookup _ _ _ Hall Hwk). }
  split.
  - intros k. split.
    + intros [p Hp]. by destruct (Himp k p Hp).
    + intros Hk. destruct (Hpaths k Hk) as [Hin|[(j & wk & Hj & Hh)|[?|?]]]; [| |done..].
      * rewrite Hq in Hin. by apply elem_of_nil in Hin.
      * by rewrite (exited_lookup _ _ _ Hall Hj) in Hh.
  - intros k p Hp. by destruct (Himp k p Hp).
Qed.


End DriverFacts.

(** With no parsed file at hand the dependency's error comes back as it
    is. *)
Example importDeps_raw_error :
  fst (importDeps sample_resolve sample_Unquote sample_ErrorText id
         sample_start sample_step
         kp_root (newState key_a) bp_a_noimport fset_a [] [] 0)
  = Done (Some (ErrorString "cannot find package b")).
Proof. reflexivity. Qed.

(** Two goroutines: the second receives ["b"] after the first has received
    ["fmt"], and its call fails before that of the first returns. *)
Example importDeps_concurrent :
  importDeps sample_resolve sample_Unquote sample_ErrorText id
    sample_start sample_step
    kp_par (newState key_a) bp_a fset_a [file_a] [0; 1; 1; 1; 1; 0; 0; 0; 0] 0
  = (Done (Some (IssueError {| Issue_Path := "/gopath/src/a/a.go"; Row := 3; Col := 7;
                               Message := "cannot find package b" |})),
     ({[ "fmt" := Some pkg_done ]}, 2)).
Proof. vm_compute. reflexivity. Qed.

(** An interleaving that ends before the goroutines have returned. *)
Example importDeps_unfinished :
  fst (importDeps sample_resolve sample_Unquote sample_ErrorText id
         sample_start sample_step
         kp_par (newState key_a) bp_a fset_a [file_a] [0; 1; 1; 1; 1] 0)
  = OutOfFuel.
Proof. vm_compute. reflexivity. Qed.

Lemma ImportFrom_mode_witness :
  ImportFrom sample_resolve kp_root "fmt" "/gopath/src/a" 1 0
    = (Panic "non-zero import mode", 0) ∧
  ImportFrom sample_resolve kp_root "fmt" "/gopath/src/a" 0 0
    = (Done (Some (Package_types pkg_done), None), 1) ∧
  ImportFrom sample_resolve kp_root "b" "/gopath/src/a" 0 0
    = (Done (None, Some (ErrorString "cannot find package b")), 1).
Proof.
  split; [|split].
  - apply (ImportFrom_mode sample_resolve kp_root "fmt" "/gopath/src/a" 1 0 0
             pkg_done None (ErrorString "")). lia.
  - apply (ImportFrom_mode sample_resolve kp_root "fmt" "/gopath/src/a" 0 0 1
             pkg_done None (ErrorString "")). reflexivity.
  - apply (ImportFrom_mode sample_resolve kp_root "b" "/gopath/src/a" 0 0 1
             pkg_done None (ErrorString "cannot find package b")). reflexivity.
Defined.



(** *** The overlay hash *)

Lemma string_le_empty s : string_le "" s.
Proof. unfold string_le. by destruct s. Qed.

#[local] Instance string_le_total : Total string_le.
Proof. intros a b. apply String.leb_total. Qed.

#[local] Instance string_le_antisymm : AntiSymm (=) string_le.
Proof. intros a b. apply String.leb_antisym. Qed.

#[local] Instance string_le_trans : Transitive string_le.
Proof.
  intros a b c. unfold string_le, String.leb.
  destruct (String.compare a b) eqn:Eab; intros Hab; [| |discriminate].
  - by apply String.compare_eq_iff in Eab as ->.
  - destruct (String.compare b c) eqn:Ebc; intros Hbc; [| |discriminate].
    + apply String.compare_eq_iff in Ebc as <-. by rewrite Eab.
    + apply OrderedTypeEx.String_as_OT.cmp_lt in Eab, Ebc.
      pose proof (OrderedTypeEx.String_as_OT.lt_trans _ _ _ Eab Ebc) as Hac.
      apply OrderedTypeEx.String_as_OT.cmp_lt in Hac.
      unfold OrderedTypeEx.String_as_OT.cmp in Hac. by rewrite Hac.
Qed.

(** Sorting depends on the strings only, not on the order they come in. *)
Lemma Sort_Permutation l1 l2 : l1 ≡ₚ l2 → Sort l1 = Sort l2.
Proof.
  intros Hp. unfold Sort. apply (Sorted_unique string_le).
  - apply Sorted_merge_sort, _.
  - apply Sorted_merge_sort, _.
  - by rewrite !merge_sort_Permutation.
Qed.

Lemma Sorted_replicate_empty n l :
  Sorted string_le l → Sorted string_le (replicate n "" ++ l).
Proof.
  intros Hl. induction n as [|n IH]; simpl; [done|].
  apply Sorted_cons; [done|].
  destruct (replicate n "" ++ l); constructor. apply string_le_empty.
Qed.

(** The empty strings that [make] put into the slice sort to its front. *)
Lemma Sort_collected order (m : gmap string (list byte)) :
  Sort (collected order m) = replicate (size m) "" ++ Sort order.
Proof.
  unfold collected, Sort. apply (Sorted_unique string_le).
  - apply Sorted_merge_sort, _.
  - apply Sorted_replicate_empty, Sorted_merge_sort, _.
  - by rewrite !merge_sort_Permutation.
Qed.

Lemma fold_feed (m : gmap string (list byte)) fns b2 :
  fold_left (feed m) fns b2 =
  b2 ++ concat (map (fun fn => list_byte_of_string fn ++ default [] (m !! fn)) fns).
Proof.
  revert b2. induction fns as [|fn fns IH]; intros b2; simpl.
  - by rewrite app_nil_r.
  - rewrite IH. unfold feed. by rewrite <- !app_assoc.
Qed.

Lemma fold_feed_empty (m : gmap string (list byte)) n b2 :
  fold_left (feed m) (replicate n "") b2 =
  b2 ++ concat (replicate n (default [] (m !! ""))).
Proof.
  rewrite fold_feed. f_equal. induction n as [|n IH]; simpl; [done|].
  by rewrite IH.
Qed.

(** The bytes that the code hashes: first the content stored under the
    empty name, once for each entry of the map, then what the
    specification describes. *)
Lemma written_closed order (m : gmap string (list byte)) :
  visits_overlay order m →
  written order m =
  concat (replicate (size m) (default [] (m !! ""))) ++ spec_written m.
Proof.
  intros Hv. unfold written, spec_written.
  rewrite Sort_collected, fold_left_app, fold_feed_empty, fold_feed. simpl.
  by rewrite (Sort_Permutation _ _ Hv).
Qed.

(** The hash does not depend on the order in which the map is visited. *)
Lemma srcMapHash_order_independent Sum256 order1 order2 m :
  visits_overlay order1 (default ∅ m) → visits_overlay order2 (default ∅ m) →
  srcMapHash_in Sum256 order1 m = srcMapHash_in Sum256 order2 m.
Proof.
  intros H1 H2. unfold srcMapHash_in.
  destruct (Nat.eqb _ 0); [done|]. by rewrite !written_closed.
Qed.

(** The nil and the empty overlay hash to the empty string. *)
Lemma srcMapHash_empty Sum256 order :
  srcMapHash_in Sum256 order None = "" ∧ srcMapHash_in Sum256 order (Some ∅) = "".
Proof. done. Qed.

(** Without a file of the empty name, or with an empty one, the hash is the
    one the specification describes. *)
Lemma srcMapHash_named Sum256 order (m : gmap string (list byte)) :
  visits_overlay order m → default [] (m !! "") = [] →
  srcMapHash_in Sum256 order (Some m) = spec_srcMapHash Sum256 (Some m).
Proof.
  intros Hv Hnil. unfold srcMapHash_in, spec_srcMapHash. simpl.
  destruct (Nat.eqb _ 0); [done|]. rewrite written_closed, Hnil by done.
  do 2 f_equal. induction (size m) as [|n IH]; [done|]. simpl. by rewrite IH.
Qed.

Lemma EncodeToString_length src :
  String.length (EncodeToString src) = 2 * length src.
Proof. induction src as [|v src IH]; simpl; [done|]. rewrite IH. lia. Qed.

(** Two named files: the names in order, each followed by its content. *)
Example written_two_files :
  written (map fst (map_to_list overlay_ab)) overlay_ab =
  (list_byte_of_string "a.go" ++ [x61]) ++ (list_byte_of_string "b.go" ++ [x62]).
Proof. vm_compute. reflexivity. Qed.

Example EncodeToString_bytes : EncodeToString [x00; x0f; xa5; xff] = "000fa5ff".
Proof. reflexivity. Qed.

(** C3, evaluated where it fails: for the overlay whose one file has the
    empty name and the content ["a"], the code hashes the two bytes ["aa"],
    the content once more for the empty string that [make] left in the
    slice, where the specification hashes the one byte ["a"]. *)
Theorem srcMapHash_feeds_content_twice (Sum256 : list byte → list byte) :
  srcMapHash Sum256 (Some overlay_noname) = EncodeToString (Sum256 [x61; x61]) ∧
  spec_srcMapHash Sum256 (Some overlay_noname) = EncodeToString (Sum256 [x61]).
Proof. split; reflexivity. Qed.

End KimporterFacts.

(** * Further properties of the completed-package cache *)

Module MgcCacheMore.
Import MgcCache MgcCacheIter MgcCacheFacts.
Local Open Scope list_scope.

(** [put] of a complete package returns; afterwards [get] finds the entry
    under its key, whatever was stored there before, and every other key
    reads as before. *)
Theorem put_then_get (e : mgcCacheEnt) (p : GoTypes.Package) (m : cache)
    (k : mgcCacheKey) :
  Pkg e = Some p → GoTypes.complete p = true →
  ∃ m', put e m = Done m' ∧ get (Key e) m' = Some e ∧
        (k ≠ Key e → get k m' = get k m).
Proof.
  intros Hp Hc. exists (<[Key e := e]> m). unfold put, get. rewrite Hp. simpl.
  rewrite Hc. simpl. split; [done|]. split; [apply lookup_insert_eq|].
  intros Hne. by apply lookup_insert_ne.
Qed.

Lemma put_then_get_witness :
  ∃ m', put ent_x' cache_x = Done m' ∧ get "/tmp/x" m' = Some ent_x' ∧
        ("/home/z" ≠ "/tmp/x" → get "/home/z" m' = get "/home/z" cache_x).
Proof.
  apply (put_then_get ent_x' pkg_x cache_x "/home/z"); reflexivity.
Defined.

(** After [del] the key is absent and every other key reads as before; on
    an absent key [del] changes nothing. *)
Theorem del_then_get (k k' : mgcCacheKey) (m : cache) :
  get k (del k m) = None ∧
  (k' ≠ k → get k' (del k m) = get k' m) ∧
  (get k m = None → del k m = m).
Proof.
  unfold del, get. destruct (m !! k) eqn:Hk.
  - split; [apply lookup_delete_eq|]. split; [|done].
    intros Hne. by apply lookup_delete_ne.
  - split; [done|]. by split.
Qed.

Lemma del_then_get_witness :
  get "/tmp/x" (del "/tmp/x" cache_xyz) = None ∧
  get "/tmp/y" (del "/tmp/x" cache_xyz) = get "/tmp/y" cache_xyz ∧
  del "/nowhere" cache_xyz = cache_xyz.
Proof.
  destruct (del_then_get "/tmp/x" "/tmp/y" cache_xyz) as (Hgone & Hother & _).
  destruct (del_then_get "/nowhere" "/tmp/y" cache_xyz) as (_ & _ & Habsent).
  split; [exact Hgone|]. split; [by apply Hother | by apply Habsent].
Defined.

Lemma put_keyed e (m m' : cache) : put e m = Done m' → keyed m → keyed m'.
Proof.
  unfold put. destruct (Pkg e) as [p|]; simpl; [|discriminate].
  destruct (GoTypes.complete p); simpl; intros [= <-] Hk; [|done].
  intros k e' [[<- <-]|[_ He']]%lookup_insert_Some; [done | by apply Hk].
Qed.

Lemma step_keyed o (m m' : cache) : step o m = Done m' → keyed m → keyed m'.
Proof.
  destruct o as [k|e|k|order pats]; simpl.
  - by intros [= <-].
  - apply put_keyed.
  - intros [= <-] Hk. unfold del. destruct (m !! k); [by apply keyed_delete | done].
  - intros [= <-] Hk k e He. apply prune_range_sub in He. by apply Hk.
Qed.

Lemma run_keyed ops (m : cache) : keyed m → keyed (run ops m).
Proof.
  revert m. induction ops as [|o ops IH]; intros m Hk; simpl; [done|].
  destruct (step o m) as [m'| |] eqn:Es; [|done..].
  eapply IH, step_keyed; eauto.
Qed.

Lemma reached_keyed ops : keyed (run ops ∅).
Proof. apply run_keyed. intros k' e' He'. by rewrite lookup_empty in He'. Qed.

(** In a cache reached from the empty one by [get], [put], [del] and
    [prune], every entry is stored under its own [Key]. *)
Theorem cache_entries_keyed (ops : list op) (k : mgcCacheKey) (e : mgcCacheEnt) :
  run ops ∅ !! k = Some e → Key e = k.
Proof. apply reached_keyed. Qed.

Lemma cache_entries_keyed_witness : Key ent_x' = "/tmp/x".
Proof.
  apply (cache_entries_keyed [OpPut ent_x; OpPut ent_partial; OpPut ent_x'] "/tmp/x" ent_x').
  vm_compute. reflexivity.
Defined.

(** On a reached cache, whatever the order of the visit: the entries whose
    key matches a pattern are gone after [prune], every other entry is as
    it was, and the members of the returned list are the evicted
    entries. *)
Theorem prune_evicts_exactly (ops : list op) (order : list mgcCacheKey)
    (pats : list Regexp) (k : mgcCacheKey) (e : mgcCacheEnt) :
  visits order (run ops ∅) →
  (prune_in order pats (run ops ∅)).2 !! k
    = (if matches pats k then None else run ops ∅ !! k) ∧
  (e ∈ (prune_in order pats (run ops ∅)).1 ↔
   ∃ k', run ops ∅ !! k' = Some e ∧ matches pats k' = true).
Proof.
  intros Hv. pose proof (reached_keyed ops) as Hk.
  split; [by apply prune_evicts_matching | by apply prune_returns_evicted].
Qed.

Lemma prune_evicts_exactly_witness :
  (prune [pat_tmp] (run [OpPut (ent_at "/tmp/x"); OpPut (ent_at "/home/z")] ∅)).2
    !! "/home/z" = Some (ent_at "/home/z") ∧
  (ent_at "/tmp/x" ∈
     (prune [pat_tmp] (run [OpPut (ent_at "/tmp/x"); OpPut (ent_at "/home/z")] ∅)).1 ↔
   ∃ k', run [OpPut (ent_at "/tmp/x"); OpPut (ent_at "/home/z")] ∅ !! k'
           = Some (ent_at "/tmp/x") ∧ matches [pat_tmp] k' = true).
Proof.
  apply (prune_evicts_exactly
           [OpPut (ent_at "/tmp/x"); OpPut (ent_at "/home/z")]
           (map fst (map_to_list (run [OpPut (ent_at "/tmp/x"); OpPut (ent_at "/home/z")] ∅)))
           [pat_tmp] "/home/z" (ent_at "/tmp/x")).
  apply visits_map_to_list.
Defined.

Lemma prune_range_nomatch order pats ents (m : cache) :
  (∀ k e, m !! k = Some e → matches pats (Key e) = false) →
  prune_range order pats ents m = (ents, m).
Proof.
  intros Hno. revert ents. induction order as [|k order IH]; intros ents; simpl; [done|].
  destruct (m !! k) as [e|] eqn:He; [|apply IH].
  rewrite prune_pats_closed. pose proof (Hno k e He) as Hm. rewrite Hm.
  assert (hits pats (Key e) = 0) as ->.
  { destruct (hits pats (Key e)) eqn:Eh; [done|].
    assert (matches pats (Key e) = true) by (apply hits_matches; lia). congruence. }
  simpl. rewrite app_nil_r. apply IH.
Qed.

(** [prune] without a pattern evicts nothing, and a second [prune] with the
    patterns of the first finds nothing left to evict. *)
Theorem prune_nothing_left (ops : list op) (order order' : list mgcCacheKey)
    (pats : list Regexp) (m : cache) :
  prune_in order [] m = ([], m) ∧
  (visits order (run ops ∅) →
   prune_in order' pats (prune_in order pats (run ops ∅)).2
     = ([], (prune_in order pats (run ops ∅)).2)).
Proof.
  split; [by apply prune_range_nomatch|].
  intros Hv. pose proof (reached_keyed ops) as Hk.
  apply prune_range_nomatch. intros k e He.
  pose proof He as Hsub%prune_range_sub. rewrite (Hk _ _ Hsub).
  rewrite (prune_evicts_matching order pats _ k Hk Hv) in He.
  by destruct (matches pats k).
Qed.

Lemma prune_nothing_left_witness :
  prune_in ["/tmp/x"] [] cache_xyz = ([], cache_xyz) ∧
  prune_in ["/tmp/x"; "/home/z"] [pat_tmp; pat_root]
    (prune_in (map fst (map_to_list (run [OpPut (ent_at "/tmp/x"); OpPut (ent_at "/home/z")] ∅)))
       [pat_tmp; pat_root] (run [OpPut (ent_at "/tmp/x"); OpPut (ent_at "/home/z")] ∅)).2
  = ([], (prune_in (map fst (map_to_list (run [OpPut (ent_at "/tmp/x"); OpPut (ent_at "/home/z")] ∅)))
            [pat_tmp; pat_root] (run [OpPut (ent_at "/tmp/x"); OpPut (ent_at "/home/z")] ∅)).2).
Proof.
  split.
  - exact (proj1 (prune_nothing_left [] ["/tmp/x"] [] [] cache_xyz)).
  - apply (proj2 (prune_nothing_left [OpPut (ent_at "/tmp/x"); OpPut (ent_at "/home/z")]
             (map fst (map_to_list (run [OpPut (ent_at "/tmp/x"); OpPut (ent_at "/home/z")] ∅)))
             ["/tmp/x"; "/home/z"] [pat_tmp; pat_root] ∅)).
    apply visits_map_to_list.
Defined.

Lemma flat_hits_key pats (m : cache) order x :
  keyed m →
  x ∈ flat_map (fun k => match m !! k with
                         | Some e => replicate (hits pats k) e
                         | None => []
                         end) order →
  Key x ∈ order.
Proof.
  intros Hk. induction order as [|k order IH]; simpl; [by intros ?%elem_of_nil|].
  intros [Hin|Hin]%elem_of_app; [|right; by apply IH].
  destruct (m !! k) as [e|] eqn:He; [|by apply elem_of_nil in Hin].
  apply elem_of_replicate in Hin as [-> _]. rewrite (Hk _ _ He). left.
Qed.

(** When no key of the cache matches two of the patterns, as with a single
    pattern, no entry occurs twice in the list that [prune] returns. *)
Theorem prune_returns_once (ops : list op) (order : list mgcCacheKey)
    (pats : list Regexp) :
  visits order (run ops ∅) →
  (∀ k, is_Some (run ops ∅ !! k) → (hits pats k ≤ 1)%nat) →
  NoDup (prune_in order pats (run ops ∅)).1.
Proof.
  intros [Hnd Hcov] Hone. pose proof (reached_keyed ops) as Hk.
  unfold prune_in. rewrite prune_range_list by done. simpl.
  clear Hcov. induction order as [|k order IH]; simpl; [apply NoDup_nil_2|].
  apply NoDup_cons in Hnd as [Hnotin Hnd]. apply NoDup_app. split; [|split].
  - destruct (run ops ∅ !! k) as [e|] eqn:He; [|apply NoDup_nil_2].
    specialize (Hone k ltac:(by eexists)).
    destruct (hits pats k) as [|[|n]]; [apply NoDup_nil_2|apply NoDup_singleton|lia].
  - intros x Hx Hx'%(flat_hits_key _ _ _ _ Hk).
    destruct (run ops ∅ !! k) as [e|] eqn:He; [|by apply elem_of_nil in Hx].
    apply elem_of_replicate in Hx as [-> _]. by rewrite (Hk _ _ He) in Hx'.
  - by apply IH.
Qed.

Lemma prune_returns_once_witness :
  NoDup (prune_in
           (map fst (map_to_list (run [OpPut (ent_at "/tmp/x"); OpPut (ent_at "/tmp/y")] ∅)))
           [pat_tmp] (run [OpPut (ent_at "/tmp/x"); OpPut (ent_at "/tmp/y")] ∅)).1.
Proof.
  apply (prune_returns_once [OpPut (ent_at "/tmp/x"); OpPut (ent_at "/tmp/y")]
           (map fst (map_to_list (run [OpPut (ent_at "/tmp/x"); OpPut (ent_at "/tmp/y")] ∅)))
           [pat_tmp]).
  - apply visits_map_to_list.
  - intros k _. simpl. destruct (String.prefix "/tmp/" k); lia.
Defined.

Lemma visits_Permutation order (m : cache) :
  visits order m → order ≡ₚ map fst (map_to_list m).
Proof.
  intros [Hnd Hcov]. apply NoDup_Permutation; [done|apply NoDup_fst_map_to_list|].
  intros k. rewrite Hcov. symmetry. apply (visits_map_to_list m).
Qed.

Lemma entries_in_all order (m : cache) :
  (∀ k, k ∈ order → is_Some (m !! k)) →
  length (entries_in order m) = length order.
Proof.
  unfold entries_in. induction order as [|k order IH]; intros Hall; simpl; [done|].
  destruct (Hall k) as [e ->]; [left|]. simpl. f_equal. apply IH.
  intros k' Hk'. apply Hall. by right.
Qed.

(** [entries] returns every entry of the map, as many as the map holds,
    and [forEach] calls its argument on these entries in the same order,
    for every order of the visit. *)
Theorem entries_snapshot {S : Type} (order : list mgcCacheKey) (m : cache)
    (e : mgcCacheEnt) (f : mgcCacheEnt → S → S) (s : S) :
  visits order m →
  length (entries_in order m) = size m ∧
  (e ∈ entries_in order m ↔ ∃ k, m !! k = Some e) ∧
  forEach_in order f m s = fold_left (fun s e => f e s) (entries_in order m) s.
Proof.
  intros Hv. split; [|split].
  - rewrite entries_in_all by (intros k; apply Hv).
    rewrite (visits_Permutation _ _ Hv), length_map.
    apply length_map_to_list.
  - unfold entries_in. rewrite list_elem_of_omap. split.
    + intros (k & _ & He). by exists k.
    + intros (k & He). exists k. split; [|done]. apply Hv. by eexists.
  - clear Hv. unfold forEach_in, entries_in. revert s.
    induction order as [|k order IH]; intros s; simpl; [done|].
    destruct (m !! k); simpl; apply IH.
Qed.

Lemma entries_snapshot_witness :
  length (entries_in (map fst (map_to_list cache_xyz)) cache_xyz) = size cache_xyz ∧
  (ent_at "/tmp/y" ∈ entries_in (map fst (map_to_list cache_xyz)) cache_xyz ↔
   ∃ k, cache_xyz !! k = Some (ent_at "/tmp/y")) ∧
  forEach_in (map fst (map_to_list cache_xyz)) (fun e n => (n + Dur e)%Z) cache_xyz 0%Z
  = fold_left (fun n e => (n + Dur e)%Z)
      (entries_in (map fst (map_to_list cache_xyz)) cache_xyz) 0%Z.
Proof.
  apply (entries_snapshot (map fst (map_to_list cache_xyz)) cache_xyz (ent_at "/tmp/y")
           (fun e n => (n + Dur e)%Z) 0%Z).
  apply visits_map_to_list.
Defined.

End MgcCacheMore.

(** * Further properties of the importer *)

Module KimporterMore.
Import Kimporter KimporterDriver KimporterFacts.
Local Open Scope list_scope.

(** *** The type-info mask *)

Lemma has_testbit ti i : has ti (2 ^ i)%N = N.testbit ti i.
Proof.
  unfold has. destruct (N.testbit ti i) eqn:Eb.
  - apply negb_true_iff, N.eqb_neq. intros H0.
    assert (N.testbit (N.land ti (2 ^ i)) i = true) as Ht.
    { by rewrite N.land_spec, Eb, N.pow2_bits_true. }
    by rewrite H0, N.bits_0 in Ht.
  - apply negb_false_iff, N.eqb_eq, N.bits_inj. intros j.
    rewrite N.land_spec, N.bits_0, N.pow2_bits_eqb.
    destruct (N.eqb_spec i j) as [<-|]; [by rewrite Eb | apply andb_false_r].
Qed.

(** [New] allocates the map of a field exactly when the bit of the field's
    constant is set in the mask; the bits beyond the seven constants change
    nothing, and [TypesInfoAll] is these seven bits. *)
Theorem TypesInfo_New_bits (ti : TypesInfo) :
  TypesInfo_New ti =
    {| Info_Types := N.testbit ti 0; Info_Defs := N.testbit ti 1;
       Info_Uses := N.testbit ti 2; Info_Implicits := N.testbit ti 3;
       Info_Selections := N.testbit ti 4; Info_Scopes := N.testbit ti 5;
       Info_InitOrder := N.testbit ti 6 |} ∧
  TypesInfo_New (N.land ti TypesInfoAll) = TypesInfo_New ti ∧
  TypesInfoAll = N.ones 7.
Proof.
  assert (Hnew : ∀ t, TypesInfo_New t =
    {| Info_Types := N.testbit t 0; Info_Defs := N.testbit t 1;
       Info_Uses := N.testbit t 2; Info_Implicits := N.testbit t 3;
       Info_Selections := N.testbit t 4; Info_Scopes := N.testbit t 5;
       Info_InitOrder := N.testbit t 6 |}).
  { intros t. unfold TypesInfo_New.
    by rewrite <- (has_testbit t 0), <- (has_testbit t 1), <- (has_testbit t 2),
      <- (has_testbit t 3), <- (has_testbit t 4), <- (has_testbit t 5),
      <- (has_testbit t 6). }
  split; [apply Hnew|]. split; [|done].
  rewrite !Hnew. change TypesInfoAll with (N.ones 7).
  rewrite !N.land_spec, !N.ones_spec_low by lia. by rewrite !andb_true_r.
Qed.

(** *** Build tags *)

Lemma tagsStr_Join_Sort l : tagsStr l = Join (Sort l) " ".
Proof. by destruct l as [|x [|y l]]. Qed.

(** [tagsStr] is the sorted tags joined by spaces, also for no tag and for
    one; tags given in another order give the same string. *)
Theorem tagsStr_canonical (l1 l2 : list string) :
  tagsStr l1 = Join (Sort l1) " " ∧
  (l1 ≡ₚ l2 → tagsStr l1 = tagsStr l2).
Proof.
  split; [apply tagsStr_Join_Sort|].
  intros Hp. by rewrite !tagsStr_Join_Sort, (Sort_Permutation _ _ Hp).
Qed.

Lemma tagsStr_canonical_witness :
  tagsStr ["osusergo"; "netgo"; "cgo"] = Join (Sort ["osusergo"; "netgo"; "cgo"]) " " ∧
  tagsStr ["osusergo"; "netgo"; "cgo"] = tagsStr ["netgo"; "osusergo"; "cgo"].
Proof.
  destruct (tagsStr_canonical ["osusergo"; "netgo"; "cgo"] ["netgo"; "osusergo"; "cgo"])
    as [Hsorted Hperm].
  split; [exact Hsorted | apply Hperm, perm_swap].
Defined.

Example tagsStr_sorted : tagsStr ["osusergo"; "netgo"; "cgo"] = "cgo netgo osusergo".
Proof. reflexivity. Qed.

(** *** Cycle detection *)

Lemma Importer_chain_ind (P : Importer → Prop) :
  (∀ p, (∀ q, par p = Some q → P q) → P p) → ∀ p, P p.
Proof.
  intros H. fix IH 1. intros p. apply H. destruct p as [c m b k mo [q|] t hs]; simpl.
  - intros q' [= <-]. apply IH.
  - intros q' [=].
Qed.

Lemma cycleChain_closed_form pp (h : heap) : ∀ p l pre k post,
  chainClosed p h →
  frameKeys p h = pre ++ k :: post →
  Forall (fun k => targets k pp = false) pre → targets k pp = true →
  cycleChain p pp h l = Done (l ++ map keyName (pre ++ [k])).
Proof.
  intros p. induction p as [p IH] using Importer_chain_ind.
  intros l pre k post Hcl Hfk Hpre Hk.
  destruct p as [c m b ko mo po t hs]. simpl in *. destruct Hcl as [Hks Hpar].
  destruct ko as [a|].
  - destruct (lookup_lt_is_Some_2 h a Hks) as [st Hst]. rewrite Hst in *.
    destruct pre as [|k0 pre]; simpl in Hfk; injection Hfk as Hk0 Hrest.
    + subst k. rewrite Hk. by simpl.
    + subst k0. apply Forall_cons in Hpre as [Hno Hpre]. rewrite Hno.
      destruct po as [q|]; [|by destruct pre].
      rewrite (IH q eq_refl _ pre k post Hpar Hrest Hpre Hk).
      simpl. by rewrite <- app_assoc.
  - destruct po as [q|]; [|by destruct pre].
    by apply (IH q eq_refl l pre k post).
Qed.

Lemma detectCycle_at_miss kp pp (h : heap) : ∀ p,
  chainClosed p h →
  Forall (fun k => targets k pp = false) (frameKeys p h) →
  detectCycle_at p kp pp h = Done None.
Proof.
  intros p. induction p as [p IH] using Importer_chain_ind. intros Hcl Hno.
  destruct p as [c m b ko mo po t hs]. simpl in *. destruct Hcl as [Hks Hpar].
  assert (Hnext : Forall (fun k => targets k pp = false)
                    (match po with Some q => frameKeys q h | None => [] end) →
                  match po with Some q => detectCycle_at q kp pp h | None => Done None end
                  = Done None).
  { intros Hrest. destruct po as [q|]; [by apply (IH q eq_refl) | done]. }
  destruct ko as [a|]; [|by apply Hnext].
  destruct (lookup_lt_is_Some_2 h a Hks) as [st Hst]. rewrite Hst in *.
  apply Forall_cons in Hno as [Hno Hrest]. rewrite Hno. simpl. by apply Hnext.
Qed.

Lemma detectCycle_at_hit kp pp (h : heap) : ∀ p,
  chainClosed p h →
  Exists (fun k => targets k pp = true) (frameKeys p h) →
  detectCycle_at p kp pp h =
  (l ← cycleChain kp pp h [frameName (pp_ImportPath pp) (pp_Dir pp)];
   Done (Some (Errorf "import cycle: %s" [Join l " <~ "]))).
Proof.
  intros p. induction p as [p IH] using Importer_chain_ind. intros Hcl Hex.
  destruct p as [c m b ko mo po t hs]. simpl in *. destruct Hcl as [Hks Hpar].
  destruct ko as [a|].
  - destruct (lookup_lt_is_Some_2 h a Hks) as [st Hst]. rewrite Hst in *.
    destruct (targets (key st) pp) eqn:Et; [done|]. simpl.
    apply Exists_cons in Hex as [Hex|Hex]; [congruence|].
    destruct po as [q|]; [by apply (IH q eq_refl) | by apply Exists_nil in Hex].
  - destruct po as [q|]; [by apply (IH q eq_refl) | by apply Exists_nil in Hex].
Qed.

(** When every state pointer of the chain is set up, [detectCycle] returns:
    no error when no frame from the importer upwards has a state that
    targets the package; else the error [import cycle:] with the package
    followed by the frames from the importer up to the first whose state
    targets it, joined by [<~]. *)
Theorem detectCycle_chain (kp : Importer) (pp : PkgPath) (h : heap)
    (pre : list stateKey) (k : stateKey) (post : list stateKey) :
  chainClosed kp h →
  (Forall (fun k => targets k pp = false) (frameKeys kp h) →
   detectCycle kp pp h = Done None) ∧
  (frameKeys kp h = pre ++ k :: post →
   Forall (fun k => targets k pp = false) pre → targets k pp = true →
   detectCycle kp pp h =
   Done (Some (Errorf "import cycle: %s"
                 [Join (frameName (pp_ImportPath pp) (pp_Dir pp)
                          :: map keyName (pre ++ [k])) " <~ "]))).
Proof.
  intros Hcl. split; [by apply detectCycle_at_miss|].
  intros Hfk Hpre Hk. unfold detectCycle. rewrite detectCycle_at_hit; [|done|].
  - by rewrite (cycleChain_closed_form pp h kp _ pre k post).
  - rewrite Hfk. apply Exists_app. right. by left.
Qed.

Lemma detectCycle_chain_witness :
  detectCycle kp_b pp_c heap_ab = Done None ∧
  detectCycle kp_b pp_a heap_ab =
  Done (Some (Errorf "import cycle: %s"
                ["a(/gopath/src/a) <~ b(/gopath/src/b) <~ a(/gopath/src/a)"])).
Proof.
  split.
  - apply (detectCycle_chain kp_b pp_c heap_ab [] key_a []).
    + simpl. lia.
    + repeat constructor.
  - apply (detectCycle_chain kp_b pp_a heap_ab [key_b] key_a []).
    + simpl. lia.
    + reflexivity.
    + repeat constructor.
    + reflexivity.
Defined.

(** *** Invalidation and validity *)

Lemma ticked_refl at_ h : ticked at_ h h.
Proof. split; [done|]. intros a st Hst. by left. Qed.

Lemma ticked_trans at_ h1 h2 h3 : ticked at_ h1 h2 → ticked at_ h2 h3 → ticked at_ h1 h3.
Proof.
  intros [Hl12 H12] [Hl23 H23]. split; [congruence|]. intros a st Hst.
  destruct (H12 a st Hst) as [H2|H2]; destruct (H23 _ _ H2) as [H3|H3]; auto.
Qed.

Lemma ticked_graph at_ h h' a : ticked at_ h h' → graph h' a = graph h a.
Proof.
  intros [Hlen Ht]. unfold graph. destruct (h !! a) as [st|] eqn:Hst.
  - by destruct (Ht a st Hst) as [-> | ->].
  - rewrite (proj2 (lookup_ge_None h' a)); [done|].
    apply lookup_ge_None in Hst. lia.
Qed.

Lemma reaches_graph (h h' : heap) a b :
  (∀ x, graph h' x = graph h x) → reaches h a b → reaches h' a b.
Proof.
  intros Hg Hr. induction Hr as [a|a p b Hedge _ IH]; [apply rtc_refl|].
  eapply rtc_l; [|exact IH]. simpl. by rewrite Hg.
Qed.

Lemma invalidate_ticked fuel at_ : ∀ ks (h h' : heap),
  invalidate fuel ks at_ h = Done h' → ticked at_ h h'.
Proof.
  induction fuel as [|fuel IH]; intros ks h h'; [discriminate|].
  rewrite invalidate_S. destruct (h !! ks) as [st|] eqn:Hst; [|discriminate].
  assert (Hloop : ∀ l (h1 h2 : heap),
    forEach (fun p => invalidate fuel p at_) l h1 = Done h2 → ticked at_ h1 h2).
  { induction l as [|p l IHl]; intros h1 h2; simpl.
    - intros [= <-]. apply ticked_refl.
    - destruct (invalidate fuel p at_ h1) as [h1'| |] eqn:E1; [|discriminate..].
      simpl. intros H2%IHl. apply IH in E1. by eapply ticked_trans. }
  intros Ht%Hloop. eapply ticked_trans; [|exact Ht].
  split; [by rewrite length_insert|]. intros a st' Hst'.
  rewrite (lookup_insert_invAt h ks st at_ a Hst), Hst'. simpl.
  destruct (Nat.eqb ks a); auto.
Qed.

Lemma forEach_ticked fuel at_ l : ∀ (h1 h2 : heap),
  forEach (fun p => invalidate fuel p at_) l h1 = Done h2 → ticked at_ h1 h2.
Proof.
  induction l as [|q l IHl]; intros h1 h2 E; simpl in E.
  - injection E as <-. apply ticked_refl.
  - destruct (invalidate fuel q at_ h1) as [h3| |] eqn:E3; [|discriminate..].
    simpl in E. eapply ticked_trans; [by eapply invalidate_ticked | by apply IHl].
Qed.

Lemma ticked_set at_ (h h' : heap) a st :
  ticked at_ h h' → h !! a = Some (set_invAt at_ st) → h' !! a = Some (set_invAt at_ st).
Proof. intros [_ Ht] Hst. by destruct (Ht _ _ Hst) as [?|?]. Qed.

(** What [invalidate] has done when it returns, on any graph. *)
Lemma invalidate_exact fuel at_ : ∀ ks (h h' : heap),
  invalidate fuel ks at_ h = Done h' →
  ∀ a st, h !! a = Some st →
    (reaches h ks a → h' !! a = Some (set_invAt at_ st)) ∧
    (¬ reaches h ks a → h' !! a = Some st).
Proof.
  induction fuel as [|fuel IH]; intros ks h h'; [discriminate|].
  rewrite invalidate_S. destruct (h !! ks) as [st0|] eqn:Hst0; [|discriminate].
  assert (Hloop : ∀ l (h1 h2 : heap),
    forEach (fun p => invalidate fuel p at_) l h1 = Done h2 →
    ∀ a st, h1 !! a = Some st →
      ((∃ p, p ∈ l ∧ reaches h1 p a) → h2 !! a = Some (set_invAt at_ st)) ∧
      ((∀ p, p ∈ l → ¬ reaches h1 p a) → h2 !! a = Some st)).
  { induction l as [|p l IHl]; intros h1 h2; simpl.
    - intros [= <-] a st Hst. split; [|done].
      intros (p & Hp & _). by apply elem_of_nil in Hp.
    - destruct (invalidate fuel p at_ h1) as [h1'| |] eqn:E1; [|discriminate..].
      simpl. intros E2 a st Hst.
      pose proof (invalidate_ticked _ _ _ _ _ E1) as Ht1.
      pose proof (forEach_ticked _ _ _ _ _ E2) as Ht2.
      assert (Hg : ∀ x, graph h1' x = graph h1 x) by (intros x; by eapply ticked_graph).
      assert (Hg' : ∀ x, graph h1 x = graph h1' x) by (intros x; by rewrite Hg).
      destruct (IH _ _ _ E1 a st Hst) as [Hpos1 Hneg1]. split.
      + intros (q & Hq & Hr). apply elem_of_cons in Hq as [->|Hq].
        * eapply ticked_set; [exact Ht2 | by apply Hpos1].
        * destruct (proj2 Ht1 a st Hst) as [H1|H1].
          -- destruct (IHl _ _ E2 a st H1) as [Hpos2 _]. apply Hpos2.
             exists q. split; [done | by apply (reaches_graph h1)].
          -- destruct (IHl _ _ E2 a _ H1) as [Hpos2 _]. simpl in Hpos2.
             apply Hpos2. exists q. split; [done | by apply (reaches_graph h1)].
      + intros Hno. destruct (IHl _ _ E2 a st) as [_ Hneg2].
        * apply Hneg1, Hno. left.
        * apply Hneg2. intros q Hq Hr. apply (Hno q); [by right|].
          by apply (reaches_graph h1'). }
  intros E a st Hst.
  set (h1 := <[ks := set_invAt at_ st0]> h) in *.
  assert (Ht1 : ticked at_ h h1).
  { split; [by unfold h1; rewrite length_insert|]. intros b stb Hb. unfold h1.
    rewrite (lookup_insert_invAt h ks st0 at_ b Hst0), Hb. simpl.
    destruct (Nat.eqb ks b); auto. }
  assert (Hg : ∀ x, graph h1 x = graph h x) by (intros x; by eapply ticked_graph).
  assert (Hg' : ∀ x, graph h x = graph h1 x) by (intros x; by rewrite Hg).
  assert (Himby : imby st0 = graph h ks) by (unfold graph; by rewrite Hst0).
  split.
  - intros Hr. apply rtc_inv in Hr as [<-|(p & Hedge & Hr)].
    + assert (st = st0) as -> by congruence.
      pose proof (forEach_ticked _ _ _ _ _ E) as Ht2.
      eapply ticked_set; [exact Ht2|]. unfold h1.
      rewrite list_lookup_insert_eq; [done | by eapply lookup_lt_Some].
    + simpl in Hedge. destruct (proj2 Ht1 a st Hst) as [H1|H1].
      * destruct (Hloop _ _ _ E a st H1) as [Hpos _]. apply Hpos.
        exists p. split; [by rewrite Himby | by apply (reaches_graph h)].
      * destruct (Hloop _ _ _ E a _ H1) as [Hpos _]. simpl in Hpos.
        apply Hpos. exists p. split; [by rewrite Himby | by apply (reaches_graph h)].
  - intros Hno. assert (a ≠ ks) as Hne by (intros ->; apply Hno, rtc_refl).
    destruct (Hloop _ _ _ E a st) as [_ Hneg].
    + unfold h1. by rewrite list_lookup_insert_ne.
    + apply Hneg. intros p Hp Hr. apply Hno. eapply rtc_l; [|by apply (reaches_graph h1)].
      simpl. by rewrite <- Himby.
Qed.

(** Whenever [invalidate] returns, on any graph, it has set [invAt] to the
    tick in the state and in each of its transitive importers, which are
    then valid for no hash unless they were checked after the tick, and it
    has changed nothing else: no package, error, hash, check tick or
    importer list, and no state that does not import the invalidated one. *)
Theorem invalidate_makes_importers_stale
    (fuel : nat) (ks a : addr) (at_ : Z) (h h' : heap) (st : state) (hs : string) :
  invalidate fuel ks at_ h = Done h' → h !! a = Some st →
  (reaches h ks a →
   h' !! a = Some (set_invAt at_ st) ∧
   ((chkAt st ≤ at_)%Z → valid hs (set_invAt at_ st) = false)) ∧
  (¬ reaches h ks a → h' !! a = Some st).
Proof.
  intros E Hst. destruct (invalidate_exact _ _ _ _ _ E a st Hst) as [Hpos Hneg].
  split; [|done]. intros Hr. split; [by apply Hpos|].
  intros Hle. unfold valid. simpl.
  rewrite (proj2 (Z.ltb_ge at_ (chkAt st))); [done | lia].
Qed.

Lemma invalidate_makes_importers_stale_witness :
  (reaches heap_chain 1 0 →
   [set_invAt 9 (newState key_a); set_invAt 9 (set_imby [0] (newState key_b));
    set_imby [1] (newState key_c)] !! 0 = Some (set_invAt 9 (newState key_a)) ∧
   ((chkAt (newState key_a) ≤ 9)%Z → valid "" (set_invAt 9 (newState key_a)) = false)) ∧
  (¬ reaches heap_chain 1 0 →
   [set_invAt 9 (newState key_a); set_invAt 9 (set_imby [0] (newState key_b));
    set_imby [1] (newState key_c)] !! 0 = Some (newState key_a)).
Proof.
  apply (invalidate_makes_importers_stale 3 1 0 9 heap_chain _ (newState key_a) "");
    reflexivity.
Defined.

Lemma invalidate_graph_only fuel at_ : ∀ ks (h h2 h' : heap),
  same_graph h h2 → invalidate fuel ks at_ h = Done h' →
  ∃ h2', invalidate fuel ks at_ h2 = Done h2'.
Proof.
  induction fuel as [|fuel IH]; intros ks h h2 h' [Hlen Hg]; [discriminate|].
  rewrite !invalidate_S. destruct (h !! ks) as [st|] eqn:Hst; [|discriminate].
  destruct (lookup_lt_is_Some_2 h2 ks) as [st2 Hst2].
  { apply lookup_lt_Some in Hst. lia. }
  rewrite Hst2. assert (imby st2 = imby st) as ->.
  { specialize (Hg ks). unfold graph in Hg. by rewrite Hst, Hst2 in Hg. }
  assert (Hsame : same_graph (<[ks := set_invAt at_ st]> h) (<[ks := set_invAt at_ st2]> h2)).
  { split; [by rewrite !length_insert|]. intros x. unfold graph.
    rewrite (lookup_insert_invAt h ks st at_ x Hst),
      (lookup_insert_invAt h2 ks st2 at_ x Hst2).
    specialize (Hg x). unfold graph in Hg.
    destruct (h !! x), (h2 !! x); simpl; rewrite ?mark_imby; done. }
  revert Hsame. generalize (<[ks := set_invAt at_ st]> h) (<[ks := set_invAt at_ st2]> h2).
  clear Hst Hst2. revert h'.
  induction (imby st) as [|p l IHl]; intros h' h1 h1b Hsame E; simpl in *; [by eexists|].
  destruct (invalidate fuel p at_ h1) as [h1'| |] eqn:E1; [|discriminate..]. simpl in E.
  destruct (IH p h1 h1b h1' Hsame E1) as [h1b' E1b]. rewrite E1b. simpl.
  apply (IHl h' h1' h1b'); [|done].
  apply invalidate_ticked in E1. apply invalidate_ticked in E1b.
  destruct Hsame as [Hl Hgr]. split.
  - destruct E1 as [-> _], E1b as [-> _]. done.
  - intros x. by rewrite (ticked_graph _ _ _ x E1b), (ticked_graph _ _ _ x E1).
Qed.

(** A second [invalidate] with the same tick returns too and changes
    nothing. *)
Theorem invalidate_idempotent (fuel : nat) (ks : addr) (at_ : Z) (h h' : heap) :
  invalidate fuel ks at_ h = Done h' → invalidate fuel ks at_ h' = Done h'.
Proof.
  intros E. pose proof (invalidate_ticked _ _ _ _ _ E) as Ht.
  destruct (invalidate_graph_only fuel at_ ks h h' h') as [h'' E'']; [|done|].
  { split; [apply Ht|]. intros x. by eapply ticked_graph. }
  rewrite E''. f_equal. pose proof (invalidate_ticked _ _ _ _ _ E'') as Ht'.
  apply list_eq. intros a. destruct (h !! a) as [st|] eqn:Hst.
  - destruct (invalidate_exact _ _ _ _ _ E a st Hst) as [Hpos Hneg].
    destruct (proj2 Ht a st Hst) as [H1|H1].
    + destruct (decide (invAt st = at_)) as [Heq|Hne].
      * assert (set_invAt at_ st = st) as Hset by (destruct st; simpl in *; by subst).
        destruct (proj2 Ht' a st H1) as [H2|H2]; rewrite H1, H2; congruence.
      * assert (¬ reaches h' ks a) as Hno.
        { intros Hr. assert (reaches h ks a) as Hr'.
          { apply (reaches_graph h'); [|done]. intros x. symmetry. by eapply ticked_graph. }
          rewrite (Hpos Hr') in H1. injection H1 as H1. apply Hne.
          by rewrite <- H1. }
        destruct (invalidate_exact _ _ _ _ _ E'' a st H1) as [_ Hneg'].
        by rewrite H1, (Hneg' Hno).
    + rewrite H1. by destruct (proj2 Ht' a _ H1) as [->| ->].
  - apply lookup_ge_None in Hst.
    rewrite (proj2 (lookup_ge_None h'' a)), (proj2 (lookup_ge_None h' a)); [done|..].
    + destruct Ht as [-> _]. done.
    + destruct Ht' as [-> _], Ht as [-> _]. done.
Qed.

Lemma invalidate_idempotent_witness :
  invalidate 3 2 9
    [set_invAt 9 (newState key_a); set_invAt 9 (set_imby [0] (newState key_b));
     set_invAt 9 (set_imby [1] (newState key_c))]
  = Done [set_invAt 9 (newState key_a); set_invAt 9 (set_imby [0] (newState key_b));
          set_invAt 9 (set_imby [1] (newState key_c))].
Proof.
  apply (invalidate_idempotent 3 2 9 heap_chain). reflexivity.
Defined.

(** *** Results and registration *)

(** What [result] can return: never neither package nor error; no error
    only together with the stored package, which is then complete; no
    package only together with the stored error. *)
Theorem result_shapes (ks : state) (p : option Package) (e : option error) :
  result ks = Done (p, e) →
  (p ≠ None ∨ e ≠ None) ∧
  (e = None → ∃ q, p = Some q ∧ pkg ks = Some q ∧
                   GoTypes.complete (Package_types q) = true) ∧
  (p = None → e = err ks).
Proof.
  unfold result. destruct (err ks) as [e0|].
  - intros [= <- <-]. split; [by right|]. by split.
  - destruct (pkg ks) as [q|]; simpl; [|discriminate].
    destruct (GoTypes.complete (Package_types q)) eqn:Ec; simpl; intros [= <- <-].
    + split; [by left|]. split; [by exists q | done].
    + split; [by left|]. by split.
Qed.

Lemma result_shapes_witness :
  (Some pkg_done ≠ None ∨ (None : option error) ≠ None) ∧
  ((None : option error) = None →
   ∃ q, Some pkg_done = Some q ∧
        pkg (set_checked (Some pkg_done) None "" 5 (newState key_a)) = Some q ∧
        GoTypes.complete (Package_types q) = true) ∧
  (Some pkg_done = None →
   (None : option error) = err (set_checked (Some pkg_done) None "" 5 (newState key_a))).
Proof.
  apply (result_shapes (set_checked (Some pkg_done) None "" 5 (newState key_a))
           (Some pkg_done) None).
  reflexivity.
Defined.

(** When [invalidate] returns, every pointer it followed was a state. *)
Lemma invalidate_reaches_lt fuel at_ : ∀ ks (h h' : heap),
  invalidate fuel ks at_ h = Done h' → ∀ a, reaches h ks a → a < length h.
Proof.
  induction fuel as [|fuel IH]; intros ks h h'; [discriminate|].
  rewrite invalidate_S. destruct (h !! ks) as [st|] eqn:Hst; [|discriminate].
  assert (Hloop : ∀ l (h1 h2 : heap),
    forEach (fun p => invalidate fuel p at_) l h1 = Done h2 →
    ∀ p a, p ∈ l → reaches h1 p a → a < length h1).
  { induction l as [|q l IHl]; intros h1 h2 E p a Hp Hr; [by apply elem_of_nil in Hp|].
    simpl in E. destruct (invalidate fuel q at_ h1) as [h1'| |] eqn:E1; [|discriminate..].
    simpl in E. apply elem_of_cons in Hp as [->|Hp]; [by eapply IH|].
    pose proof (invalidate_ticked _ _ _ _ _ E1) as Ht.
    destruct Ht as [Hlen Ht']. rewrite <- Hlen. eapply (IHl h1' h2 E p a Hp).
    apply (reaches_graph h1); [|done]. intros x. eapply ticked_graph. by split. }
  intros E a Hr. apply rtc_inv in Hr as [<-|(p & Hedge & Hr)]; [by eapply lookup_lt_Some|].
  simpl in Hedge. unfold graph in Hedge. rewrite Hst in Hedge.
  pose proof (Hloop _ _ _ E p a Hedge) as Hlt. rewrite length_insert in Hlt.
  apply Hlt. apply (reaches_graph h); [|done].
  intros x. unfold graph. rewrite (lookup_insert_invAt h ks st at_ x Hst).
  destruct (h !! x); simpl; [apply mark_imby | done].
Qed.

(** [importedBy] returns when the state exists; the importer is then
    listed, a second registration changes nothing, no other field and no
    other state is touched, and a later [invalidate] of the state that
    returns has set the tick in the importer too. *)
Theorem importedBy_registers
    (ks p : addr) (h : heap) (st : state) (fuel : nat) (at_ : Z) (h2 : heap) :
  h !! ks = Some st →
  ∃ h1 l,
    importedBy ks p h = Done h1 ∧
    h1 = <[ks := set_imby l st]> h ∧ p ∈ l ∧
    importedBy ks p h1 = Done h1 ∧
    (invalidate fuel ks at_ h1 = Done h2 →
     ∃ stp, h2 !! p = Some stp ∧ invAt stp = at_).
Proof.
  intros Hst. rewrite (importedBy_closed ks p h st Hst).
  assert (Hlt : ks < length h) by by eapply lookup_lt_Some.
  set (l := if bool_decide (p ∈ imby st) then imby st else imby st ++ [p]).
  set (h1 := <[ks := set_imby l st]> h).
  assert (Hin : p ∈ l).
  { unfold l. case_bool_decide; [done|]. apply elem_of_app. right. left. }
  assert (Hh1 : (if bool_decide (p ∈ imby st) then h
                 else <[ks := set_imby (imby st ++ [p]) st]> h) = h1).
  { unfold h1, l. case_bool_decide; [|done].
    symmetry. apply list_insert_id. rewrite Hst. by destruct st. }
  rewrite Hh1. exists h1, l. split; [done|]. split; [done|]. split; [done|].
  assert (Hst1 : h1 !! ks = Some (set_imby l st)).
  { unfold h1. by rewrite list_lookup_insert_eq. }
  split.
  - rewrite (importedBy_closed ks p h1 _ Hst1). simpl.
    by rewrite bool_decide_eq_true_2.
  - intros E.
    assert (Hr : reaches h1 ks p).
    { eapply rtc_l; [|apply rtc_refl]. simpl. unfold graph. by rewrite Hst1. }
    destruct (lookup_lt_is_Some_2 h1 p) as [stp Hp]; [by eapply invalidate_reaches_lt|].
    destruct (invalidate_exact _ _ _ _ _ E p stp Hp) as [Hpos _].
    exists (set_invAt at_ stp). split; [by apply Hpos | done].
Qed.

Lemma importedBy_registers_witness :
  ∃ h1 l,
    importedBy 1 0 [newState key_a; newState key_b] = Done h1 ∧
    h1 = <[1 := set_imby l (newState key_b)]> [newState key_a; newState key_b] ∧
    0 ∈ l ∧
    importedBy 1 0 h1 = Done h1 ∧
    (invalidate 2 1 9 h1
       = Done [set_invAt 9 (newState key_a); set_invAt 9 (set_imby [0] (newState key_b))] →
     ∃ stp, [set_invAt 9 (newState key_a); set_invAt 9 (set_imby [0] (newState key_b))] !! 0
              = Some stp ∧ invAt stp = 9%Z).
Proof.
  apply (importedBy_registers 1 0 [newState key_a; newState key_b] (newState key_b) 2 9).
  reflexivity.
Defined.

(** *** Synthesized packages and dependency keys *)

(** The imports of ["unsafe"] and ["C"] return the synthesized packages,
    both complete, for every resolver and without touching the process
    state; every other path goes to the resolver. *)
Theorem synthesized_packages_bypass {W : Type}
    (importResolved : Importer → string → string → W → (option Package * option error) * W)
    (kp : Importer) (ipath srcDir : string) (w : W) :
  ImportPackage importResolved kp "unsafe" srcDir w = ((Some pkgUnsafe, None), w) ∧
  ImportPackage importResolved kp "C" srcDir w = ((Some pkgC, None), w) ∧
  Import importResolved kp "unsafe" w = (Done (Some (Package_types pkgUnsafe), None), w) ∧
  Import importResolved kp "C" w = (Done (Some (Package_types pkgC), None), w) ∧
  GoTypes.complete (Package_types pkgUnsafe) = true ∧
  GoTypes.complete (Package_types pkgC) = true ∧
  (ipath ≠ "unsafe" → ipath ≠ "C" →
   ImportPackage importResolved kp ipath srcDir w = importResolved kp ipath srcDir w).
Proof.
  repeat split. intros Hu Hc. unfold ImportPackage, importFakePkg.
  by rewrite (proj2 (String.eqb_neq _ _) Hu), (proj2 (String.eqb_neq _ _) Hc).
Qed.

Lemma synthesized_packages_bypass_witness :
  ImportPackage sample_resolve kp_root "b" "/gopath/src/a" 0
  = sample_resolve kp_root "b" "/gopath/src/a" 0.
Proof.
  by apply (synthesized_packages_bypass sample_resolve kp_root "b" "/gopath/src/a" 0).
Defined.

Lemma branch_child kp target pp (h h' : heap) kx :
  branch kp target pp h = Done (kx, h') →
  cfg kx = {| PackageSrc := None; SrcMap := SrcMap (cfg kp);
              cfg_CheckFuncs := false; cfg_CheckImports := false;
              NoConcurrency := NoConcurrency (cfg kp); cfg_Tests := false;
              cfg_TypesInfo := (if negb (ImportsTypesInfo (cfg kp)) then 0%N
                                else cfg_TypesInfo (cfg kp));
              ImportsTypesInfo := ImportsTypesInfo (cfg kp) |} ∧
  kp_hash kx = "" ∧ tags kx = tags kp ∧ mx kx = mx kp ∧
  bld kx = (if bool_decide (VFS_Poke (mx kp) (pp_Dir pp) ≠ jsNode kp ∧
                            VFS_Poke (mx kp) (View_Dir (mx kp)) ≠ jsNode kp)
            then bld kp else jsBuild (bld kp)).
Proof.
  unfold branch.
  destruct (match ks kp with Some parent => importedBy target parent h | None => Done h end)
    as [h1| |]; [|discriminate..].
  simpl. intros [= <- <-].
  match goal with |- context [setupJs pp ?k] => set (kx := k) end.
  destruct (setupJs_frame pp kx) as (-> & -> & _ & _ & _ & -> & ->).
  by rewrite setupJs_bld.
Qed.

(** The state key that a child of [branch] computes, for any package, has
    [CheckFuncs], [CheckImports] and [Tests] off and [NoHash] on; two
    parents that agree on context, build context and tags and do not pass
    their type-info mask on give their children the same keys, whatever
    their other settings and overlays. *)
Theorem dependency_keys_drop_root_settings
    (PathList : string → list string) (sep : string)
    (kp1 kp2 : Importer) (t1 t2 : addr) (pp pp' : PkgPath)
    (h1 h2 h1' h2' : heap) (kx1 kx2 : Importer) :
  branch kp1 t1 pp h1 = Done (kx1, h1') →
  CheckFuncs (Importer_stateKey PathList sep kx1 pp') = false ∧
  CheckImports (Importer_stateKey PathList sep kx1 pp') = false ∧
  Tests (Importer_stateKey PathList sep kx1 pp') = false ∧
  NoHash (Importer_stateKey PathList sep kx1 pp') = true ∧
  (branch kp2 t2 pp h2 = Done (kx2, h2') →
   mx kp1 = mx kp2 → bld kp1 = bld kp2 → tags kp1 = tags kp2 →
   ImportsTypesInfo (cfg kp1) = false → ImportsTypesInfo (cfg kp2) = false →
   Importer_stateKey PathList sep kx1 pp' = Importer_stateKey PathList sep kx2 pp').
Proof.
  intros (Hc1 & Hh1 & Ht1 & Hm1 & Hb1)%branch_child.
  unfold Importer_stateKey. rewrite Hc1, Hh1. simpl. repeat split.
  intros (Hc2 & Hh2 & Ht2 & Hm2 & Hb2)%branch_child Hmx Hbld Htags Hi1 Hi2.
  rewrite Hc2, Hh2, Ht1, Ht2, Hb1, Hb2, Hi1, Hi2, Htags. simpl.
  unfold jsNode. by rewrite Hmx, Hbld.
Qed.

Lemma dependency_keys_drop_root_settings_witness :
  ∃ kx1 kx2 h1' h2',
    branch kp_a 1 pp_b heap_ab = Done (kx1, h1') ∧
    branch kp_b 0 pp_b heap_ab = Done (kx2, h2') ∧
    NoHash (Importer_stateKey sample_PathList ":" kx1 pp_c) = true ∧
    Importer_stateKey sample_PathList ":" kx1 pp_c
    = Importer_stateKey sample_PathList ":" kx2 pp_c.
Proof.
  eexists _, _, _, _. split; [reflexivity|]. split; [reflexivity|].
  match goal with
  | |- NoHash (Importer_stateKey _ _ ?k1 _) = true ∧ _ = Importer_stateKey _ _ ?k2 _ =>
      destruct (dependency_keys_drop_root_settings sample_PathList ":" kp_a kp_b 1 0
                  pp_b pp_c heap_ab heap_ab heap_ab
                  [set_imby [1] (newState key_a); set_imby [0] (newState key_b)]
                  k1 k2 eq_refl) as (_ & _ & _ & Hno & Heq)
  end.
  split; [exact Hno|]. by apply Heq.
Defined.

(** *** The overlay hash as a signal *)

Lemma hexbyte_digits (v : byte) :
  hexbyte (hexdigit (N.shiftr (Byte.to_N v) 4)) (hexdigit (N.land (Byte.to_N v) 15)) = Some v.
Proof. destruct v; vm_compute; reflexivity. Qed.

(** Distinct byte strings have distinct encodings. *)
Lemma EncodeToString_injective (a b : list byte) :
  EncodeToString a = EncodeToString b → a = b.
Proof.
  revert b. induction a as [|v a IH]; intros [|w b]; simpl; try done.
  intros [= Hhi Hlo Hrest]. f_equal; [|by apply IH].
  pose proof (hexbyte_digits v) as Hv. rewrite Hhi, Hlo, hexbyte_digits in Hv.
  congruence.
Qed.

Lemma hexdigit_in_table (n : N) : hexdigit n ∈ list_ascii_of_string hextable.
Proof.
  unfold hexdigit. destruct (String.get (N.to_nat n) hextable) as [c|] eqn:Eg.
  - revert Eg. generalize (N.to_nat n) as i. intros i. unfold hextable.
    do 16 (destruct i as [|i]; [intros [= <-]; vm_compute; set_solver|]).
    discriminate.
  - vm_compute. set_solver.
Qed.

Lemma EncodeToString_lowercase src :
  Forall (fun c => c ∈ list_ascii_of_string hextable)
         (list_ascii_of_string (EncodeToString src)).
Proof.
  induction src as [|v src IH]; simpl; [constructor|].
  apply Forall_cons. split; [apply hexdigit_in_table|].
  apply Forall_cons. split; [apply hexdigit_in_table | exact IH].
Qed.

Lemma srcMapHash_empty_iff (Sum256 : list byte → list byte) order (m : srcmap) :
  (∀ b, length (Sum256 b) = 32) →
  srcMapHash_in Sum256 order m = "" ↔ default ∅ m = ∅.
Proof.
  intros Hlen. unfold srcMapHash_in.
  destruct (Nat.eqb (size (default ∅ m)) 0) eqn:Es.
  - apply Nat.eqb_eq, map_size_empty_iff in Es. by split.
  - split.
    + intros He. pose proof (EncodeToString_length (Sum256 (written order (default ∅ m)))) as Hl.
      rewrite He, Hlen in Hl. simpl in Hl. lia.
    + intros He%map_size_empty_iff%Nat.eqb_eq. congruence.
Qed.

(** With a digest of 32 bytes, [srcMapHash] is the empty string exactly for
    the nil or empty overlay, and else 64 digits of [0123456789abcdef]; two
    overlays with the same hash fed the same bytes or bytes with the same
    digest. *)
Theorem srcMapHash_signals_overlay
    (Sum256 : list byte → list byte) (order : list string) (m : srcmap)
    (order' : list string) (m' : srcmap) :
  (∀ b, length (Sum256 b) = 32) →
  (srcMapHash_in Sum256 order m = "" ↔ default ∅ m = ∅) ∧
  (default ∅ m ≠ ∅ → String.length (srcMapHash_in Sum256 order m) = 64) ∧
  Forall (fun c => c ∈ list_ascii_of_string hextable)
         (list_ascii_of_string (srcMapHash_in Sum256 order m)) ∧
  (default ∅ m ≠ ∅ → default ∅ m' ≠ ∅ →
   srcMapHash_in Sum256 order m = srcMapHash_in Sum256 order' m' →
   Sum256 (written order (default ∅ m)) = Sum256 (written order' (default ∅ m'))).
Proof.
  intros Hlen. unfold srcMapHash_in.
  assert (Hsz : ∀ x : gmap string (list byte), Nat.eqb (size x) 0 = true ↔ x = ∅).
  { intros x. rewrite Nat.eqb_eq. apply map_size_empty_iff. }
  split; [|split; [|split]].
  - by apply srcMapHash_empty_iff.
  - intros Hne. destruct (Nat.eqb (size (default ∅ m)) 0) eqn:Es; [by apply Hsz in Es|].
    by rewrite EncodeToString_length, Hlen.
  - destruct (Nat.eqb (size (default ∅ m)) 0); [constructor | apply EncodeToString_lowercase].
  - intros Hne Hne'.
    destruct (Nat.eqb (size (default ∅ m)) 0) eqn:Es; [by apply Hsz in Es|].
    destruct (Nat.eqb (size (default ∅ m')) 0) eqn:Es'; [by apply Hsz in Es'|].
    apply EncodeToString_injective.
Qed.

Lemma sample_Sum256_length b : length (sample_Sum256 b) = 32.
Proof. unfold sample_Sum256. by destruct (Byte.of_N _). Qed.

Lemma srcMapHash_signals_overlay_witness :
  (srcMapHash_in sample_Sum256 ["a.go"; "b.go"] (Some overlay_ab) = "" ↔
   default ∅ (Some overlay_ab) = ∅) ∧
  (default ∅ (Some overlay_ab) ≠ ∅ →
   String.length (srcMapHash_in sample_Sum256 ["a.go"; "b.go"] (Some overlay_ab)) = 64) ∧
  Forall (fun c => c ∈ list_ascii_of_string hextable)
         (list_ascii_of_string (srcMapHash_in sample_Sum256 ["a.go"; "b.go"] (Some overlay_ab))) ∧
  (default ∅ (Some overlay_ab) ≠ ∅ → default ∅ (Some overlay_ab) ≠ ∅ →
   srcMapHash_in sample_Sum256 ["a.go"; "b.go"] (Some overlay_ab)
   = srcMapHash_in sample_Sum256 ["b.go"; "a.go"] (Some overlay_ab) →
   sample_Sum256 (written ["a.go"; "b.go"] (default ∅ (Some overlay_ab)))
   = sample_Sum256 (written ["b.go"; "a.go"] (default ∅ (Some overlay_ab)))).
Proof.
  apply (srcMapHash_signals_overlay sample_Sum256 ["a.go"; "b.go"] (Some overlay_ab)
           ["b.go"; "a.go"] (Some overlay_ab)).
  exact sample_Sum256_length.
Defined.

(** A root importer made by [New] has no state and no parent, and carries
    the sorted build tags with [netgo] and [osusergo] among them; with a
    digest of 32 bytes its state keys have [NoHash] exactly when there is
    no configuration or its [SrcMap] is nil or empty. *)
Theorem New_root
    (Sum256 : list byte → list byte) (BuildContext_of : Ctx → BuildContext)
    (PathList : string → list string) (sep : string)
    (order : list string) (mx : Ctx) (c : option Config) (pp : PkgPath) :
  (∀ b, length (Sum256 b) = 32) →
  ks (New Sum256 BuildContext_of order mx c) = None ∧
  par (New Sum256 BuildContext_of order mx c) = None ∧
  tags (New Sum256 BuildContext_of order mx c)
    = Join (Sort (BuildTags (BuildContext_of mx) ++ ["netgo"; "osusergo"])) " " ∧
  (NoHash (Importer_stateKey PathList sep (New Sum256 BuildContext_of order mx c) pp) = true
   ↔ default ∅ (c ≫= SrcMap) = ∅).
Proof.
  intros Hlen. destruct c as [c|]; simpl.
  - repeat split; try apply tagsStr_Join_Sort.
    + intros He%String.eqb_eq. by apply (srcMapHash_empty_iff Sum256 order).
    + intros He. apply String.eqb_eq. by apply (srcMapHash_empty_iff Sum256 order).
  - repeat split; apply tagsStr_Join_Sort.
Qed.

Lemma New_root_witness :
  ks (New sample_Sum256 sample_BuildContext ["/gopath/src/a/a.go"] ctx0 (Some cfg_root)) = None ∧
  par (New sample_Sum256 sample_BuildContext ["/gopath/src/a/a.go"] ctx0 (Some cfg_root)) = None ∧
  tags (New sample_Sum256 sample_BuildContext ["/gopath/src/a/a.go"] ctx0 (Some cfg_root))
    = Join (Sort (BuildTags (sample_BuildContext ctx0) ++ ["netgo"; "osusergo"])) " " ∧
  (NoHash (Importer_stateKey sample_PathList ":"
             (New sample_Sum256 sample_BuildContext ["/gopath/src/a/a.go"] ctx0 (Some cfg_root))
             pp_a) = true
   ↔ default ∅ (Some cfg_root ≫= SrcMap) = ∅).
Proof.
  apply (New_root sample_Sum256 sample_BuildContext sample_PathList ":"
           ["/gopath/src/a/a.go"] ctx0 (Some cfg_root) pp_a).
  exact sample_Sum256_length.
Defined.

(** *** The dependency fan-out when it succeeds, and where it stops *)

Lemma StrSet_Add_elem x (s l : list string) : x ∈ StrSet_Add s l ↔ x ∈ s ∨ x ∈ l.
Proof.
  revert s. induction l as [|y l IH]; intros s; simpl.
  - split; [by left | by intros [?|?%elem_of_nil]].
  - case_bool_decide as Hy; rewrite IH.
    + split; [intros [?|?]; [by left | by right; right] |].
      intros [?|[->|?]%elem_of_cons]; [by left | by left | by right].
    + split.
      * intros [[?|Hx%elem_of_cons]%elem_of_app|?]; [by left | | by right; right].
        destruct Hx as [->|?%elem_of_nil]; [right; left | done].
      * intros [?|[->|?]%elem_of_cons]; [left; apply elem_of_app; by left | | by right].
        left. apply elem_of_app. right. left.
Qed.

Section FanOut.

Context {W : Type}.
Variable importResolved :
  Importer → string → string → W → (option Package * option error) * W.
Variable Unquote : string → string * option error.
Variable ErrorText : error → string.
Variable MinNumCPU : nat → nat.
Context {C : Type}.
Variable resolveStart : Importer → string → string → C.
Variable resolveStep : C → W → (C + (option Package * option error)) * W.

Local Abbreviation failed := (Kimporter.failed importResolved Unquote ErrorText).
Local Abbreviation doImport := (Kimporter.doImport importResolved Unquote ErrorText).
Local Abbreviation importSeq := (Kimporter.importSeq importResolved Unquote ErrorText).
Local Abbreviation imported_all := (Kimporter.imported_all importResolved).
Local Abbreviation delivered :=
  (Kimporter.delivered Unquote ErrorText resolveStart resolveStep).

Local Abbreviation imported := (KimporterDriver.imported importResolved).

Lemma doImport_success kp bp fset astFiles ipath imports w imports' w' :
  doImport kp bp fset astFiles ipath (imports, w) = (Done None, (imports', w')) →
  ∃ p, ImportPackage importResolved kp ipath (bp_Dir bp) w = ((p, None), w') ∧
       imports' = <[ipath := p]> imports.
Proof.
  unfold Kimporter.doImport.
  destruct (ImportPackage importResolved kp ipath (bp_Dir bp) w) as [[p [err|]] w1] eqn:Ei.
  - destruct (findSpecInFiles Unquote ipath astFiles) as [spec|]; [|discriminate].
    destruct (ImportSpec_Pos spec); discriminate.
  - intros [= <- <-]. by exists p.
Qed.

Lemma importSeq_success kp bp fset astFiles paths : ∀ s imports' w',
  importSeq kp bp fset astFiles paths s = (Done None, (imports', w')) →
  (∀ k, k ∉ paths → imports' !! k = s.1 !! k) ∧
  (∀ k, k ∈ paths → imported kp bp imports' k).
Proof.
  induction paths as [|ip paths IH]; intros s imports' w'; simpl.
  - intros [= ->]. split; [done|]. by intros k ?%elem_of_nil.
  - destruct (doImport kp bp fset astFiles ip s) as [[[e0|]| |] [imports1 w1]] eqn:Ed;
      try discriminate.
    destruct s as [imports w].
    apply doImport_success in Ed as (p & Hi & ->).
    intros [Hout Hin]%IH. simpl in Hout. split.
    + intros k Hk. simpl. rewrite Hout by (intros ?; apply Hk; by right).
      apply lookup_insert_ne. intros ->. apply Hk. left.
    + intros k Hk. destruct (decide (k ∈ paths)) as [Hkp|Hkp]; [by apply Hin|].
      apply elem_of_cons in Hk as [->|Hk]; [|done].
      exists w, w1, p. split; [done|]. rewrite Hout by done. apply lookup_insert_eq.
Qed.



Lemma importSeq_all kp bp fset astFiles paths : ∀ s s',
  importSeq kp bp fset astFiles paths s = (Done None, s') →
  imported_all kp (bp_Dir bp) paths s s'.
Proof.
  induction paths as [|ip paths IH]; intros s s'; simpl.
  - by intros [= <-].
  - destruct (doImport kp bp fset astFiles ip s) as [[[e0|]| |] [im1 w1]] eqn:Ed;
      try discriminate.
    destruct s as [im w]. apply doImport_success in Ed as (p & Hi & ->).
    intros Hall%IH. by exists p, w1.
Qed.

Lemma depPaths_elem st bp k :
  k ∈ depPaths st bp ↔
  k ∈ bp_Imports bp ∨ (Tests (key st) = true ∧ k ∈ bp_TestImports bp).
Proof.
  unfold depPaths, StrSet. destruct (Tests (key st)); rewrite !StrSet_Add_elem.
  - split.
    + intros [[[]%elem_of_nil|?]|?]; [by left | by right].
    + intros [?|[_ ?]]; [left; by right | by right].
  - split.
    + intros [[]%elem_of_nil|?]. by left.
    + intros [?|[? _]]; [by right | done].
Qed.

(** When [importDeps] returns without error, the map of imports has an
    entry exactly for the imports of the package, and for its test imports
    when [Tests] is set. In the sequential branch the paths were imported one
    after the other, each without error, which led to the map and the
    process state returned; in the concurrent branch, for every
    interleaving of the goroutines, the package of an entry is a synthesized
    one or what a call of the run for that path returned without error.
    The concurrent branch is taken with two paths or more and is supposed
    to start a goroutine then. *)
Theorem importDeps_success
    (kp : Importer) (st : state) (bp : BuildPackage) (fset : FileSet)
    (astFiles : list File) (sched : list nat) (w w' : W) (imports : imports_map)
    (k : string) :
  (∀ n, 0 < n → 0 < MinNumCPU n) →
  importDeps importResolved Unquote ErrorText MinNumCPU resolveStart resolveStep
    kp st bp fset astFiles sched w = (Done None, (imports, w')) →
  (is_Some (imports !! k) ↔
   k ∈ bp_Imports bp ∨ (Tests (key st) = true ∧ k ∈ bp_TestImports bp)) ∧
  (NoConcurrency (cfg kp) || Nat.ltb (length (depPaths st bp)) 2 = true →
   imported_all kp (bp_Dir bp) (depPaths st bp) (∅, w) (imports, w')) ∧
  (NoConcurrency (cfg kp) || Nat.ltb (length (depPaths st bp)) 2 = false →
   ∀ p, imports !! k = Some p →
     delivered kp bp fset astFiles sched
       (group0 (MinNumCPU (length (depPaths st bp))) (depPaths st bp) w)
       k (p, None)).
Proof.
  intros Hcpu. unfold importDeps. cbv zeta. rewrite <- depPaths_elem.
  destruct (NoConcurrency (cfg kp) || Nat.ltb (length (depPaths st bp)) 2) eqn:Em.
  - intros Hseq. split; [|split; [intros _; by apply (importSeq_all _ _ fset astFiles)|done]].
    apply importSeq_success in Hseq as [Hout Hin]. simpl in Hout. split.
    + intros Hs. destruct (decide (k ∈ depPaths st bp)) as [|Hno]; [done|].
      rewrite (Hout k Hno), lookup_empty in Hs. by destruct Hs.
    + intros Hk. destruct (Hin k Hk) as (? & ? & p & _ & ->). by eexists.
  - intros Hpar. apply orb_false_iff in Em as [_ Hlen%Nat.ltb_ge].
    eapply (importPar_success Unquote ErrorText) in Hpar as [Hiff Hdel];
      [|apply Hcpu; lia].
    split; [apply Hiff|]. split; [done|]. intros _. apply Hdel.
Qed.


End FanOut.

Lemma importDeps_success_witness :
  (is_Some (({[ "fmt" := Some pkg_done; "unsafe" := Some pkgUnsafe;
                "os" := Some pkg_done ]} : imports_map) !! "os") ↔
   "os" ∈ bp_Imports bp_ok ∨
   (Tests (key (newState key_a)) = true ∧ "os" ∈ bp_TestImports bp_ok)) ∧
  Kimporter.imported_all sample_resolve kp_root (bp_Dir bp_ok)
    (depPaths (newState key_a) bp_ok) (∅, 0)
    (({[ "fmt" := Some pkg_done; "unsafe" := Some pkgUnsafe;
         "os" := Some pkg_done ]} : imports_map), 2) ∧
  Kimporter.delivered sample_Unquote sample_ErrorText sample_start sample_step
    kp_par bp_ok fset_a [file_a] [0; 1; 1; 1; 1; 1; 1; 0; 0; 0; 0; 1]
    (group0 (Nat.min (length (depPaths (newState key_a) bp_ok)) 2)
       (depPaths (newState key_a) bp_ok) 0)
    "os" (Some pkg_done, None).
Proof.
  destruct (importDeps_success sample_resolve sample_Unquote sample_ErrorText
              (fun n => Nat.min n 2) sample_start sample_step
              kp_par (newState key_a) bp_ok fset_a [file_a]
              [0; 1; 1; 1; 1; 1; 1; 0; 0; 0; 0; 1] 0 2
              {[ "fmt" := Some pkg_done; "unsafe" := Some pkgUnsafe;
                 "os" := Some pkg_done ]} "os") as (Hiff & _ & Hdel).
  { intros n Hn. lia. }
  { vm_compute. reflexivity. }
  destruct (importDeps_success sample_resolve sample_Unquote sample_ErrorText
              (fun n => Nat.min n 2) sample_start sample_step
              kp_root (newState key_a) bp_ok fset_a [file_a] [] 0 2
              {[ "fmt" := Some pkg_done; "unsafe" := Some pkgUnsafe;
                 "os" := Some pkg_done ]} "os") as (_ & Hall & _).
  { intros n Hn. lia. }
  { vm_compute. reflexivity. }
  split; [exact Hiff|]. split.
  - apply Hall. reflexivity.
  - apply Hdel; vm_compute; reflexivity.
Defined.


End KimporterMore.

(** ** Facts about the import of one package *)

Module KimporterImportFacts.

Import Kimporter KimporterDriver KimporterImport KimporterFacts KimporterMore.

Local Open Scope list_scope.

Lemma globalState_spec k (h : heap) a h' :
  globalState k h = (a, h') →
  (∃ st, h' !! a = Some st ∧ key st = k) ∧ (h' = h ∨ (a = length h ∧ h' = h ++ [newState k])).
Proof.
  unfold globalState. destruct (list_find _ h) as [[i st]|] eqn:Ef.
  - intros [= <- <-]. apply list_find_Some in Ef as (Hst & Hk & _).
    split; [by exists st | by left].
  - intros [= <- <-]. split; [|by right].
    exists (newState k). split; [by apply list_lookup_middle | done].
Qed.

Lemma result_complete st p :
  result st = Done (p, None) → Complete p = Done true.
Proof.
  unfold result. destruct (err st); [discriminate|].
  destruct (Complete (pkg st)) as [[]| |] eqn:Ec; simpl; try discriminate.
  by intros [= <-].
Qed.

Lemma branch_registered kp a pp (h h' : heap) kx st :
  h !! a = Some st → branch kp a pp h = Done (kx, h') → h' = registered kp a st h.
Proof.
  intros Hst Hb. apply branch_other_fields in Hb as (_ & _ & _ & _ & _ & _ & Hh).
  unfold registered. destruct (ks kp) as [parent|]; [|done].
  rewrite (importedBy_closed _ _ _ _ Hst) in Hh. by injection Hh as <-.
Qed.

Section ImportFacts.

Context {W : Type}.
Variable PathList : string → list string.
Variable ListSeparator : string.
Variable InvAt : W → Z.
Variable check :
  Importer → addr → PkgPath → srcmap → heap * W →
  outcome (option Package * option error) * (heap * W).
Variable Abs : string → string * option error.
Variable IsAbs : string → bool.
Variable FindPkg :
  option ModPath → Ctx → string → string → W → (option PkgPath * option error) * W.

Local Abbreviation importPkg := (KimporterImport.importPkg PathList ListSeparator InvAt check).
Local Abbreviation ImportPackage_reg :=
  (KimporterImport.ImportPackage_reg PathList ListSeparator InvAt check Abs IsAbs FindPkg).

(** When a frame from the importer upwards has a state that targets the
    package, [importPkg] returns the import cycle error and nothing else
    happens: no state is looked up or created, no importer is registered,
    the package is not checked. *)
Theorem importPkg_cycle_untouched
    (kp : Importer) (pp : PkgPath) (h : heap) (w : W)
    (pre : list stateKey) (k : stateKey) (post : list stateKey) :
  chainClosed kp h →
  frameKeys kp h = pre ++ k :: post →
  Forall (fun k => targets k pp = false) pre → targets k pp = true →
  importPkg kp pp (h, w) =
  (Done (None, Some (Errorf "import cycle: %s"
                       [Join (frameName (pp_ImportPath pp) (pp_Dir pp)
                                :: map keyName (pre ++ [k])) " <~ "])),
   (h, w)).
Proof.
  intros Hcl Hfk Hpre Hk. unfold KimporterImport.importPkg, detectCycle.
  rewrite detectCycle_at_hit; [|done|].
  - by rewrite (cycleChain_closed_form pp h kp _ pre k post).
  - rewrite Hfk. apply Exists_app. right. by left.
Qed.

(** When the registry has a valid state for the key of the import,
    [importPkg] returns the result of that state; the process state is as it
    was, and the registry differs at most by the importing state, added to
    the list of importers of that state. The package is not checked
    again. *)
Theorem importPkg_cache_hit
    (kp : Importer) (pp : PkgPath) (h : heap) (w : W) (a : addr) (st : state) :
  detectCycle kp pp h = Done None →
  Importer_state PathList ListSeparator kp pp h = (a, h) →
  h !! a = Some st →
  valid (kp_hash kp) st = true →
  importPkg kp pp (h, w) = (result st, (registered kp a st h, w)).
Proof.
  intros Hd Hs Hst Hv. unfold KimporterImport.importPkg. rewrite Hd, Hs.
  destruct (branch_returns kp a pp h (lookup_lt_Some _ _ _ Hst)) as (kx & h2 & Hb).
  rewrite Hb. rewrite (branch_registered _ _ _ _ _ _ _ Hst Hb).
  assert (Hreg : ∃ l, registered kp a st h !! a = Some (set_imby l st)).
  { unfold registered. destruct (ks kp) as [parent|]; [|by exists (imby st); destruct st].
    case_bool_decide; [by exists (imby st); destruct st|].
    eexists. apply list_lookup_insert_eq. by eapply lookup_lt_Some. }
  destruct Hreg as [l ->]. by replace (valid (kp_hash kp) (set_imby l st)) with true.
Qed.

(** When the state of the key is not valid, [importPkg] checks the package
    and stores what the check returned, the importer's hash, and as check
    tick the tick read before the check; what it returns is the result of
    the state so stored. The stored state is valid for the importer's hash
    exactly when its last invalidation is before that tick, so a check
    during which the state was invalidated is not taken for current. *)
Theorem importPkg_miss_stores
    (kp kx : Importer) (pp : PkgPath) (h h1 h2 h3 : heap) (w w3 : W) (a : addr)
    (st st3 : state) (p : option Package) (e : option error) :
  detectCycle kp pp h = Done None →
  Importer_state PathList ListSeparator kp pp h = (a, h1) →
  branch kp a pp h1 = Done (kx, h2) →
  h2 !! a = Some st →
  valid (kp_hash kp) st = false →
  check kx a pp (PackageSrc (cfg kp)) (h2, w) = (Done (p, e), (h3, w3)) →
  h3 !! a = Some st3 →
  ∃ st4,
    importPkg kp pp (h, w) = (result st4, (<[a := st4]> h3, w3)) ∧
    pkg st4 = p ∧ err st4 = e ∧ hash st4 = kp_hash kp ∧ chkAt st4 = InvAt w ∧
    invAt st4 = invAt st3 ∧ imby st4 = imby st3 ∧
    (valid (kp_hash kp) st4 = true ↔ (invAt st3 < InvAt w)%Z).
Proof.
  intros Hd Hs Hb Hst Hv Hc Hst3.
  exists (set_checked p e (kp_hash kp) (InvAt w) st3).
  split; [|repeat split; try done].
  - unfold KimporterImport.importPkg. by rewrite Hd, Hs, Hb, Hst, Hv, Hc, Hst3.
  - unfold valid. simpl. rewrite String.eqb_refl, orb_true_r, andb_true_r.
    by intros ?%Z.ltb_lt.
  - unfold valid. simpl. rewrite String.eqb_refl, orb_true_r, andb_true_r.
    by intros ?%Z.ltb_lt.
Qed.

Lemma importPkg_complete kp pp s p s' :
  importPkg kp pp s = (Done (p, None), s') → Complete p = Done true.
Proof.
  destruct s as [h w]. unfold KimporterImport.importPkg.
  destruct (detectCycle kp pp h) as [[e0|]| |]; try discriminate.
  destruct (Importer_state PathList ListSeparator kp pp h) as [a h1].
  destruct (branch kp a pp h1) as [[kx h2]| |]; try discriminate.
  destruct (h2 !! a) as [st|]; [|discriminate].
  destruct (valid (kp_hash kp) st).
  - intros [= Hr _]. by eapply result_complete.
  - destruct (check kx a pp (PackageSrc (cfg kp)) (h2, w)) as [[[p3 e3]| |] [h3 w3]];
      try discriminate.
    destruct (h3 !! a) as [st3|]; [|discriminate].
    intros [= Hr _]. by eapply result_complete.
Qed.

(** An [ImportPackage] that returns without error returns a package, and a
    complete one: never a nil package, never a partially checked one. *)
Theorem ImportPackage_delivers_complete
    (kp : Importer) (ipath srcDir : string) (s s' : heap * W) (p : option Package) :
  ImportPackage_reg kp ipath srcDir s = (Done (p, None), s') →
  Complete p = Done true.
Proof.
  unfold KimporterImport.ImportPackage_reg.
  destruct (importFakePkg ipath) as [fake|] eqn:Ef.
  - intros [= <- _]. unfold importFakePkg in Ef.
    destruct (String.eqb ipath "unsafe"); [by injection Ef as <-|].
    destruct (String.eqb ipath "C"); [by injection Ef as <-|]. discriminate.
  - destruct (negb (IsAbs _)); [discriminate|].
    destruct s as [h w].
    destruct (findPkg FindPkg kp ipath _ w) as [[[pp|] [e|]] w1]; try discriminate.
    apply importPkg_complete.
Qed.

(** [ImportPackage] changes the registry only after the path was resolved
    to a package for which no import cycle was found: a synthesized package,
    a source directory that is not absolute, a failed resolution and an
    import cycle leave the registry as it was. *)
Theorem ImportPackage_touches_registry_late
    (kp : Importer) (ipath srcDir : string) (h h' : heap) (w w' : W)
    (r : outcome (option Package * option error)) :
  ImportPackage_reg kp ipath srcDir (h, w) = (r, (h', w')) →
  h' ≠ h →
  importFakePkg ipath = None ∧
  ∃ dir pp w1, IsAbs dir = true ∧
    findPkg FindPkg kp ipath dir w = ((Some pp, None), w1) ∧
    detectCycle kp pp h = Done None.
Proof.
  unfold KimporterImport.ImportPackage_reg. intros E Hne.
  destruct (importFakePkg ipath) as [fake|]; [by injection E as _ <- _|].
  split; [done|].
  destruct (IsAbs _) eqn:Eabs; simpl in E; [|by injection E as _ <- _].
  destruct (findPkg FindPkg kp ipath _ w) as [[[pp|] [e|]] w1] eqn:Efp;
    try (by injection E as _ <- _).
  eexists _, pp, w1. split; [exact Eabs|]. split; [exact Efp|].
  unfold KimporterImport.importPkg in E.
  destruct (detectCycle kp pp h) as [[e0|]| |]; try (by injection E as _ <- _). done.
Qed.

End ImportFacts.

(** C1: [invalidate] does not terminate on every graph that the registry
    builds. The root imports [a], which imports [b]; both are edited, [a]
    no longer imports [b] and [b] imports [a], and their states are
    invalidated; the root imports [b]. No import reports a cycle, the
    source never had one. The edge from [b] to its importer [a] is still
    there, the new edge from [a] to [b] is added, and from then on an
    [InvalidateMemo] of either state, at any tick, does not return at any
    depth of recursion: the two states invalidate each other for ever. *)
Theorem InvalidateMemo_overflows_after_reimport :
  KimporterImport.importPkg sample_PathList ":" sample_InvAt (check_tree 2 tree_v1)
    kp_plain pp_a ([], 0) = (Done (Some (pkg_of pp_a), None), (reg_v1, 2)) ∧
  InvalidateMemo 2 1 3 reg_v1 = Done reg_edited ∧
  KimporterImport.importPkg sample_PathList ":" sample_InvAt (check_tree 2 tree_v2)
    kp_plain pp_b (reg_edited, 3) = (Done (Some (pkg_of pp_b), None), (reg_v2, 5)) ∧
  graph reg_v2 0 = [1] ∧ graph reg_v2 1 = [0] ∧
  ∀ fuel at_ a, a < 2 → InvalidateMemo fuel a at_ reg_v2 = OutOfFuel.
Proof.
  split; [vm_compute; reflexivity|]. split; [vm_compute; reflexivity|].
  split; [vm_compute; reflexivity|]. split; [reflexivity|]. split; [reflexivity|].
  intros fuel at_ a Ha. by apply invalidate_two_cycle.
Qed.

Lemma importPkg_cycle_untouched_witness :
  KimporterImport.importPkg sample_PathList ":" sample_InvAt sample_check
    kp_b pp_a (heap_ab, 0) =
  (Done (None, Some (Errorf "import cycle: %s"
                       [Join (frameName (pp_ImportPath pp_a) (pp_Dir pp_a)
                                :: map keyName ([key_b] ++ [key_a])) " <~ "])),
   (heap_ab, 0)).
Proof.
  apply (importPkg_cycle_untouched sample_PathList ":" sample_InvAt sample_check
           kp_b pp_a heap_ab 0 [key_b] key_a []).
  - simpl. lia.
  - reflexivity.
  - repeat constructor.
  - reflexivity.
Defined.

Lemma importPkg_cache_hit_witness :
  KimporterImport.importPkg sample_PathList ":" sample_InvAt sample_check
    kp_root pp_b ([st_checked], 7) =
  (result st_checked, (registered kp_root 0 st_checked [st_checked], 7)).
Proof.
  apply (importPkg_cache_hit sample_PathList ":" sample_InvAt sample_check
           kp_root pp_b [st_checked] 7 0 st_checked); vm_compute; reflexivity.
Defined.

Lemma importPkg_miss_stores_witness :
  ∃ st4,
    KimporterImport.importPkg sample_PathList ":" sample_InvAt sample_check
      kp_root pp_b ([], 0) = (result st4, (<[0 := st4]> [newState key_root_b], 1)) ∧
    pkg st4 = Some pkg_done ∧ err st4 = None ∧ hash st4 = kp_hash kp_root ∧
    chkAt st4 = sample_InvAt 0 ∧
    invAt st4 = invAt (newState key_root_b) ∧ imby st4 = imby (newState key_root_b) ∧
    (valid (kp_hash kp_root) st4 = true ↔ (invAt (newState key_root_b) < sample_InvAt 0)%Z).
Proof.
  eapply (importPkg_miss_stores sample_PathList ":" sample_InvAt sample_check
            kp_root _ pp_b [] [newState key_root_b] [newState key_root_b]
            [newState key_root_b] 0 1 0 (newState key_root_b) (newState key_root_b)
            (Some pkg_done) None); reflexivity.
Defined.

Lemma ImportPackage_delivers_complete_witness :
  Complete (Some pkg_done) = Done true.
Proof.
  eapply (ImportPackage_delivers_complete sample_PathList ":" sample_InvAt sample_check
            sample_Abs sample_IsAbs sample_FindPkg
            kp_root "b" "/gopath/src/a" ([], 0) _ (Some pkg_done)).
  reflexivity.
Defined.

Lemma ImportPackage_touches_registry_late_witness :
  importFakePkg "b" = None ∧
  ∃ dir pp w1, sample_IsAbs dir = true ∧
    findPkg sample_FindPkg kp_root "b" dir 0 = ((Some pp, None), w1) ∧
    detectCycle kp_root pp [] = Done None.
Proof.
  eapply (ImportPackage_touches_registry_late sample_PathList ":" sample_InvAt
            sample_check sample_Abs sample_IsAbs sample_FindPkg
            kp_root "b" "/gopath/src/a" [] _ 0 _ _).
  - reflexivity.
  - discriminate.
Defined.

End KimporterImportFacts.
